(** * Customer synchronisation with anonymisation: a shallow embedding of [app.ts]

    The development follows the program file by file and function by
    function: the digest used by [hex], the in-place transform
    [anonymizeCustomer], the one-shot [fullReindex], the two continuous
    actors ([Pursuer], [Updater]) and the top-level [run].

    Strings are byte strings (the UTF-8 encoding of the program's
    strings; ['@'] is a single byte there, and the digest is taken over
    exactly these bytes).  Numbers that the program handles are integral
    and are kept in [Z]; the 32-bit words of the digest have their
    wrap-around written out. *)

From Stdlib Require Import ZArith List String Ascii Bool Lia Sorted.
Import ListNotations.

Open Scope string_scope.
Open Scope list_scope.
Open Scope Z_scope.

(* ------------------------------------------------------------------ *)
(** * SHA-256, as used through [createHash("sha256")]                   *)
(* ------------------------------------------------------------------ *)

Module SHA256.

Definition mask32 (x : Z) : Z := Z.land x 0xffffffff.

Definition add32 (a b : Z) : Z := mask32 (a + b).

Definition rotr (n x : Z) : Z :=
  Z.lor (Z.shiftr x n) (mask32 (Z.shiftl x (32 - n))).

Definition Ch (x y z : Z) : Z :=
  Z.lxor (Z.land x y) (Z.land (mask32 (Z.lnot x)) z).

Definition Maj (x y z : Z) : Z :=
  Z.lxor (Z.lxor (Z.land x y) (Z.land x z)) (Z.land y z).

Definition Sigma0 (x : Z) : Z := Z.lxor (Z.lxor (rotr 2 x) (rotr 13 x)) (rotr 22 x).
Definition Sigma1 (x : Z) : Z := Z.lxor (Z.lxor (rotr 6 x) (rotr 11 x)) (rotr 25 x).
Definition sigma0 (x : Z) : Z := Z.lxor (Z.lxor (rotr 7 x) (rotr 18 x)) (Z.shiftr x 3).
Definition sigma1 (x : Z) : Z := Z.lxor (Z.lxor (rotr 17 x) (rotr 19 x)) (Z.shiftr x 10).

(** The round constants (the first 32 bits of the fractional parts of
    the cube roots of the first 64 primes), in decimal. *)
Definition K : list Z :=
  [
    1116352408; 1899447441; 3049323471; 3921009573; 961987163; 1508970993;
    2453635748; 2870763221; 3624381080; 310598401; 607225278; 1426881987;
    1925078388; 2162078206; 2614888103; 3248222580; 3835390401; 4022224774;
    264347078; 604807628; 770255983; 1249150122; 1555081692; 1996064986;
    2554220882; 2821834349; 2952996808; 3210313671; 3336571891; 3584528711;
    113926993; 338241895; 666307205; 773529912; 1294757372; 1396182291;
    1695183700; 1986661051; 2177026350; 2456956037; 2730485921; 2820302411;
    3259730800; 3345764771; 3516065817; 3600352804; 4094571909; 275423344;
    430227734; 506948616; 659060556; 883997877; 958139571; 1322822218;
    1537002063; 1747873779; 1955562222; 2024104815; 2227730452; 2361852424;
    2428436474; 2756734187; 3204031479; 3329325298 ].

(** The eight working words. *)
Record regs : Type := Regs
  { ra : Z; rb : Z; rc : Z; rd : Z; re : Z; rf : Z; rg : Z; rh : Z }.

Definition H0 : regs :=
  Regs 1779033703 3144134277 1013904242 2773480762
       1359893119 2600822924 528734635 1541459225.

(** Padding: a [0x80] byte, zero bytes up to 56 modulo 64, then the bit
    length as a 64-bit big-endian integer. *)
Definition be_bytes (n : nat) (x : Z) : list Z :=
  map (fun i => Z.land (Z.shiftr x (8 * Z.of_nat i)) 0xff) (rev (seq 0 n)).

Definition pad (msg : list Z) : list Z :=
  let len := Z.of_nat (List.length msg) in
  let zeros := Z.to_nat ((55 - len) mod 64) in
  msg ++ 0x80 :: repeat 0 zeros ++ be_bytes 8 (8 * len).

Fixpoint be_words (bs : list Z) : list Z :=
  match bs with
  | b3 :: b2 :: b1 :: b0 :: rest =>
      Z.lor (Z.lor (Z.lor (Z.shiftl b3 24) (Z.shiftl b2 16)) (Z.shiftl b1 8)) b0
      :: be_words rest
  | _ => []
  end.

Fixpoint chunks16 (fuel : nat) (ws : list Z) : list (list Z) :=
  match fuel, ws with
  | S k, _ :: _ => firstn 16 ws :: chunks16 k (skipn 16 ws)
  | _, _ => []
  end.

(** Message schedule: [w] holds the words computed so far, newest
    first, so that W[t-2], W[t-7], W[t-15], W[t-16] sit at fixed
    offsets. *)
Fixpoint extend (n : nat) (w : list Z) : list Z :=
  match n with
  | O => w
  | S k =>
      let x := add32 (add32 (sigma1 (nth 1 w 0)) (nth 6 w 0))
                     (add32 (sigma0 (nth 14 w 0)) (nth 15 w 0)) in
      extend k (x :: w)
  end.

Definition schedule (block : list Z) : list Z := rev (extend 48 (rev block)).

Definition round (r : regs) (kw : Z * Z) : regs :=
  let t1 := add32 (add32 (add32 (rh r) (Sigma1 (re r))) (Ch (re r) (rf r) (rg r)))
                  (add32 (fst kw) (snd kw)) in
  let t2 := add32 (Sigma0 (ra r)) (Maj (ra r) (rb r) (rc r)) in
  Regs (add32 t1 t2) (ra r) (rb r) (rc r) (add32 (rd r) t1) (re r) (rf r) (rg r).

Definition compress (h : regs) (block : list Z) : regs :=
  let r := fold_left round (combine K (schedule block)) h in
  Regs (add32 (ra h) (ra r)) (add32 (rb h) (rb r)) (add32 (rc h) (rc r))
       (add32 (rd h) (rd r)) (add32 (re h) (re r)) (add32 (rf h) (rf r))
       (add32 (rg h) (rg r)) (add32 (rh h) (rh r)).

Definition digest (msg : list Z) : regs :=
  let ws := be_words (pad msg) in
  fold_left compress (chunks16 (List.length ws) ws) H0.

End SHA256.

(* ------------------------------------------------------------------ *)
(** * Hexadecimal rendering and [hex]                                    *)
(* ------------------------------------------------------------------ *)

Definition nibble_char (n : Z) : ascii :=
  match n with
  | 0 => "0" | 1 => "1" | 2 => "2" | 3 => "3" | 4 => "4" | 5 => "5"
  | 6 => "6" | 7 => "7" | 8 => "8" | 9 => "9" | 10 => "a" | 11 => "b"
  | 12 => "c" | 13 => "d" | 14 => "e" | 15 => "f" | _ => "0"
  end%char%Z.

Definition nibble (w : Z) (k : Z) : ascii := nibble_char (Z.land (Z.shiftr w k) 15).

(** Eight lowercase hexadecimal digits of a 32-bit word, most
    significant first. *)
Definition word_hex (w : Z) : string :=
  String (nibble w 28) (String (nibble w 24) (String (nibble w 20) (String (nibble w 16)
  (String (nibble w 12) (String (nibble w 8) (String (nibble w 4) (String (nibble w 0)
  EmptyString))))))).

Definition string_bytes (s : string) : list Z :=
  map (fun c => Z.of_N (N_of_ascii c)) (list_ascii_of_string s).

(** [hash.update(value); hash.digest("hex")] *)
Definition sha256_hex (value : string) : string :=
  let r := SHA256.digest (string_bytes value) in
  (word_hex (SHA256.ra r) ++ word_hex (SHA256.rb r) ++ word_hex (SHA256.rc r)
   ++ word_hex (SHA256.rd r) ++ word_hex (SHA256.re r) ++ word_hex (SHA256.rf r)
   ++ word_hex (SHA256.rg r) ++ word_hex (SHA256.rh r))%string.

(** [function hex(value)]: the digest's first eight characters. *)
Definition hex (value : string) : string :=
  substring 0 8 (sha256_hex value).


(* ------------------------------------------------------------------ *)
(** * Dates                                                              *)
(* ------------------------------------------------------------------ *)

(** A [Date] object holds a time value: milliseconds since the epoch,
    or NaN (an "Invalid Date"). *)
Inductive Date : Type :=
| InvalidDate
| ValidDate (t : Z).

Definition maxTime : Z := 8640000000000000.

Definition inRange (t : Z) : Prop := - maxTime <= t <= maxTime.

(** [new Date(n)] for a number [n]; [None] is NaN.  Time values beyond
    the range of the language give an invalid date. *)
Definition Date_ofNumber (n : option Z) : Date :=
  match n with
  | Some t => if Z.abs t <=? maxTime then ValidDate t else InvalidDate
  | None => InvalidDate
  end.

(** [d.getTime()] *)
Definition getTime (d : Date) : option Z :=
  match d with
  | ValidDate t => Some t
  | InvalidDate => None
  end.

(** [lastCreatedAt.getTime() - 60 * 1000], then [new Date(aMinuteEarlier)] *)
Definition aMinuteEarlier (d : Date) : Date :=
  Date_ofNumber (option_map (fun t => t - 60 * 1000) (getTime d)).

Definition Date_eqb (a b : Date) : bool :=
  match a, b with
  | InvalidDate, InvalidDate => true
  | ValidDate x, ValidDate y => x =? y
  | _, _ => false
  end.

(** Order used by the store for [sort({ createdAt: 1 })].  The store
    holds proper dates; an invalid one is put first. *)
Definition Date_leb (a b : Date) : bool :=
  match a, b with
  | InvalidDate, _ => true
  | ValidDate _, InvalidDate => false
  | ValidDate x, ValidDate y => x <=? y
  end.

(** What the program takes from its platform and does not define
    itself: the language's rendering of a valid time value
    ([toISOString]) and its parsing of a string into a date
    ([new Date(string)], whose accepted formats beyond ISO 8601 are
    left to the implementation). *)
Class Platform : Type := {
  toISO : Z -> string;
  Date_parse : string -> Date
}.

(* ------------------------------------------------------------------ *)
(** * Records                                                            *)
(* ------------------------------------------------------------------ *)

Definition ObjectId : Type := N.

Record Address : Type := mkAddress {
  line1 : string;
  line2 : string;
  postcode : string;
  city : string;
  state : string;
  country : string
}.

(** Modelled from the spec: the [Customer] declaration (module
    [./declarations]) is not among the sources; its fields are those the
    spec lists for a Source Record and the code reads and writes. *)
Record Customer : Type := mkCustomer {
  _id : ObjectId;
  firstName : string;
  lastName : string;
  email : string;
  address : Address;
  createdAt : Date
}.

Definition Address_eqb (a b : Address) : bool :=
  String.eqb (line1 a) (line1 b) && String.eqb (line2 a) (line2 b)
  && String.eqb (postcode a) (postcode b) && String.eqb (city a) (city b)
  && String.eqb (state a) (state b) && String.eqb (country a) (country b).

(** [_.isEqual] on two customers: deep comparison, field by field. *)
Definition isEqual (a b : Customer) : bool :=
  N.eqb (_id a) (_id b) && String.eqb (firstName a) (firstName b)
  && String.eqb (lastName a) (lastName b) && String.eqb (email a) (email b)
  && Address_eqb (address a) (address b) && Date_eqb (createdAt a) (createdAt b).

Definition set_firstName (v : string) (c : Customer) : Customer :=
  mkCustomer (_id c) v (lastName c) (email c) (address c) (createdAt c).
Definition set_lastName (v : string) (c : Customer) : Customer :=
  mkCustomer (_id c) (firstName c) v (email c) (address c) (createdAt c).
Definition set_email (v : string) (c : Customer) : Customer :=
  mkCustomer (_id c) (firstName c) (lastName c) v (address c) (createdAt c).
Definition set_address (f : Address -> Address) (c : Customer) : Customer :=
  mkCustomer (_id c) (firstName c) (lastName c) (email c) (f (address c)) (createdAt c).
Definition set_line1 (v : string) (a : Address) : Address :=
  mkAddress v (line2 a) (postcode a) (city a) (state a) (country a).
Definition set_line2 (v : string) (a : Address) : Address :=
  mkAddress (line1 a) v (postcode a) (city a) (state a) (country a).
Definition set_postcode (v : string) (a : Address) : Address :=
  mkAddress (line1 a) (line2 a) v (city a) (state a) (country a).

(** [s.split("@")]: the pieces between separators; never empty. *)
Fixpoint split (sep : ascii) (s : string) : list string :=
  match s with
  | EmptyString => [EmptyString]
  | String c rest =>
      if Ascii.eqb c sep then EmptyString :: split sep rest
      else match split sep rest with
           | p :: ps => String c p :: ps
           | [] => [String c EmptyString]
           end
  end.

(** A template literal renders a missing value as the word undefined. *)
Definition template (v : option string) : string :=
  match v with
  | Some x => x
  | None => "undefined"
  end.

(* ------------------------------------------------------------------ *)
(** * The process, its world, and the monad of the program              *)
(* ------------------------------------------------------------------ *)

Inductive Coll : Type := Source | Target.

(** Operations a process issues on the store and on the checkpoint
    file, in the order issued. *)
Inductive Op : Type :=
| OpFind (c : Coll)
| OpFindOne (c : Coll)
| OpInsertOne (c : Coll)
| OpInsertMany (c : Coll)
| OpUpdateOne (c : Coll)
| OpWritePointer (raw : string).

Definition isStoreOp (o : Op) : bool :=
  match o with
  | OpWritePointer _ => false
  | _ => true
  end.

Definition isTargetWrite (o : Op) : bool :=
  match o with
  | OpInsertOne Target | OpInsertMany Target | OpUpdateOne Target => true
  | _ => false
  end.

Inductive Error : Type :=
| TypeError            (* a property read on a missing object *)
| RangeError           (* [toISOString] on an invalid date *)
| StoreError           (* the store did not answer *)
| DuplicateKey (id : ObjectId)
| EmptyBatch           (* [insertMany] with no document *)
| LockExists           (* [lockSync] on a held lock *)
| NoSuchFile.

Inductive Res (A : Type) : Type :=
| Ok (a : A)
| Throw (e : Error)
| Exit (code : Z).          (* [process.exit(code)] *)

Arguments Ok {A} a.
Arguments Throw {A} e.
Arguments Exit {A} code.

(** What is outside the process and shared with other processes. *)
Record World : Type := mkWorld {
  source : list Customer;
  target : list Customer;
  pointerStore : option string;     (* the file [.pointer] *)
  lockfile : bool;                  (* the file [.lock] exists *)
  clock : Z;                        (* the time [new Date()] reads *)
  outages : list bool               (* one entry per store operation to
                                       come; [true]: it fails *)
}.

Definition ref : Type := nat.

Record Pursuer : Type := mkPursuer {
  pointer : option Date;
  window : Z;
  buffer : list ref
}.

Record FindCursor : Type := mkCursor {
  pending : list Customer;
  closed : bool
}.

Record Updater : Type := mkUpdater {
  cursor : option FindCursor
}.

Inductive Task : Type :=
| PursuerTick                       (* the callback of [Pursuer.run] *)
| UpdaterRun                        (* [this.run()] of the Updater *)
| StreamData (doc : Customer)       (* the stream's "data" event *)
| StreamEnd.                        (* the stream's "end" event *)

Inductive Timer : Type :=
| Interval (ms : Z) (t : Task)
| Timeout (ms : Z) (t : Task).

(** A process: the shared world, its objects (customers on the heap,
    one Pursuer, one Updater), its registered timers, the operations it
    has issued and the rejections nobody awaited. *)
Record Proc : Type := mkProc {
  world : World;
  heap : list Customer;
  pursuer : Pursuer;
  updater : Updater;
  timers : list Timer;
  trace : list Op;
  rejections : list Error
}.

Definition with_world (f : World -> World) (s : Proc) : Proc :=
  mkProc (f (world s)) (heap s) (pursuer s) (updater s) (timers s) (trace s) (rejections s).
Definition with_heap (f : list Customer -> list Customer) (s : Proc) : Proc :=
  mkProc (world s) (f (heap s)) (pursuer s) (updater s) (timers s) (trace s) (rejections s).
Definition with_pursuer (f : Pursuer -> Pursuer) (s : Proc) : Proc :=
  mkProc (world s) (heap s) (f (pursuer s)) (updater s) (timers s) (trace s) (rejections s).
Definition with_updater (f : Updater -> Updater) (s : Proc) : Proc :=
  mkProc (world s) (heap s) (pursuer s) (f (updater s)) (timers s) (trace s) (rejections s).
Definition with_timers (f : list Timer -> list Timer) (s : Proc) : Proc :=
  mkProc (world s) (heap s) (pursuer s) (updater s) (f (timers s)) (trace s) (rejections s).
Definition with_trace (f : list Op -> list Op) (s : Proc) : Proc :=
  mkProc (world s) (heap s) (pursuer s) (updater s) (timers s) (f (trace s)) (rejections s).
Definition with_rejections (f : list Error -> list Error) (s : Proc) : Proc :=
  mkProc (world s) (heap s) (pursuer s) (updater s) (timers s) (trace s) (f (rejections s)).

Definition set_coll (c : Coll) (l : list Customer) (w : World) : World :=
  match c with
  | Source => mkWorld l (target w) (pointerStore w) (lockfile w) (clock w) (outages w)
  | Target => mkWorld (source w) l (pointerStore w) (lockfile w) (clock w) (outages w)
  end.
Definition get_coll (c : Coll) (w : World) : list Customer :=
  match c with
  | Source => source w
  | Target => target w
  end.
Definition set_pointerStore (v : option string) (w : World) : World :=
  mkWorld (source w) (target w) v (lockfile w) (clock w) (outages w).
Definition set_lockfile (v : bool) (w : World) : World :=
  mkWorld (source w) (target w) (pointerStore w) v (clock w) (outages w).
Definition set_outages (v : list bool) (w : World) : World :=
  mkWorld (source w) (target w) (pointerStore w) (lockfile w) (clock w) v.

Definition set_pointer (v : option Date) (p : Pursuer) : Pursuer :=
  mkPursuer v (window p) (buffer p).
Definition set_buffer (v : list ref) (p : Pursuer) : Pursuer :=
  mkPursuer (pointer p) (window p) v.

(** The program's computations: they read and change the process and
    end with a value, a thrown error or the end of the process.  The
    changes made up to a throw stay. *)
Definition JS (A : Type) : Type := Proc -> Res A * Proc.

Definition ret {A} (a : A) : JS A := fun s => (Ok a, s).

Definition bind {A B} (m : JS A) (k : A -> JS B) : JS B :=
  fun s =>
    match m s with
    | (Ok a, s') => k a s'
    | (Throw e, s') => (Throw e, s')
    | (Exit c, s') => (Exit c, s')
    end.

Definition throw {A} (e : Error) : JS A := fun s => (Throw e, s).
Definition process_exit {A} (code : Z) : JS A := fun s => (Exit code, s).
Definition gets {A} (f : Proc -> A) : JS A := fun s => (Ok (f s), s).
Definition modify (f : Proc -> Proc) : JS unit := fun s => (Ok tt, f s).

(** A call whose promise is not awaited: a rejection is left unhandled
    and the caller goes on. *)
Definition detached {A} (m : JS A) : JS unit :=
  fun s =>
    match m s with
    | (Ok _, s') => (Ok tt, s')
    | (Throw e, s') => (Ok tt, with_rejections (fun l => l ++ [e]) s')
    | (Exit c, s') => (Exit c, s')
    end.

Declare Scope js_scope.
Delimit Scope js_scope with js.
Notation "x <- m ;; k" := (bind m (fun x => k))
  (at level 61, m at next level, right associativity) : js_scope.
Notation "m ;; k" := (bind m (fun _ => k))
  (at level 61, right associativity) : js_scope.
Open Scope js_scope.

Fixpoint forEach {A} (l : list A) (body : A -> JS unit) : JS unit :=
  match l with
  | [] => ret tt
  | x :: rest => body x ;; forEach rest body
  end.

(** ** Objects *)

(** A document handed out by the driver is a fresh object. *)
Definition fresh (c : Customer) : JS ref :=
  fun s => (Ok (List.length (heap s)), with_heap (fun h => h ++ [c]) s).

Definition deref (r : ref) : JS Customer :=
  fun s =>
    match nth_error (heap s) r with
    | Some c => (Ok c, s)
    | None => (Throw TypeError, s)
    end.

Fixpoint list_set {A} (l : list A) (i : nat) (x : A) : list A :=
  match l, i with
  | [], _ => []
  | _ :: t, O => x :: t
  | h :: t, S j => h :: list_set t j x
  end.

(** An assignment to a property of the object [r] refers to. *)
Definition assign (r : ref) (f : Customer -> Customer) : JS unit :=
  c <- deref r ;;
  modify (with_heap (fun h => list_set h r (f c))).

(** ** The store

    Modelled from the spec: the store is an external collaborator
    reached through [find]/[findOne]/[insertOne]/[insertMany]/
    [updateOne].  A collection is the list of its documents in
    insertion order; identity ids are unique within a collection; a
    query's result is fixed when the query is issued. *)

Definition storeCall (o : Op) : JS unit :=
  fun s =>
    let s1 := with_trace (fun t => t ++ [o]) s in
    match outages (world s1) with
    | true :: rest => (Throw StoreError, with_world (set_outages rest) s1)
    | false :: rest => (Ok tt, with_world (set_outages rest) s1)
    | [] => (Ok tt, s1)
    end.

Fixpoint insertSorted (c : Customer) (l : list Customer) : list Customer :=
  match l with
  | [] => [c]
  | x :: rest =>
      if Date_leb (createdAt c) (createdAt x) then c :: x :: rest
      else x :: insertSorted c rest
  end.

(** [sort({ createdAt: 1 })] *)
Definition sortByCreatedAt (l : list Customer) : list Customer :=
  fold_right insertSorted [] l.

(** [limit(n)]: zero means no limit, a negative number limits to its
    absolute value. *)
Definition limitTo (n : Z) (l : list Customer) : list Customer :=
  if n =? 0 then l else firstn (Z.to_nat (Z.abs n)) l.

(** [{ createdAt: { $gt: bound } }] *)
Definition gtCreatedAt (bound : option Z) (c : Customer) : bool :=
  match bound, createdAt c with
  | Some b, ValidDate t => b <? t
  | _, _ => false
  end.

Definition byId (id : ObjectId) (c : Customer) : bool := N.eqb (_id c) id.

Definition all (c : Customer) : bool := true.

(** [coll.find(filter).sort({ createdAt: 1 }).limit(n).skip(k)]; the
    store skips before it limits. *)
Definition find (c : Coll) (filter : Customer -> bool) (limit skip : option Z)
  : JS (list Customer) :=
  storeCall (OpFind c) ;;
  docs <- gets (fun s => get_coll c (world s)) ;;
  let sorted := sortByCreatedAt (List.filter filter docs) in
  let skipped := match skip with
                 | Some k => skipn (Z.to_nat k) sorted
                 | None => sorted
                 end in
  ret (match limit with
       | Some n => limitTo n skipped
       | None => skipped
       end).

(** [coll.findOne(filter)], and with [sorted] the variant
    [coll.findOne(filter, { sort: [["createdAt", 1]] })]. *)
Definition findOne (c : Coll) (filter : Customer -> bool) (sorted : bool)
  : JS (option Customer) :=
  storeCall (OpFindOne c) ;;
  docs <- gets (fun s => get_coll c (world s)) ;;
  let matching := List.filter filter docs in
  ret (hd_error (if sorted then sortByCreatedAt matching else matching)).

Definition hasId (id : ObjectId) (l : list Customer) : bool := existsb (byId id) l.

Definition insertOne (c : Coll) (doc : Customer) : JS unit :=
  storeCall (OpInsertOne c) ;;
  docs <- gets (fun s => get_coll c (world s)) ;;
  if hasId (_id doc) docs then throw (DuplicateKey (_id doc))
  else modify (with_world (set_coll c (docs ++ [doc]))).

(** An ordered bulk insert stops at the first document it cannot
    insert; those before it stay inserted. *)
Fixpoint insertOrdered (docs coll : list Customer) : list Customer * option ObjectId :=
  match docs with
  | [] => (coll, None)
  | d :: rest =>
      if hasId (_id d) coll then (coll, Some (_id d))
      else insertOrdered rest (coll ++ [d])
  end.

Definition insertMany (c : Coll) (docs : list Customer) : JS unit :=
  match docs with
  | [] => throw EmptyBatch
  | _ =>
      storeCall (OpInsertMany c) ;;
      coll <- gets (fun s => get_coll c (world s)) ;;
      let (coll', dup) := insertOrdered docs coll in
      modify (with_world (set_coll c coll')) ;;
      match dup with
      | Some id => throw (DuplicateKey id)
      | None => ret tt
      end
  end.

Fixpoint replaceFirst (id : ObjectId) (doc : Customer) (l : list Customer) : list Customer :=
  match l with
  | [] => []
  | x :: rest => if byId id x then doc :: rest else x :: replaceFirst id doc rest
  end.

(** [coll.updateOne({ _id: id }, { $set: doc })], every field of the
    document being set. *)
Definition updateOne (c : Coll) (id : ObjectId) (doc : Customer) : JS unit :=
  storeCall (OpUpdateOne c) ;;
  docs <- gets (fun s => get_coll c (world s)) ;;
  modify (with_world (set_coll c (replaceFirst id doc docs))).

(** ** Files and the clock

    Modelled from the spec: the lock is a marker file whose existence
    means locked, created on acquire and removed on release. *)

Definition existsSync_POINTER_STORE : JS bool :=
  gets (fun s => match pointerStore (world s) with Some _ => true | None => false end).

Definition readFileSync_POINTER_STORE : JS string :=
  p <- gets (fun s => pointerStore (world s)) ;;
  match p with
  | Some raw => ret raw
  | None => throw NoSuchFile
  end.

Definition writeFileSync_POINTER_STORE (raw : string) : JS unit :=
  modify (fun s => with_trace (fun t => t ++ [OpWritePointer raw])
                     (with_world (set_pointerStore (Some raw)) s)).

Definition lockfile_checkSync : JS bool := gets (fun s => lockfile (world s)).

Definition lockfile_lockSync : JS unit :=
  held <- lockfile_checkSync ;;
  if held then throw LockExists else modify (with_world (set_lockfile true)).

Definition lockfile_unlockSync : JS unit := modify (with_world (set_lockfile false)).

(** [new Date()] *)
Definition Date_now : JS Date := gets (fun s => ValidDate (clock (world s))).

Definition setInterval (t : Task) (ms : Z) : JS unit :=
  modify (with_timers (fun l => l ++ [Interval ms t])).

Definition setTimeout (t : Task) (ms : Z) : JS unit :=
  modify (with_timers (fun l => l ++ [Timeout ms t])).

(* ------------------------------------------------------------------ *)
(** * The program                                                        *)
(* ------------------------------------------------------------------ *)

Definition LOCKFILE : string := ".lock".
Definition POINTER_STORE : string := ".pointer".
Definition IS_FULL_REINDEX : string := "--full-reindex".

(** [function anonymizeCustomer(customer)]: each statement assigns to a
    property of the object passed in; that object is returned. *)
Definition anonymizeCustomer (customer : ref) : JS ref :=
  assign customer (fun c => set_firstName (hex (firstName c)) c) ;;
  assign customer (fun c => set_lastName (hex (lastName c)) c) ;;
  c <- deref customer ;;
  let parts := split "@" (email c) in
  match nth_error parts 0 with
  | None => throw TypeError
  | Some loginPart =>
      let hostPart := nth_error parts 1 in
      assign customer (set_email (hex loginPart ++ "@" ++ template hostPart)) ;;
      assign customer (fun c => set_address (set_line1 (hex (line1 (address c)))) c) ;;
      assign customer (fun c => set_address (set_line2 (hex (line2 (address c)))) c) ;;
      assign customer (fun c => set_address (set_postcode (hex (postcode (address c)))) c) ;;
      ret customer
  end.

Fixpoint mapM {A B} (f : A -> JS B) (l : list A) : JS (list B) :=
  match l with
  | [] => ret []
  | x :: rest => y <- f x ;; ys <- mapM f rest ;; ret (y :: ys)
  end.

Section Program.

Context {platform : Platform}.

(** [d.toISOString()] *)
Definition toISOString (d : Date) : JS string :=
  match d with
  | ValidDate t => ret (toISO t)
  | InvalidDate => throw RangeError
  end.

(** The bound of [{ $gt: d }] as the store compares it.  The driver
    writes a date into the query as the 64-bit integer of its time
    value, and writes 0 for NaN: an invalid date reaches the store as
    1970-01-01T00:00:00.000Z. *)
Definition queryBound (d : option Date) : option Z :=
  match d with
  | Some (ValidDate t) => Some t
  | Some InvalidDate => Some 0
  | None => None
  end.

(** ** [fullReindex] *)

(** First loop of [fullReindex]: the target's records against the
    source; [lastCreatedAt] is the loop's running variable. *)
Fixpoint reindexUpdate (docs : list Customer) (lastCreatedAt : option Date)
  : JS (option Date) :=
  match docs with
  | [] => ret lastCreatedAt
  | targetCustomer :: rest =>
      found <- findOne Source (byId (_id targetCustomer)) false ;;
      match found with
      | None => reindexUpdate rest lastCreatedAt
      | Some doc =>
          sourceCustomer <- fresh doc ;;
          let lastCreatedAt := Some (createdAt targetCustomer) in
          newTargetCustomer <- anonymizeCustomer sourceCustomer ;;
          nt <- deref newTargetCustomer ;;
          (if isEqual targetCustomer nt then ret tt
           else updateOne Target (_id targetCustomer) nt) ;;
          reindexUpdate rest lastCreatedAt
      end
  end.

(** Second loop of [fullReindex]: the source's newer records into the
    target. *)
Fixpoint reindexInsert (docs : list Customer) (lastCreatedAt : Date) : JS Date :=
  match docs with
  | [] => ret lastCreatedAt
  | doc :: rest =>
      sourceCustomer <- fresh doc ;;
      newTargetCustomer <- anonymizeCustomer sourceCustomer ;;
      nt <- deref newTargetCustomer ;;
      insertOne Target nt ;;
      reindexInsert rest (createdAt nt)
  end.

Definition fullReindex : JS unit :=
  docs <- find Target all None None ;;
  lastCreatedAt <- reindexUpdate docs None ;;
  start <- match lastCreatedAt with
           | Some d => ret (Some d)
           | None =>
               firstCustomer <- findOne Source all true ;;
               match firstCustomer with
               | None => ret None                    (* [return] *)
               | Some c => ret (Some (aMinuteEarlier (createdAt c)))
               end
           end ;;
  match start with
  | None => ret tt
  | Some lastCreatedAt =>
      docs <- find Source (gtCreatedAt (queryBound (Some lastCreatedAt))) None None ;;
      lastCreatedAt <- reindexInsert docs lastCreatedAt ;;
      rawPointer <- toISOString lastCreatedAt ;;
      writeFileSync_POINTER_STORE rawPointer
  end.

(** ** [class Pursuer] *)

Definition Pursuer_loadPointer : JS unit :=
  ex <- existsSync_POINTER_STORE ;;
  if ex then
    rawPointer <- readFileSync_POINTER_STORE ;;
    modify (with_pursuer (set_pointer (Some (Date_parse rawPointer))))
  else
    lastCustomer <- findOne Source all true ;;
    now <- Date_now ;;
    let p := match lastCustomer with
             | Some c => createdAt c
             | None => now
             end in
    modify (with_pursuer (set_pointer (Some p))) ;;
    modify (with_pursuer (set_pointer (Some (aMinuteEarlier p)))).

Definition Pursuer_storePointer : JS unit :=
  p <- gets (fun s => pointer (pursuer s)) ;;
  match p with
  | None => ret tt
  | Some d =>
      rawPointer <- toISOString d ;;
      writeFileSync_POINTER_STORE rawPointer
  end.

Definition buffer_length : JS Z :=
  gets (fun s => Z.of_nat (List.length (buffer (pursuer s)))).

Definition Pursuer_loop : JS unit :=
  p <- gets (fun s => pointer (pursuer s)) ;;
  match p with
  | None => Pursuer_loadPointer
  | Some _ => ret tt
  end ;;
  len <- buffer_length ;;
  let bufferAlreadyExists := negb (len =? 0) in
  p <- gets (fun s => pointer (pursuer s)) ;;
  w <- gets (fun s => window (pursuer s)) ;;
  docs <- find Source (gtCreatedAt (queryBound p)) (Some (w - len)) (Some len) ;;
  forEach docs (fun doc =>
    customer <- fresh doc ;;
    newTargetCustomer <- anonymizeCustomer customer ;;
    modify (with_pursuer (fun p => set_buffer (buffer p ++ [newTargetCustomer]) p))) ;;
  len <- buffer_length ;;
  if (len =? w) || bufferAlreadyExists then
    buf <- gets (fun s => buffer (pursuer s)) ;;
    batch <- mapM deref buf ;;
    insertMany Target batch ;;
    match last (map Some buf) None with
    | Some lastCustomer =>
        c <- deref lastCustomer ;;
        modify (with_pursuer (set_pointer (Some (createdAt c))))
    | None => ret tt
    end ;;
    detached Pursuer_storePointer ;;
    modify (with_pursuer (set_buffer []))
  else ret tt.

(** The callback [Pursuer.run] hands to [setInterval]. *)
Definition Pursuer_tick : JS unit :=
  locked <- lockfile_checkSync ;;
  if negb locked then Pursuer_loop
  else modify (with_pursuer (set_pointer None)).

Definition Pursuer_run : JS unit := setInterval PursuerTick 1000.

(** ** [class Updater] *)

Definition Updater_onData (targetCustomer : Customer) : JS unit :=
  found <- findOne Source (byId (_id targetCustomer)) false ;;
  match found with
  | None => ret tt
  | Some doc =>
      sourceCustomer <- fresh doc ;;
      newTargetCustomer <- anonymizeCustomer sourceCustomer ;;
      nt <- deref newTargetCustomer ;;
      if isEqual targetCustomer nt then ret tt
      else updateOne Target (_id targetCustomer) nt
  end.

Definition cursor_close : JS unit :=
  modify (with_updater (fun u =>
    match cursor u with
    | Some c => mkUpdater (Some (mkCursor (pending c) true))
    | None => u
    end)).

Definition Updater_buildStream : JS unit :=
  cursor_close ;;
  docs <- find Target all None None ;;
  modify (with_updater (fun _ => mkUpdater (Some (mkCursor docs false)))).

Definition Updater_run : JS unit :=
  locked <- lockfile_checkSync ;;
  if locked then setTimeout UpdaterRun 3000
  else Updater_buildStream.

(** The handler of the stream's "data" event. *)
Definition Updater_onStreamData (targetCustomer : Customer) : JS unit :=
  locked <- lockfile_checkSync ;;
  if negb locked then Updater_onData targetCustomer
  else (cursor_close ;; Updater_run).

(** The handler of the stream's "end" event. *)
Definition Updater_onStreamEnd : JS unit := Updater_run.

(** ** [run] *)

Record Config : Type := mkConfig {
  DB_URI : option string;
  SOURCE_COLLECTION : option string;
  TARGET_COLLECTION : option string;
  BUFFER_SIZE : option Z;             (* [parseInt(...)]; [None] is NaN *)
  argv : list string
}.

Definition unset (v : option string) : bool :=
  match v with
  | None => true
  | Some s => String.eqb s EmptyString
  end.

Definition new_Pursuer (cfg : Config) : Pursuer :=
  mkPursuer None (match BUFFER_SIZE cfg with Some n => n | None => 1000 end) [].

Definition new_Updater : Updater := mkUpdater None.

Definition run (cfg : Config) : JS unit :=
  if unset (DB_URI cfg) || unset (SOURCE_COLLECTION cfg) || unset (TARGET_COLLECTION cfg)
  then ret tt
  else
    let requested := existsb (String.eqb IS_FULL_REINDEX) (argv cfg) in
    free <- (if requested then held <- lockfile_checkSync ;; ret (negb held)
             else ret false) ;;
    if free then
      lockfile_lockSync ;;
      fullReindex ;;
      lockfile_unlockSync ;;
      process_exit 0
    else
      modify (with_pursuer (fun _ => new_Pursuer cfg)) ;;
      Pursuer_run ;;
      modify (with_updater (fun _ => new_Updater)) ;;
      Updater_run.

(** What the event loop runs when a timer or a stream event fires;
    nobody awaits these callbacks. *)
Definition fire (t : Task) : JS unit :=
  detached (match t with
            | PursuerTick => Pursuer_tick
            | UpdaterRun => Updater_run
            | StreamData doc => Updater_onStreamData doc
            | StreamEnd => Updater_onStreamEnd
            end).

End Program.

(* ------------------------------------------------------------------ *)
(** * Vocabulary of the statements                                       *)
(* ------------------------------------------------------------------ *)

(** The field values [anonymizeCustomer] leaves in the object, as a
    function of the values it found there. *)
Definition anonymized (c : Customer) : Customer :=
  let parts := split "@" (email c) in
  mkCustomer (_id c) (hex (firstName c)) (hex (lastName c))
    (hex (hd EmptyString parts) ++ "@" ++ template (nth_error parts 1))
    (mkAddress (hex (line1 (address c))) (hex (line2 (address c)))
               (hex (postcode (address c)))
               (city (address c)) (state (address c)) (country (address c)))
    (createdAt c).

Definition isLowerHex (c : ascii) : bool :=
  let n := N_of_ascii c in
  ((48 <=? n) && (n <=? 57) || (97 <=? n) && (n <=? 102))%N.

Fixpoint allChars (p : ascii -> bool) (s : string) : bool :=
  match s with
  | EmptyString => true
  | String c rest => p c && allChars p rest
  end.

(** Eight characters, each a lowercase hexadecimal digit. *)
Definition isHex8 (s : string) : Prop :=
  String.length s = 8%nat /\ allChars isLowerHex s = true.

Fixpoint occurrences (sep : ascii) (s : string) : nat :=
  match s with
  | EmptyString => O
  | String c rest => (if Ascii.eqb c sep then 1 else 0) + occurrences sep rest
  end.

(** A process that has done nothing yet. *)
Definition idle (w : World) : Proc :=
  mkProc w [] (mkPursuer None 1000 []) (mkUpdater None) [] [] [].

Definition emptyWorld : World := mkWorld [] [] None false 0 [].

Definition jane : Customer :=
  mkCustomer 1%N "Jane" "Doe" "jane.doe@example.com"
    (mkAddress "34801 Kurt Spur" "Suite 028" "90210" "Springfield" "Oregon" "US")
    (ValidDate 1600000000000).

Definition withAt (e : string) : Customer :=
  mkCustomer (_id jane) (firstName jane) (lastName jane) e (address jane) (createdAt jane).

(** A process holding one customer object, at reference 0. *)
Definition holding (c : Customer) : Proc :=
  mkProc emptyWorld [c] (mkPursuer None 1000 []) (mkUpdater None) [] [] [].

(** The object a computation leaves at a reference. *)
Definition objectAfter {A} (m : JS A) (s : Proc) (r : ref) : option Customer :=
  nth_error (heap (snd (m s))) r.

(** The callbacks the event loop fires, one after the other. *)
Definition fireAll {platform : Platform} (ts : list Task) : JS unit :=
  forEach ts fire.

(** The store operations among those a process has issued. *)
Definition storeOps (s : Proc) : list Op := List.filter isStoreOp (trace s).

Definition targetWrites (s : Proc) : list Op := List.filter isTargetWrite (trace s).

Definition configured (cfg : Config) : Prop :=
  unset (DB_URI cfg) = false /\ unset (SOURCE_COLLECTION cfg) = false
  /\ unset (TARGET_COLLECTION cfg) = false.

Definition fullReindexRequested (cfg : Config) : Prop :=
  In IS_FULL_REINDEX (argv cfg).

(** No operation on the store fails from here on. *)
Definition storeUp (s : Proc) : Prop :=
  forall b, In b (outages (world s)) -> b = false.

(** A computation leaves an observation of the process as it found it,
    however it ends. *)
Definition keeps {X A} (f : Proc -> X) (m : JS A) : Prop :=
  forall s, f (snd (m s)) = f s.

Definition lockOf (s : Proc) : bool := lockfile (world s).

(** The process after a store operation that succeeded. *)
Definition afterCall (o : Op) (s : Proc) : Proc :=
  with_world (fun w => set_outages (tl (outages w)) w)
             (with_trace (fun t => t ++ [o]) s).

Definition olderOrEqual (a b : Customer) : Prop :=
  Date_leb (createdAt a) (createdAt b) = true.

Section Vocabulary.

Context {platform : Platform}.

(** What the Pursuer's query returns: the source's records newer than
    the checkpoint, oldest first, the first [len] skipped, cut to
    [w - len]. *)
Definition forwardQuery (p : option Date) (w : Z) (len : nat) (src : list Customer)
  : list Customer :=
  limitTo (w - Z.of_nat len)
          (skipn len (sortByCreatedAt (List.filter (gtCreatedAt (queryBound p)) src))).

End Vocabulary.

(** The references [refs] point to the objects [docs], in order. *)
Definition holds (s : Proc) (refs : list ref) (docs : list Customer) : Prop :=
  Forall2 (fun r c => nth_error (heap s) r = Some c) refs docs.

(** The process after the Pursuer's loop over the records of its query:
    one new object per record, anonymized, appended to the buffer. *)
Definition fetchedInto (docs : list Customer) (s : Proc) : Proc :=
  with_pursuer
    (fun p => set_buffer (buffer p ++ seq (List.length (heap s)) (List.length docs)) p)
    (with_heap (fun h => h ++ map anonymized docs) s).

(** The store takes the batch: no identity id twice in it, none already
    in the collection. *)
Definition freshIds (coll docs : list Customer) : Prop :=
  NoDup (map _id docs) /\ forall d, In d docs -> hasId (_id d) coll = false.

(** The process after a flush of the batch whose last record was
    created at [t]. *)
Definition flushedAt {platform : Platform} (batch : list Customer) (t : Z) (s : Proc) : Proc :=
  with_pursuer (fun p => set_buffer [] (set_pointer (Some (ValidDate t)) p))
    (with_trace (fun tr => tr ++ [OpWritePointer (toISO t)])
       (with_world (fun w => set_pointerStore (Some (toISO t))
                               (set_coll Target (target w ++ batch) w))
          (afterCall (OpInsertMany Target) s))).

(** The body of the [if] that ends [Pursuer.loop]: the flush. *)
Definition flushBlock {platform : Platform} : JS unit :=
  buf <- gets (fun s => buffer (pursuer s)) ;;
  batch <- mapM deref buf ;;
  insertMany Target batch ;;
  match last (map Some buf) None with
  | Some lastCustomer =>
      c <- deref lastCustomer ;;
      modify (with_pursuer (set_pointer (Some (createdAt c))))
  | None => ret tt
  end ;;
  detached Pursuer_storePointer ;;
  modify (with_pursuer (set_buffer [])).

(** The test of that [if], on the buffer's length before and after the
    query's records were appended. *)
Definition flushDue (w : Z) (before after : nat) : bool :=
  (Z.of_nat after =? w) || negb (Z.of_nat before =? 0).

(** The process once the tick has its checkpoint in memory: as it was
    when it already had one, after [loadPointer] otherwise. *)
Definition loaded {platform : Platform} (s : Proc) : Proc :=
  match pointer (pursuer s) with
  | Some _ => s
  | None => snd (Pursuer_loadPointer s)
  end.

(* ------------------------------------------------------------------ *)
(** * A continuous run                                                   *)
(* ------------------------------------------------------------------ *)

(** What happens, one thing after the other, while the continuous mode
    runs: a callback of the process fires, or the outside changes the
    world the process shares. *)
Inductive Event : Type :=
| Fires (t : Task)
| SourceBecomes (src : list Customer)     (* other clients of the store *)
| TargetBecomes (tgt : list Customer)
| LockBecomes (held : bool)               (* another process takes or
                                             releases the lock *)
| ClockBecomes (t : Z)
| OutagesBecome (out : list bool)
| OtherProcessReindexes.                  (* the [fullReindex] of another
                                             process runs to its end *)

Section Run.

Context {platform : Platform}.

Definition step (e : Event) (s : Proc) : Proc :=
  match e with
  | Fires t => snd (fire t s)
  | SourceBecomes src => with_world (set_coll Source src) s
  | TargetBecomes tgt => with_world (set_coll Target tgt) s
  | LockBecomes held => with_world (set_lockfile held) s
  | ClockBecomes t =>
      with_world (fun w => mkWorld (source w) (target w) (pointerStore w) (lockfile w)
                                   t (outages w)) s
  | OutagesBecome out => with_world (set_outages out) s
  | OtherProcessReindexes =>
      with_world (fun w => world (snd (fullReindex (idle w)))) s
  end.

Definition runOf (es : list Event) (s : Proc) : Proc :=
  fold_left (fun s e => step e s) es s.

(** The platform parses back what it renders. *)
Definition parsesBack : Prop :=
  forall t, inRange t -> Date_parse (toISO t) = ValidDate t.

End Run.

(** What the process has written to the checkpoint file, oldest
    first. *)
Definition pointerWrites (s : Proc) : list string :=
  flat_map (fun o => match o with
                     | OpWritePointer raw => [raw]
                     | _ => []
                     end) (trace s).

(** Every creation timestamp of the collection is a time value of the
    language. *)
Definition realDates (src : list Customer) : Prop :=
  forall c t, In c src -> createdAt c = ValidDate t -> inRange t.

Definition noReindex (e : Event) : Prop := e <> OtherProcessReindexes.

Definition realSource (e : Event) : Prop :=
  match e with
  | SourceBecomes src => realDates src
  | _ => True
  end.

(** Whether the store's next operation succeeds. *)
Definition callOk (s : Proc) : bool :=
  match outages (world s) with
  | true :: _ => false
  | _ => true
  end.

Definition lastOf (ts : list Z) : option Z := last (map Some ts) None.

(** Every buffered reference points to a record with a real creation
    timestamp, later than [lo] when there is one. *)
Definition bufferedAbove (s : Proc) (lo : option Z) : Prop :=
  forall r, In r (buffer (pursuer s)) ->
    exists c t, nth_error (heap s) r = Some c /\ createdAt c = ValidDate t
                /\ inRange t /\ (forall W, lo = Some W -> W < t).

(** The invariant of a run in which only this process writes the
    checkpoint file; [ts] are the checkpoints written so far. *)
Definition Inv {platform : Platform} (s : Proc) (ts : list Z) : Prop :=
  pointerWrites s = map toISO ts
  /\ StronglySorted Z.le ts
  /\ Forall inRange ts
  /\ bufferedAbove s (lastOf ts)
  /\ (forall W, lastOf ts = Some W ->
        pointerStore (world s) = Some (toISO W)
        /\ (pointer (pursuer s) = None \/ pointer (pursuer s) = Some (ValidDate W)))
  /\ realDates (source (world s)).

(** The second state differs from the first in nothing the invariant
    looks at, but for new objects on the heap. *)
Definition quietly (s s' : Proc) : Prop :=
  pursuer s' = pursuer s
  /\ pointerStore (world s') = pointerStore (world s)
  /\ pointerWrites s' = pointerWrites s
  /\ source (world s') = source (world s)
  /\ exists more, heap s' = heap s ++ more.

(** A computation that changes nothing the invariant looks at. *)
Definition calm {A} (m : JS A) : Prop := forall s, quietly s (snd (m s)).


(* ------------------------------------------------------------------ *)
(** * A platform: ISO 8601 dates as the language renders them           *)
(* ------------------------------------------------------------------ *)

Module ISO8601.

(** Day number (days since 1970-01-01) to year, month, day of the
    proleptic Gregorian calendar, by eras of 400 years that start on
    the first of March. *)
Definition civil (z : Z) : Z * Z * Z :=
  let z := z + 719468 in
  let era := z / 146097 in
  let doe := z mod 146097 in
  let yoe := (doe - doe / 1460 + doe / 36524 - doe / 146096) / 365 in
  let doy := doe - (365 * yoe + yoe / 4 - yoe / 100) in
  let mp := (5 * doy + 2) / 153 in
  let d := doy - (153 * mp + 2) / 5 + 1 in
  let m := if mp <? 10 then mp + 3 else mp - 9 in
  (yoe + era * 400 + (if m <=? 2 then 1 else 0), m, d).

Definition days (y m d : Z) : Z :=
  let y := if m <=? 2 then y - 1 else y in
  let era := y / 400 in
  let yoe := y mod 400 in
  let mp := if 2 <? m then m - 3 else m + 9 in
  let doy := (153 * mp + 2) / 5 + d - 1 in
  let doe := yoe * 365 + yoe / 4 - yoe / 100 + doy in
  era * 146097 + doe - 719468.

Definition msPerDay : Z := 86400000.

Definition digitChar (d : Z) : ascii := ascii_of_N (Z.to_N (48 + d)).

Definition digitValue (c : ascii) : option Z :=
  let n := Z.of_N (N_of_ascii c) in
  if (48 <=? n) && (n <=? 57) then Some (n - 48) else None.

(** [k] decimal digits of [n], most significant first. *)
Fixpoint digits (k : nat) (n : Z) : string :=
  match k with
  | O => EmptyString
  | S k' => String (digitChar ((n / 10 ^ Z.of_nat k') mod 10)) (digits k' n)
  end.

Fixpoint takeDigits (k : nat) (acc : Z) (s : string) : option (Z * string) :=
  match k with
  | O => Some (acc, s)
  | S k' =>
      match s with
      | String c rest =>
          match digitValue c with
          | Some d => takeDigits k' (10 * acc + d) rest
          | None => None
          end
      | EmptyString => None
      end
  end.

Definition expect (c : ascii) (s : string) : option string :=
  match s with
  | String c' rest => if Ascii.eqb c c' then Some rest else None
  | EmptyString => None
  end.

(** Years 0 to 9999 take four digits, the others a sign and six. *)
Definition year (y : Z) : string :=
  if (0 <=? y) && (y <=? 9999) then digits 4 y
  else String (if y <? 0 then "-"%char else "+"%char) (digits 6 (Z.abs y)).

(** [YYYY-MM-DDTHH:mm:ss.sssZ] *)
Definition render (t : Z) : string :=
  let '(y, m, d) := civil (t / msPerDay) in
  let ms := t mod msPerDay in
  (year y ++ "-" ++ digits 2 m ++ "-" ++ digits 2 d ++ "T"
   ++ digits 2 (ms / 3600000) ++ ":" ++ digits 2 ((ms / 60000) mod 60) ++ ":"
   ++ digits 2 ((ms / 1000) mod 60) ++ "." ++ digits 3 (ms mod 1000) ++ "Z")%string.

Definition takeYear (s : string) : option (Z * string) :=
  match s with
  | String c rest =>
      if Ascii.eqb c "+" then takeDigits 6 0 rest
      else if Ascii.eqb c "-" then
        match takeDigits 6 0 rest with
        | Some (y, rest') => if y =? 0 then None else Some (- y, rest')
        | None => None
        end
      else takeDigits 4 0 s
  | EmptyString => None
  end.

Definition opt_bind {A B} (o : option A) (k : A -> option B) : option B :=
  match o with
  | Some a => k a
  | None => None
  end.

(** The time value of a string in the format above; [None] when the
    string is not in that format or a field is out of its range. *)
Definition timeValue (s : string) : option Z :=
  opt_bind (takeYear s) (fun '(y, s) =>
  opt_bind (expect "-" s) (fun s =>
  opt_bind (takeDigits 2 0 s) (fun '(m, s) =>
  opt_bind (expect "-" s) (fun s =>
  opt_bind (takeDigits 2 0 s) (fun '(d, s) =>
  opt_bind (expect "T" s) (fun s =>
  opt_bind (takeDigits 2 0 s) (fun '(h, s) =>
  opt_bind (expect ":" s) (fun s =>
  opt_bind (takeDigits 2 0 s) (fun '(mi, s) =>
  opt_bind (expect ":" s) (fun s =>
  opt_bind (takeDigits 2 0 s) (fun '(sec, s) =>
  opt_bind (expect "." s) (fun s =>
  opt_bind (takeDigits 3 0 s) (fun '(ms, s) =>
  opt_bind (expect "Z" s) (fun s =>
  match s with
  | EmptyString =>
      if (1 <=? m) && (m <=? 12) && (1 <=? d) && (d <=? 31)
         && (h <=? 23) && (mi <=? 59) && (sec <=? 59)
      then Some (days y m d * msPerDay + h * 3600000 + mi * 60000 + sec * 1000 + ms)
      else None
  | _ => None
  end)))))))))))))).

(** [new Date(s)] on a platform that accepts this one format. *)
Definition parse (s : string) : Date := Date_ofNumber (timeValue s).

End ISO8601.

(** The platform used for the worked examples: ISO 8601 both ways. *)
Definition isoPlatform : Platform :=
  {| toISO := ISO8601.render;
     Date_parse := ISO8601.parse |}.

(** ** Worked inputs *)

Definition reindexConfig : Config :=
  mkConfig (Some "mongodb://localhost/shop") (Some "customers")
           (Some "customers_anonymised") None ["node"; "app.js"; "--full-reindex"].

Definition continuousConfig : Config :=
  mkConfig (Some "mongodb://localhost/shop") (Some "customers")
           (Some "customers_anonymised") None ["node"; "app.js"].

(** One customer in the source, nothing in the target, another process
    holding the lock. *)
Definition lockedWorld : World := mkWorld [jane] [] None true 1700000000000 [].

(** The same, the lock free, and a store whose first operation fails. *)
Definition failingWorld : World := mkWorld [jane] [] None false 1700000000000 [true].

(** Nothing in the source, no checkpoint file, no lock. *)
Definition emptySourceWorld : World := mkWorld [] [] None false 1700000000000 [].

(** Jane's record alone in the source, nothing in the target, no
    checkpoint file, no lock. *)
Definition oneRecordWorld : World := mkWorld [jane] [] None false 1700000000000 [].

(** ** A run with a reindex in between *)

Definition john : Customer :=
  mkCustomer 2%N "John" "Smith" "john.smith@example.org"
    (mkAddress "1 Main Street" "Apt 4" "10001" "Lakeside" "Ohio" "US")
    (ValidDate 1600000600000).

Definition carol : Customer :=
  mkCustomer 3%N "Carol" "Jones" "carol@example.net"
    (mkAddress "7 Hill Road" "Flat 2" "20002" "Riverton" "Texas" "US")
    (ValidDate 1600000300000).

Definition dave : Customer :=
  mkCustomer 4%N "Dave" "Brown" "dave@example.net"
    (mkAddress "9 Mill Lane" "Unit 1" "30003" "Eastfield" "Utah" "US")
    (ValidDate 1600000400000).

Definition erin : Customer :=
  mkCustomer 5%N "Erin" "White" "erin@example.net"
    (mkAddress "3 Park Row" "Floor 2" "40004" "Westwood" "Iowa" "US")
    (ValidDate 1600000900000).

Definition windowOneConfig : Config :=
  mkConfig (Some "mongodb://localhost/shop") (Some "customers")
           (Some "customers_anonymised") (Some 1) ["node"; "app.js"].

(** The continuous mode just started, Jane and John in the source. *)
Definition startedOnTwo : Proc :=
  snd (@run isoPlatform windowOneConfig
         (idle (mkWorld [jane; john] [] None false 1700000000000 []))).

(** Two ticks copy Jane and John.  John is then deleted from the source
    and Carol, created before him, arrives.  Another process takes the
    lock, the Pursuer's tick sees it, the other process reindexes and
    releases the lock.  Dave, created after Carol and before John,
    arrives, and the Pursuer ticks again. *)
Definition reindexInBetween : list Event :=
  [ Fires PursuerTick; Fires PursuerTick;
    SourceBecomes [jane; carol];
    LockBecomes true; Fires PursuerTick; OtherProcessReindexes; LockBecomes false;
    SourceBecomes [jane; carol; dave];
    Fires PursuerTick ].

(** The same without the other process's reindex. *)
Definition lockWithoutReindex : list Event :=
  [ Fires PursuerTick; Fires PursuerTick;
    SourceBecomes [jane; carol];
    LockBecomes true; Fires PursuerTick; Fires UpdaterRun; LockBecomes false;
    SourceBecomes [jane; carol; dave; erin];
    Fires PursuerTick; Fires (StreamData (anonymized jane)) ].

(** ** A checkpoint file that does not parse *)

Definition garbledWorld : World :=
  mkWorld [jane] [] (Some "not a date") false 1700000000000 [].

(** A process in continuous mode with the default window. *)
Definition startedGarbled : Proc :=
  snd (@run isoPlatform continuousConfig (idle garbledWorld)).

(** The same file beside a target that has Jane's record already. *)
Definition garbledSyncedWorld : World :=
  mkWorld [jane] [anonymized jane] (Some "not a date") false 1700000000000 [].

Definition startedGarbledSynced : Proc :=
  snd (@run isoPlatform continuousConfig (idle garbledSyncedWorld)).

Definition twoTicks : list Event := [ Fires PursuerTick; Fires PursuerTick ].

(* ------------------------------------------------------------------ *)
(** * Further vocabulary: what the program does to the shared world      *)
(* ------------------------------------------------------------------ *)

Definition targetIds (s : Proc) : list ObjectId := map _id (target (world s)).

(** A computation relates the process it ends in to the process it
    started from, however it ends. *)
Definition always (R : Proc -> Proc -> Prop) {A} (m : JS A) : Prop :=
  forall s, R s (snd (m s)).

(** What a computation returns, when it returns. *)
Definition yields {A} (m : JS A) (Q : A -> Prop) : Prop :=
  forall s a, fst (m s) = Ok a -> Q a.

Section Orderly.

Context {platform : Platform}.

(** An operation whose argument, if it is a write to the checkpoint
    file, is the rendering of a time value. *)
Definition rendered (o : Op) : Prop :=
  match o with
  | OpWritePointer raw => exists t, raw = toISO t
  | _ => True
  end.

(** The second process differs from the first as the program's own
    actions make it differ: the source and the clock are as they were,
    the target's identity ids are those it had, in their order,
    followed by new ones, and the operations issued since are store
    operations and writes of rendered time values. *)
Definition orderly (s s' : Proc) : Prop :=
  source (world s') = source (world s)
  /\ clock (world s') = clock (world s)
  /\ (exists more, targetIds s' = targetIds s ++ more)
  /\ (exists ops, trace s' = trace s ++ ops /\ Forall rendered ops).

End Orderly.

(** An event that is not a change of the source by somebody else. *)
Definition leavesSource (e : Event) : Prop :=
  match e with
  | SourceBecomes _ => False
  | _ => True
  end.

(** An event that is not a change of the target by somebody else. *)
Definition leavesTarget (e : Event) : Prop :=
  match e with
  | TargetBecomes _ => False
  | _ => True
  end.

(** ** Worked inputs *)

(** A run in which nobody but this program and another process's
    reindex touches the collections. *)
Definition amongPrograms : list Event :=
  [ Fires PursuerTick; Fires PursuerTick; Fires UpdaterRun;
    Fires (StreamData (anonymized jane)); Fires StreamEnd;
    LockBecomes true; Fires PursuerTick; OtherProcessReindexes; LockBecomes false;
    ClockBecomes 1700000005000; Fires PursuerTick ].

(** The second process is the first after the operations [ops], which
    left the target as [tgt] and touched neither the source nor the
    checkpoint file nor the lock; a store that answered before still
    answers. *)
Definition afterOps (s s' : Proc) (tgt : list Customer) (ops : list Op) : Prop :=
  source (world s') = source (world s)
  /\ target (world s') = tgt
  /\ pointerStore (world s') = pointerStore (world s)
  /\ lockfile (world s') = lockfile (world s)
  /\ trace s' = trace s ++ ops
  /\ (storeUp s -> storeUp s').

(** An operation that reads. *)
Definition isRead (o : Op) : bool :=
  match o with
  | OpFind _ | OpFindOne _ => true
  | _ => false
  end.

(** The source emptied after Jane's record was copied. *)
Definition orphanWorld : World :=
  mkWorld [] [anonymized jane] None false 1700000000000 [].

(** Jane's record copied; Carol's and John's, both newer, not yet. *)
Definition halfDoneWorld : World :=
  mkWorld [john; jane; carol] [anonymized jane] None false 1700000000000 [].

(** The second process is the first after steps that neither released
    a rejection nor wrote the checkpoint file nor took anything from
    the buffer, the heap or the target. *)
Definition stalled (s s' : Proc) : Prop :=
  lockfile (world s') = lockfile (world s)
  /\ (storeUp s -> storeUp s')
  /\ rejections s' = rejections s
  /\ pointerWrites s' = pointerWrites s
  /\ pointerStore (world s') = pointerStore (world s)
  /\ (exists more, buffer (pursuer s') = buffer (pursuer s) ++ more)
  /\ (exists more, heap s' = heap s ++ more)
  /\ (exists more, target (world s') = target (world s) ++ more).

Definition isTick (e : Event) : bool :=
  match e with
  | Fires PursuerTick => true
  | _ => false
  end.

(** Ticks of the Pursuer, new contents of the source, and the passing
    of time. *)
Definition tickOrArrival (e : Event) : Prop :=
  match e with
  | Fires PursuerTick | SourceBecomes _ | ClockBecomes _ => True
  | _ => False
  end.

(** The checkpoint file lost while Jane's record is in both
    collections. *)
Definition lostCheckpointWorld : World :=
  mkWorld [jane] [anonymized jane] None false 1700000000000 [].

(** The continuous mode started there, after its first tick. *)
Definition afterFirstTick : Proc :=
  snd (@fire isoPlatform PursuerTick
         (snd (@run isoPlatform continuousConfig (idle lostCheckpointWorld)))).

(** Jane's record in the target under a former address. *)
Definition staleWorld : World :=
  mkWorld [jane; john] [withAt "jane@former.example"; anonymized john] None false
          1700000000000 [].

Definition ticksAndArrivals : list Event :=
  [ Fires PursuerTick; SourceBecomes [jane; john]; Fires PursuerTick;
    ClockBecomes 1700000003000; Fires PursuerTick ].

(** The errors a tick of the Pursuer can end in. *)
Definition tickError (e : Error) : Prop :=
  e = StoreError \/ e = TypeError \/ e = EmptyBatch \/ exists id, e = DuplicateKey id.

(** Four records to copy, and a store that fails on its fourth
    operation (the Updater's first read, the Pursuer's two reads, then
    the bulk insert). *)
Definition fourRecordWorld : World :=
  mkWorld [jane; john; carol; dave] [] None false 1700000000000
          [false; false; false; true].

(** The continuous mode started there with a window of one record,
    after a first tick whose bulk insert the store did not take. *)
Definition afterRefusedFlush : Proc :=
  snd (@fire isoPlatform PursuerTick
         (snd (@run isoPlatform windowOneConfig (idle fourRecordWorld)))).

Definition threeRecordWorld : World :=
  mkWorld [john; jane; carol] [] None false 1700000000000 [].

(** A process with a checkpoint in memory. *)
Definition withCheckpoint (t : Z) (w : World) : Proc :=
  with_pursuer (set_pointer (Some (ValidDate t))) (idle w).

(** The parts of a process that belong to the continuous mode. *)
Definition actorsOf (s : Proc) : Pursuer * Updater * list Timer * list Error :=
  (pursuer s, updater s, timers s, rejections s).

(** Events of a run in which, of the program's actors, only the
    Pursuer acts, and nobody else writes the target or the checkpoint
    file. *)
Definition pursuerAlone (e : Event) : Prop :=
  match e with
  | Fires PursuerTick | SourceBecomes _ | LockBecomes _ | ClockBecomes _
  | OutagesBecome _ => True
  | _ => False
  end.

(** A record created after the instant [lo], when there is one. *)
Definition createdAfter (lo : option Z) (c : Customer) : Prop :=
  exists t, createdAt c = ValidDate t /\ forall W, lo = Some W -> W < t.

Definition targetOf (s : Proc) : list Customer := target (world s).

(** Jane and John to copy, then a record that arrives late, created
    before Jane's. *)
Definition early : Customer :=
  mkCustomer 6%N "Eve" "Early" "eve@example.net"
    (mkAddress "5 Dawn Street" "Room 3" "50005" "Northgate" "Maine" "US")
    (ValidDate 1599990000000).

Definition lateArrival : list Event :=
  [ SourceBecomes [jane; john; early]; Fires PursuerTick; Fires PursuerTick ].

Definition firstTick : list Event := [ Fires PursuerTick ].

(** What the Updater makes of the target's record [t]: the anonymized
    source record of the same id, or [t] itself when the source has
    none. *)
Definition reconciled (src : list Customer) (t : Customer) : Customer :=
  match hd_error (List.filter (byId (_id t)) src) with
  | Some d => anonymized d
  | None => t
  end.

(** The target after [Updater.onData] on the streamed record [t]. *)
Definition reconcileStep (src : list Customer) (tgt : list Customer) (t : Customer)
  : list Customer :=
  match hd_error (List.filter (byId (_id t)) src) with
  | Some d =>
      if isEqual t (anonymized d) then tgt
      else replaceFirst (_id t) (anonymized d) tgt
  | None => tgt
  end.

(** The write [Updater.onData] issues for the streamed record [t]. *)
Definition reconcileWrites (src : list Customer) (t : Customer) : list Op :=
  match hd_error (List.filter (byId (_id t)) src) with
  | Some d => if isEqual t (anonymized d) then [] else [OpUpdateOne Target]
  | None => []
  end.

(** The records of [done] reconciled, the others as they are. *)
Definition reconciledAmong (src done : list Customer) (x : Customer) : Customer :=
  if hasId (_id x) done then reconciled src x else x.

(** John's record gone from the source, Jane's changed since it was
    copied. *)
Definition driftedWorld : World :=
  mkWorld [withAt "jane@new.example"; carol]
          [anonymized jane; anonymized john; anonymized carol] None false
          1700000000000 [].

(** A record as the anonymizer leaves one. *)
Definition isAnonymized (c : Customer) : Prop := exists d, c = anonymized d.

(** The target holds anonymized records only, and so do the objects
    the Pursuer's buffer refers to. *)
Definition anonymizedOnly (s : Proc) : Prop :=
  Forall isAnonymized (target (world s))
  /\ forall r c, In r (buffer (pursuer s)) -> nth_error (heap s) r = Some c ->
                 isAnonymized c.

(** An event that, if it is a change of the target by somebody else,
    brings anonymized records only. *)
Definition bringsAnonymized (e : Event) : Prop :=
  match e with
  | TargetBecomes tgt => Forall isAnonymized tgt
  | _ => True
  end.

(** A computation keeps what holds of the process, however it ends. *)
Definition preserves (K : Proc -> Prop) {A} (m : JS A) : Prop :=
  forall s, K s -> K (snd (m s)).

(** The second process has the target and the heap of the first, and
    no reference in its buffer that the first had not. *)
Definition settled (s s' : Proc) : Prop :=
  target (world s') = target (world s) /\ heap s' = heap s
  /\ incl (buffer (pursuer s')) (buffer (pursuer s)).

(** An event that is not somebody else taking or releasing the lock. *)
Definition leavesLock (e : Event) : Prop :=
  match e with
  | LockBecomes _ => False
  | _ => True
  end.

(** Two ticks, then a pass of the Updater over Jane's record. *)
Definition copyThenReconcile : list Event :=
  [ Fires PursuerTick; Fires PursuerTick; Fires UpdaterRun;
    Fires (StreamData (anonymized jane)); Fires StreamEnd;
    TargetBecomes [anonymized jane; anonymized carol]; OtherProcessReindexes ].


(* ------------------------------------------------------------------ *)
(** * The digest                                                         *)
(* ------------------------------------------------------------------ *)

Example sha256_abc :
  sha256_hex "abc" = "ba7816bf8f01cfea414140de5dae2223b00361a396177a9cb410ff61f20015ad".
Proof. vm_compute. reflexivity. Qed.

Example sha256_empty :
  sha256_hex EmptyString = "e3b0c44298fc1c149afbf4c8996fb92427ae41e4649b934ca495991b7852b855".
Proof. vm_compute. reflexivity. Qed.

Example sha256_two_blocks :
  sha256_hex "abcdbcdecdefdefgefghfghighijhijkijkljklmklmnlmnomnopnopq"
  = "248d6a61d20638b8e5c026930c3e6039a33ce45964ff2167f6ecedd419db06c1".
Proof. vm_compute. reflexivity. Qed.

Example hex_padding_edges :
  hex "Jane" = "4f23798d" /\ hex "jane.doe" = "d48722fc"
  /\ hex "xxxxxxxxxxxxxxxxxxxxxxxxxxxxxxxxxxxxxxxxxxxxxxxxxxxxxxx" = "d5e28568"
  /\ hex "xxxxxxxxxxxxxxxxxxxxxxxxxxxxxxxxxxxxxxxxxxxxxxxxxxxxxxxx" = "04c26261"
  /\ hex "xxxxxxxxxxxxxxxxxxxxxxxxxxxxxxxxxxxxxxxxxxxxxxxxxxxxxxxxxxxxxxxx" = "7ce10097".
Proof. vm_compute. repeat split. Qed.

Lemma nibble_char_hex (n : Z) : isLowerHex (nibble_char n) = true.
Proof.
  destruct n as [|p|p]; try reflexivity.
  do 4 (destruct p as [p|p|]; try reflexivity).
Qed.

Lemma hex_word (value : string) :
  hex value = word_hex (SHA256.ra (SHA256.digest (string_bytes value))).
Proof.
  unfold hex, sha256_hex.
  generalize (SHA256.digest (string_bytes value)); intros r.
  unfold word_hex. reflexivity.
Qed.

Lemma hex_isHex8 (value : string) : isHex8 (hex value).
Proof.
  rewrite hex_word. unfold isHex8, word_hex, nibble. split; [reflexivity|].
  cbn [allChars]. rewrite !nibble_char_hex. reflexivity.
Qed.

(** From here on the digest is a black box for the proofs (evaluation
    still computes it). *)
Opaque hex.

(* ------------------------------------------------------------------ *)
(** * Objects on the heap                                                *)
(* ------------------------------------------------------------------ *)

Lemma list_set_length {A} (l : list A) i x : List.length (list_set l i x) = List.length l.
Proof.
  revert i; induction l as [|h t IH]; intros [|i]; simpl; auto.
Qed.

Lemma nth_error_list_set_eq {A} (l : list A) i x c :
  nth_error l i = Some c -> nth_error (list_set l i x) i = Some x.
Proof.
  revert i; induction l as [|h t IH]; intros [|i]; simpl; intros H;
    try discriminate; auto.
Qed.

Lemma nth_error_list_set_ne {A} (l : list A) i j x :
  i <> j -> nth_error (list_set l i x) j = nth_error l j.
Proof.
  revert i j; induction l as [|h t IH]; intros [|i] [|j] H; simpl; auto;
    try congruence.
Qed.

Lemma list_set_twice {A} (l : list A) i x y : list_set (list_set l i x) i y = list_set l i y.
Proof.
  revert i; induction l as [|h t IH]; intros [|i]; simpl; auto.
  now rewrite IH.
Qed.

Lemma list_set_app_end {A} (l : list A) x y : list_set (l ++ [x]) (List.length l) y = l ++ [y].
Proof. induction l as [|h t IH]; simpl; auto. now rewrite IH. Qed.

Lemma nth_error_app_end {A} (l : list A) x : nth_error (l ++ [x]) (List.length l) = Some x.
Proof. induction l as [|h t IH]; simpl; auto. Qed.

Lemma bind_ok {A B} (m : JS A) (k : A -> JS B) s a s' :
  m s = (Ok a, s') -> bind m k s = k a s'.
Proof. intros H. unfold bind. now rewrite H. Qed.

Lemma bind_throw {A B} (m : JS A) (k : A -> JS B) s e s' :
  m s = (Throw e, s') -> bind m k s = (Throw e, s').
Proof. intros H. unfold bind. now rewrite H. Qed.

Lemma deref_run s r c : nth_error (heap s) r = Some c -> deref r s = (Ok c, s).
Proof. intros H. unfold deref. now rewrite H. Qed.

Lemma assign_run s r c f :
  nth_error (heap s) r = Some c ->
  assign r f s = (Ok tt, with_heap (fun h => list_set h r (f c)) s).
Proof.
  intros H. unfold assign. rewrite (bind_ok _ _ _ _ _ (deref_run _ _ _ H)). reflexivity.
Qed.

Lemma heap_after_set s r c x :
  nth_error (heap s) r = Some c ->
  nth_error (heap (with_heap (fun h => list_set h r x) s)) r = Some x.
Proof. intros H. simpl. eapply nth_error_list_set_eq; eauto. Qed.

Lemma split_cons sep s : exists p ps, split sep s = p :: ps.
Proof.
  induction s as [|c rest IH]; simpl.
  - eauto.
  - destruct (Ascii.eqb c sep); [eauto|].
    destruct IH as (p & ps & ->). eauto.
Qed.

(** [anonymizeCustomer] in one step: it succeeds on every object,
    returns the reference it was given, and leaves at that reference
    the values [anonymized] computes; nothing else changes. *)
Lemma anonymizeCustomer_run s r c :
  nth_error (heap s) r = Some c ->
  anonymizeCustomer r s = (Ok r, with_heap (fun h => list_set h r (anonymized c)) s).
Proof.
  intros H. unfold anonymizeCustomer.
  rewrite (bind_ok _ _ _ _ _ (assign_run _ _ _ _ H)).
  pose proof (heap_after_set s r c (set_firstName (hex (firstName c)) c) H) as H1.
  rewrite (bind_ok _ _ _ _ _ (assign_run _ _ _ _ H1)).
  match type of H1 with nth_error (heap ?s1) _ = Some ?c1 =>
    pose proof (heap_after_set s1 r c1 (set_lastName (hex (lastName c1)) c1) H1) as H2 end.
  rewrite (bind_ok _ _ _ _ _ (deref_run _ _ _ H2)).
  cbn [email set_lastName set_firstName].
  unfold anonymized.
  destruct (split_cons "@" (email c)) as (p & ps & ->).
  cbn [nth_error hd].
  match type of H2 with nth_error (heap ?s2) _ = Some ?c2 =>
    rewrite (bind_ok _ _ _ _ _ (assign_run s2 r c2 _ H2));
    pose proof (heap_after_set s2 r c2
      (set_email (hex p ++ "@" ++ template (nth_error ps 0)) c2) H2) as H3 end.
  match type of H3 with nth_error (heap ?s3) _ = Some ?c3 =>
    rewrite (bind_ok _ _ _ _ _ (assign_run s3 r c3 _ H3));
    pose proof (heap_after_set s3 r c3
      (set_address (set_line1 (hex (line1 (address c3)))) c3) H3) as H4 end.
  match type of H4 with nth_error (heap ?s4) _ = Some ?c4 =>
    rewrite (bind_ok _ _ _ _ _ (assign_run s4 r c4 _ H4));
    pose proof (heap_after_set s4 r c4
      (set_address (set_line2 (hex (line2 (address c4)))) c4) H4) as H5 end.
  match type of H5 with nth_error (heap ?s5) _ = Some ?c5 =>
    rewrite (bind_ok _ _ _ _ _ (assign_run s5 r c5 _ H5)) end.
  unfold ret. f_equal.
  destruct s as [w h pu up tm tr rj]. unfold with_heap. cbn.
  f_equal. rewrite !list_set_twice. f_equal.
Qed.

(* ------------------------------------------------------------------ *)
(** * The anonymizer                                                     *)
(* ------------------------------------------------------------------ *)

Lemma split_none sep s : occurrences sep s = 0%nat -> split sep s = [s].
Proof.
  induction s as [|c rest IH]; simpl; intros H; [reflexivity|].
  destruct (Ascii.eqb c sep); [discriminate|].
  now rewrite IH.
Qed.

Lemma split_first sep l d :
  occurrences sep l = 0%nat ->
  split sep (l ++ String sep d) = l :: split sep d.
Proof.
  induction l as [|c rest IH]; simpl; intros H.
  - now rewrite Ascii.eqb_refl.
  - destruct (Ascii.eqb c sep); [discriminate|].
    now rewrite IH.
Qed.

Lemma anonymized_email_one_at c l d :
  email c = (l ++ "@" ++ d)%string ->
  occurrences "@" l = 0%nat -> occurrences "@" d = 0%nat ->
  email (anonymized c) = (hex l ++ "@" ++ d)%string.
Proof.
  intros E Hl Hd. unfold anonymized. cbn [email]. rewrite E.
  change ("@" ++ d)%string with (String "@" d).
  rewrite (split_first _ _ _ Hl), (split_none _ _ Hd). reflexivity.
Qed.

Lemma anonymized_email_no_at c :
  occurrences "@" (email c) = 0%nat ->
  email (anonymized c) = (hex (email c) ++ "@undefined")%string.
Proof.
  intros H. unfold anonymized. cbn [email]. rewrite (split_none _ _ H). reflexivity.
Qed.

Lemma anonymizeCustomer_frame s r c :
  nth_error (heap s) r = Some c ->
  exists s',
    anonymizeCustomer r s = (Ok r, s')
    /\ nth_error (heap s') r = Some (anonymized c)
    /\ (forall r', r' <> r -> nth_error (heap s') r' = nth_error (heap s) r')
    /\ List.length (heap s') = List.length (heap s)
    /\ world s' = world s /\ pursuer s' = pursuer s /\ updater s' = updater s
    /\ timers s' = timers s /\ trace s' = trace s /\ rejections s' = rejections s.
Proof.
  intros H. eexists. split; [apply (anonymizeCustomer_run _ _ _ H)|].
  split; [apply (heap_after_set _ _ _ _ H)|].
  split; [intros r' Hr; simpl; now apply nth_error_list_set_ne|].
  split; [simpl; apply list_set_length|].
  repeat split.
Qed.

(** C3 (as amended): the transform is deterministic but works in place.
    On every object it succeeds and returns the very reference it was
    given; the object at that reference is overwritten with values that
    depend on nothing but the values found there (two calls on objects
    with identical fields leave identical fields); no other object and
    nothing outside the heap is touched. *)
Theorem C3_anonymize_deterministic_in_place :
  forall s1 r1 s2 r2 c,
    nth_error (heap s1) r1 = Some c ->
    nth_error (heap s2) r2 = Some c ->
    exists s1' s2',
      anonymizeCustomer r1 s1 = (Ok r1, s1')
      /\ anonymizeCustomer r2 s2 = (Ok r2, s2')
      /\ nth_error (heap s1') r1 = Some (anonymized c)
      /\ nth_error (heap s2') r2 = nth_error (heap s1') r1
      /\ (forall r', r' <> r1 -> nth_error (heap s1') r' = nth_error (heap s1) r')
      /\ world s1' = world s1 /\ pursuer s1' = pursuer s1 /\ updater s1' = updater s1
      /\ timers s1' = timers s1 /\ trace s1' = trace s1
      /\ rejections s1' = rejections s1.
Proof.
  intros s1 r1 s2 r2 c H1 H2.
  destruct (anonymizeCustomer_frame _ _ _ H1) as (s1' & E1 & O1 & F1 & _ & Rest).
  destruct (anonymizeCustomer_frame _ _ _ H2) as (s2' & E2 & O2 & _).
  exists s1', s2'. repeat split; try tauto; congruence.
Qed.

Lemma C3_anonymize_deterministic_in_place_witness :
  exists s1' s2',
    anonymizeCustomer 0%nat (holding jane) = (Ok 0%nat, s1')
    /\ anonymizeCustomer 1%nat (with_heap (fun _ => [withAt "x@y"; jane]) (holding jane))
       = (Ok 1%nat, s2')
    /\ nth_error (heap s1') 0 = Some (anonymized jane)
    /\ nth_error (heap s2') 1 = nth_error (heap s1') 0
    /\ (forall r', r' <> 0%nat -> nth_error (heap s1') r' = nth_error (heap (holding jane)) r')
    /\ world s1' = world (holding jane) /\ pursuer s1' = pursuer (holding jane)
    /\ updater s1' = updater (holding jane)
    /\ timers s1' = timers (holding jane) /\ trace s1' = trace (holding jane)
    /\ rejections s1' = rejections (holding jane).
Proof.
  apply (C3_anonymize_deterministic_in_place (holding jane) 0%nat
           (with_heap (fun _ => [withAt "x@y"; jane]) (holding jane)) 1%nat jane);
    reflexivity.
Defined.

(** C3, as stated, fails: the record passed in is not left unchanged
    and the result is not a new record.  With Jane's record as the only
    object (reference 0), the call returns reference 0 itself, and the
    object at reference 0 now carries the digests. *)
Lemma C3_input_record_is_overwritten :
  nth_error (heap (holding jane)) 0 = Some jane
  /\ fst (anonymizeCustomer 0%nat (holding jane)) = Ok 0%nat
  /\ List.length (heap (snd (anonymizeCustomer 0%nat (holding jane)))) = 1%nat
  /\ option_map firstName (objectAfter (anonymizeCustomer 0%nat) (holding jane) 0%nat)
     = Some "4f23798d"
  /\ objectAfter (anonymizeCustomer 0%nat) (holding jane) 0%nat <> Some jane.
Proof.
  vm_compute. repeat split. discriminate.
Qed.

Lemma hex_unfold (value : string) : hex value = substring 0 8 (sha256_hex value).
Proof. Transparent hex. reflexivity. Opaque hex. Qed.

(** C4 (as amended): for a record whose email holds exactly one ['@']
    (a local part [l] and a domain [d] free of it), the result keeps
    the identity id and the creation timestamp; first name, last name,
    line1, line2 and postcode become the first eight characters of the
    hexadecimal SHA-256 digest of their former value, eight lowercase
    hexadecimal digits; the email becomes that digest of [l], then
    ['@'], then [d] verbatim; city, state and country are kept. *)
Theorem C4_anonymized_fields_single_at :
  forall s r c l d,
    nth_error (heap s) r = Some c ->
    email c = (l ++ "@" ++ d)%string ->
    occurrences "@" l = 0%nat -> occurrences "@" d = 0%nat ->
    exists s' c',
      anonymizeCustomer r s = (Ok r, s')
      /\ nth_error (heap s') r = Some c'
      /\ _id c' = _id c /\ createdAt c' = createdAt c
      /\ firstName c' = hex (firstName c) /\ lastName c' = hex (lastName c)
      /\ line1 (address c') = hex (line1 (address c))
      /\ line2 (address c') = hex (line2 (address c))
      /\ postcode (address c') = hex (postcode (address c))
      /\ email c' = (hex l ++ "@" ++ d)%string
      /\ city (address c') = city (address c)
      /\ state (address c') = state (address c)
      /\ country (address c') = country (address c)
      /\ (forall v, hex v = substring 0 8 (sha256_hex v) /\ isHex8 (hex v)).
Proof.
  intros s r c l d H E Hl Hd.
  destruct (anonymizeCustomer_frame _ _ _ H) as (s' & E1 & O1 & _).
  exists s', (anonymized c). split; [exact E1|]. split; [exact O1|].
  repeat split;
    first [ now apply anonymized_email_one_at
          | apply hex_unfold
          | apply (proj1 (hex_isHex8 _))
          | apply (proj2 (hex_isHex8 _))
          | reflexivity ].
Qed.

Lemma C4_anonymized_fields_single_at_witness :
  exists s' c',
    anonymizeCustomer 0%nat (holding jane) = (Ok 0%nat, s')
    /\ nth_error (heap s') 0 = Some c'
    /\ _id c' = _id jane /\ createdAt c' = createdAt jane
    /\ firstName c' = hex (firstName jane) /\ lastName c' = hex (lastName jane)
    /\ line1 (address c') = hex (line1 (address jane))
    /\ line2 (address c') = hex (line2 (address jane))
    /\ postcode (address c') = hex (postcode (address jane))
    /\ email c' = (hex "jane.doe" ++ "@" ++ "example.com")%string
    /\ city (address c') = city (address jane)
    /\ state (address c') = state (address jane)
    /\ country (address c') = country (address jane)
    /\ (forall v, hex v = substring 0 8 (sha256_hex v) /\ isHex8 (hex v)).
Proof.
  apply (C4_anonymized_fields_single_at (holding jane) 0%nat jane "jane.doe" "example.com");
    reflexivity.
Defined.

Lemma cut_a_b_c (l d : string) :
  "a@b@c" = (l ++ "@" ++ d)%string ->
  (l = "a" /\ d = "b@c") \/ (l = "a@b" /\ d = "c").
Proof.
  intros H.
  destruct l as [|c1 l]; [discriminate|].
  injection H as <- H.
  destruct l as [|c2 l]; [injection H as <-; now left|].
  injection H as <- H.
  destruct l as [|c3 l]; [discriminate|].
  injection H as <- H.
  destruct l as [|c4 l]; [injection H as <-; now right|].
  injection H as <- H.
  destruct l as [|c5 l]; [discriminate|].
  injection H as <- H.
  destruct l; discriminate.
Qed.

(** C4, as stated, fails on an email with a second ['@']: the domain is
    cut at it.  For ["a@b@c"] the resulting email is the digest of
    ["a"] followed by ["@b"], which is the digest of a local part
    followed by the rest verbatim for no way of cutting ["a@b@c"] at an
    ['@']. *)
Lemma C4_second_at_cuts_the_domain :
  occurrences "@" (email (withAt "a@b@c")) = 2%nat
  /\ fst (anonymizeCustomer 0%nat (holding (withAt "a@b@c"))) = Ok 0%nat
  /\ option_map email (objectAfter (anonymizeCustomer 0%nat) (holding (withAt "a@b@c")) 0%nat)
     = Some "ca978112@b"
  /\ forall c' l d,
       objectAfter (anonymizeCustomer 0%nat) (holding (withAt "a@b@c")) 0%nat = Some c' ->
       email (withAt "a@b@c") = (l ++ "@" ++ d)%string ->
       email c' <> (hex l ++ "@" ++ d)%string.
Proof.
  split; [reflexivity|]. split; [vm_compute; reflexivity|].
  split; [vm_compute; reflexivity|].
  intros c' l d H E.
  assert (email c' = "ca978112@b") as ->.
  { revert H. vm_compute. intros H. injection H as <-. reflexivity. }
  destruct (cut_a_b_c l d E) as [[-> ->]|[-> ->]]; vm_compute; discriminate.
Qed.

(** C5 (as amended): the transform raises no error on any record.  When
    the email holds no ['@'], the whole email is digested and the
    missing domain is rendered as the word undefined. *)
Theorem C5_anonymize_never_throws :
  forall s r c,
    nth_error (heap s) r = Some c ->
    exists s' c',
      anonymizeCustomer r s = (Ok r, s')
      /\ nth_error (heap s') r = Some c'
      /\ (occurrences "@" (email c) = 0%nat ->
          email c' = (hex (email c) ++ "@undefined")%string).
Proof.
  intros s r c H.
  destruct (anonymizeCustomer_frame _ _ _ H) as (s' & E1 & O1 & _).
  exists s', (anonymized c). split; [exact E1|]. split; [exact O1|].
  apply anonymized_email_no_at.
Qed.

Lemma C5_anonymize_never_throws_witness :
  exists s' c',
    anonymizeCustomer 0%nat (holding (withAt "jane.doe")) = (Ok 0%nat, s')
    /\ nth_error (heap s') 0 = Some c'
    /\ (occurrences "@" (email (withAt "jane.doe")) = 0%nat ->
        email c' = (hex (email (withAt "jane.doe")) ++ "@undefined")%string).
Proof.
  apply (C5_anonymize_never_throws (holding (withAt "jane.doe")) 0%nat (withAt "jane.doe")).
  reflexivity.
Defined.

(** C5, as stated, fails: an email without ['@'] raises nothing.  The
    call returns normally and the email left is a digest followed by
    ["@undefined"]. *)
Lemma C5_email_without_at_does_not_throw :
  occurrences "@" (email (withAt "jane.doe")) = 0%nat
  /\ fst (anonymizeCustomer 0%nat (holding (withAt "jane.doe"))) = Ok 0%nat
  /\ option_map email (objectAfter (anonymizeCustomer 0%nat) (holding (withAt "jane.doe")) 0%nat)
     = Some "d48722fc@undefined".
Proof.
  vm_compute. repeat split.
Qed.

(* ------------------------------------------------------------------ *)
(** * While the lock is held                                             *)
(* ------------------------------------------------------------------ *)

Section Locked.

Context {platform : Platform}.

Lemma Pursuer_tick_locked s :
  lockfile (world s) = true ->
  Pursuer_tick s = (Ok tt, with_pursuer (set_pointer None) s).
Proof.
  intros H. unfold Pursuer_tick, lockfile_checkSync, bind, gets. rewrite H. reflexivity.
Qed.

Lemma Updater_run_locked s :
  lockfile (world s) = true ->
  Updater_run s = (Ok tt, with_timers (fun l => l ++ [Timeout 3000 UpdaterRun]) s).
Proof.
  intros H. unfold Updater_run, lockfile_checkSync, bind, gets. rewrite H. reflexivity.
Qed.

Lemma Updater_onStreamData_locked s doc :
  lockfile (world s) = true ->
  exists s',
    Updater_onStreamData doc s = (Ok tt, s')
    /\ world s' = world s /\ trace s' = trace s /\ heap s' = heap s
    /\ pursuer s' = pursuer s /\ rejections s' = rejections s
    /\ timers s' = timers s ++ [Timeout 3000 UpdaterRun]
    /\ cursor (updater s') = option_map (fun c => mkCursor (pending c) true)
                                        (cursor (updater s)).
Proof.
  intros H. unfold Updater_onStreamData.
  unfold lockfile_checkSync at 1. unfold bind at 1, gets. rewrite H. cbn [negb].
  unfold bind, cursor_close, modify.
  rewrite Updater_run_locked by exact H.
  eexists. split; [reflexivity|]. cbn.
  repeat split. destruct (updater s) as [[c|]]; reflexivity.
Qed.

Lemma fire_locked t s :
  lockfile (world s) = true ->
  exists s',
    fire t s = (Ok tt, s') /\ world s' = world s /\ trace s' = trace s.
Proof.
  intros H. unfold fire, detached. destruct t.
  - rewrite Pursuer_tick_locked by exact H. eauto.
  - rewrite Updater_run_locked by exact H. eauto.
  - destruct (Updater_onStreamData_locked s doc H) as (s' & -> & Hw & Ht & _). eauto.
  - unfold Updater_onStreamEnd. rewrite Updater_run_locked by exact H. eauto.
Qed.

Lemma fireAll_locked ts s :
  lockfile (world s) = true ->
  exists s',
    fireAll ts s = (Ok tt, s') /\ world s' = world s /\ trace s' = trace s.
Proof.
  revert s. induction ts as [|t ts IH]; intros s H.
  - exists s. repeat split.
  - destruct (fire_locked t s H) as (s1 & E1 & W1 & T1).
    destruct (IH s1) as (s2 & E2 & W2 & T2); [now rewrite W1|].
    exists s2. unfold fireAll. cbn [forEach].
    rewrite (bind_ok _ _ _ _ _ E1). split; [exact E2|]. split; congruence.
Qed.

(** C9: when the lock is observed held, neither actor writes to the
    target.  The Pursuer's tick does nothing but forget its in-memory
    checkpoint; the Updater's handler for a record of the stream leaves
    the record alone, closes the cursor and schedules a new attempt
    three seconds later.  In both cases the world (target included) is
    unchanged and no operation is issued. *)
Theorem C9_locked_actors_do_not_write :
  forall s doc,
    lockfile (world s) = true ->
    Pursuer_tick s = (Ok tt, with_pursuer (set_pointer None) s)
    /\ pointer (pursuer (snd (Pursuer_tick s))) = None
    /\ world (snd (Pursuer_tick s)) = world s
    /\ trace (snd (Pursuer_tick s)) = trace s
    /\ exists s',
         Updater_onStreamData doc s = (Ok tt, s')
         /\ world s' = world s /\ trace s' = trace s
         /\ targetWrites s' = targetWrites s
         /\ timers s' = timers s ++ [Timeout 3000 UpdaterRun]
         /\ cursor (updater s')
            = option_map (fun c => mkCursor (pending c) true) (cursor (updater s)).
Proof.
  intros s doc H. split; [now apply Pursuer_tick_locked|].
  rewrite Pursuer_tick_locked by exact H.
  split; [reflexivity|]. split; [reflexivity|]. split; [reflexivity|].
  destruct (Updater_onStreamData_locked s doc H) as (s' & E & W & T & _ & _ & _ & Tm & C).
  exists s'. unfold targetWrites. rewrite T. repeat split; assumption.
Qed.

Lemma existsb_eqb_In x l : In x l -> existsb (String.eqb x) l = true.
Proof.
  intros H. apply existsb_exists. exists x. split; [exact H|apply String.eqb_refl].
Qed.

(** C1 (as amended): started with the three settings present and the
    full-reindex flag while the lock is held, the process neither
    reindexes nor exits.  [run] returns
    normally without touching the lock, the store or the checkpoint
    file, having started the continuous mode: the Pursuer's interval
    and, the lock being held, the Updater's retry are registered.
    Whatever callbacks then fire, the process issues no read and no
    write while the lock stays held. *)
Theorem C1_reindex_refused_starts_continuous_mode :
  forall cfg s ts,
    configured cfg -> fullReindexRequested cfg ->
    lockfile (world s) = true ->
    exists s1 s2,
      run cfg s = (Ok tt, s1)
      /\ world s1 = world s /\ trace s1 = trace s
      /\ pursuer s1 = new_Pursuer cfg /\ updater s1 = new_Updater
      /\ timers s1 = timers s ++ [Interval 1000 PursuerTick; Timeout 3000 UpdaterRun]
      /\ fireAll ts s1 = (Ok tt, s2)
      /\ world s2 = world s /\ trace s2 = trace s.
Proof.
  intros cfg s ts (C1 & C2 & C3) Hreq Hlock.
  assert (run cfg s =
    (Ok tt, with_timers (fun l => l ++ [Timeout 3000 UpdaterRun])
              (with_updater (fun _ => new_Updater)
                 (with_timers (fun l => l ++ [Interval 1000 PursuerTick])
                    (with_pursuer (fun _ => new_Pursuer cfg) s))))) as E.
  { unfold run. rewrite C1, C2, C3. cbn [orb].
    rewrite (existsb_eqb_In _ _ Hreq).
    unfold lockfile_checkSync, bind at 1 2, gets. rewrite Hlock. cbn [negb ret].
    unfold bind, Pursuer_run, setInterval, modify. cbv beta iota.
    rewrite Updater_run_locked by exact Hlock. reflexivity. }
  eexists. 
  destruct (fireAll_locked ts
    (with_timers (fun l => l ++ [Timeout 3000 UpdaterRun])
              (with_updater (fun _ => new_Updater)
                 (with_timers (fun l => l ++ [Interval 1000 PursuerTick])
                    (with_pursuer (fun _ => new_Pursuer cfg) s)))) Hlock)
    as (s2 & E2 & W2 & T2).
  exists s2. split; [exact E|]. cbn.
  rewrite <- app_assoc. repeat split; assumption.
Qed.

End Locked.

(* ------------------------------------------------------------------ *)
(** * ISO 8601: parsing undoes rendering                                 *)
(* ------------------------------------------------------------------ *)

Module ISO8601_facts.
Import ISO8601.

Lemma era_facts doe :
  0 <= doe < 146097 ->
  let yoe := (doe - doe / 1460 + doe / 36524 - doe / 146096) / 365 in
  let doy := doe - (365 * yoe + yoe / 4 - yoe / 100) in
  0 <= yoe <= 399 /\ 0 <= doy <= 365.
Proof.
  intros H yoe doy. subst doy yoe. Z.div_mod_to_equations. lia.
Qed.

Lemma month_facts doy :
  0 <= doy <= 365 ->
  let mp := (5 * doy + 2) / 153 in
  0 <= mp <= 11 /\ 1 <= doy - (153 * mp + 2) / 5 + 1 <= 31.
Proof.
  intros H mp. subst mp. Z.div_mod_to_equations. lia.
Qed.

Lemma days_civil z :
  let '(y, m, d) := civil z in
  days y m d = z /\ 1 <= m <= 12 /\ 1 <= d <= 31
  /\ (z + 719468) / 146097 * 400 <= y <= (z + 719468) / 146097 * 400 + 400.
Proof.
  unfold civil.
  set (z' := z + 719468). set (era := z' / 146097). set (doe := z' mod 146097).
  assert (Hdoe : 0 <= doe < 146097) by (apply Z.mod_pos_bound; lia).
  pose proof (era_facts doe Hdoe) as Hy. cbv zeta in Hy.
  set (yoe := (doe - doe / 1460 + doe / 36524 - doe / 146096) / 365) in *.
  set (doy := doe - (365 * yoe + yoe / 4 - yoe / 100)) in *.
  destruct Hy as [Hyoe Hdoy].
  pose proof (month_facts doy Hdoy) as Hm. cbv zeta in Hm.
  set (mp := (5 * doy + 2) / 153) in *.
  destruct Hm as [Hmp Hd].
  set (m := if mp <? 10 then mp + 3 else mp - 9).
  assert (Hm : (mp < 10 /\ m = mp + 3) \/ (10 <= mp /\ m = mp - 9)).
  { subst m. destruct (Z.ltb_spec mp 10); [left|right]; lia. }
  assert (Hz : z' = era * 146097 + doe).
  { subst era doe. rewrite Z.mul_comm. apply Z.div_mod. lia. }
  unfold days.
  assert (Hadj : (if m <=? 2 then yoe + era * 400 + (if m <=? 2 then 1 else 0) - 1
                  else yoe + era * 400 + (if m <=? 2 then 1 else 0)) = yoe + era * 400).
  { destruct (m <=? 2); lia. }
  rewrite Hadj.
  replace ((yoe + era * 400) / 400) with era
    by (apply Z.div_unique with (r := yoe); lia).
  replace ((yoe + era * 400) mod 400) with yoe
    by (apply Z.mod_unique with (q := era); lia).
  assert (Hmp' : (if 2 <? m then m - 3 else m + 9) = mp).
  { destruct (Z.ltb_spec 2 m); lia. }
  rewrite Hmp'.
  split; [subst doy; lia|].
  split; [lia|]. split; [exact Hd|].
  destruct (m <=? 2); lia.
Qed.

Lemma digit_roundtrip d : 0 <= d <= 9 -> digitValue (digitChar d) = Some d.
Proof.
  intros H.
  assert (d = 0 \/ d = 1 \/ d = 2 \/ d = 3 \/ d = 4 \/ d = 5 \/ d = 6 \/ d = 7
          \/ d = 8 \/ d = 9) as C by lia.
  repeat (destruct C as [->|C]; [reflexivity|]). subst. reflexivity.
Qed.

Lemma digit_not_sign d :
  0 <= d <= 9 ->
  Ascii.eqb (digitChar d) "+" = false /\ Ascii.eqb (digitChar d) "-" = false.
Proof.
  intros H.
  assert (d = 0 \/ d = 1 \/ d = 2 \/ d = 3 \/ d = 4 \/ d = 5 \/ d = 6 \/ d = 7
          \/ d = 8 \/ d = 9) as C by lia.
  repeat (destruct C as [->|C]; [split; reflexivity|]). subst. split; reflexivity.
Qed.

Lemma takeDigits_digits k n acc rest :
  0 <= n ->
  takeDigits k acc (digits k n ++ rest)
  = Some (acc * 10 ^ Z.of_nat k + n mod 10 ^ Z.of_nat k, rest).
Proof.
  intros Hn. revert acc. induction k as [|k IH]; intros acc.
  - cbn [takeDigits digits]. simpl. rewrite Z.mod_1_r. f_equal. f_equal. lia.
  - cbn [takeDigits digits]. cbn [String.append].
    assert (Hp : 0 < 10 ^ Z.of_nat k) by (apply Z.pow_pos_nonneg; lia).
    rewrite digit_roundtrip
      by (pose proof (Z.mod_pos_bound (n / 10 ^ Z.of_nat k) 10); lia).
    rewrite IH. f_equal. f_equal.
    rewrite Nat2Z.inj_succ, Z.pow_succ_r by lia.
    rewrite (Z.mul_comm 10 (10 ^ Z.of_nat k)).
    rewrite Z.rem_mul_r by lia. lia.
Qed.

Lemma takeDigits_small k n rest :
  0 <= n < 10 ^ Z.of_nat k ->
  takeDigits k 0 (digits k n ++ rest) = Some (n, rest).
Proof.
  intros H. rewrite takeDigits_digits by lia.
  rewrite Z.mod_small by lia. reflexivity.
Qed.

Lemma takeYear_year y rest :
  -999999 <= y <= 999999 ->
  takeYear (year y ++ rest) = Some (y, rest).
Proof.
  intros H. unfold year.
  destruct (Z.leb_spec 0 y) as [H0|H0]; cbn [andb].
  - destruct (Z.leb_spec y 9999) as [H1|H1].
    + unfold takeYear.
      change (digits 4 y) with
        (String (digitChar ((y / 10 ^ Z.of_nat 3) mod 10)) (digits 3 y)) at 1.
      cbn [String.append].
      destruct (digit_not_sign ((y / 10 ^ Z.of_nat 3) mod 10)) as [-> ->];
        [pose proof (Z.mod_pos_bound (y / 10 ^ Z.of_nat 3) 10); lia|].
      change (String (digitChar ((y / 10 ^ Z.of_nat 3) mod 10)) (digits 3 y ++ rest))
        with (digits 4 y ++ rest)%string.
      apply takeDigits_small. simpl. lia.
    + destruct (Z.ltb_spec y 0); [lia|].
      cbn [String.append takeYear]. cbn [Ascii.eqb Bool.eqb].
      rewrite Z.abs_eq by lia. apply takeDigits_small. simpl. lia.
  - destruct (Z.ltb_spec y 0); [|lia].
    cbn [String.append takeYear]. cbn [Ascii.eqb Bool.eqb].
    rewrite takeDigits_small by (simpl; lia).
    destruct (Z.eqb_spec (Z.abs y) 0); [lia|]. f_equal. f_equal. lia.
Qed.

Lemma clock_facts ms :
  0 <= ms < msPerDay ->
  0 <= ms / 3600000 <= 23 /\ 0 <= (ms / 60000) mod 60 <= 59
  /\ 0 <= (ms / 1000) mod 60 <= 59 /\ 0 <= ms mod 1000 <= 999
  /\ ms / 3600000 * 3600000 + (ms / 60000) mod 60 * 60000
     + (ms / 1000) mod 60 * 1000 + ms mod 1000 = ms.
Proof.
  unfold msPerDay. intros H. Z.div_mod_to_equations. lia.
Qed.

(** The law the program needs from its platform: a rendered time value
    parses back to itself. *)
Theorem parse_render t : inRange t -> parse (render t) = ValidDate t.
Proof.
  intros Ht. unfold parse, timeValue, render.
  pose proof (days_civil (t / msPerDay)) as Hc.
  destruct (civil (t / msPerDay)) as [[y m] d].
  destruct Hc as (Hdays & Hm & Hd & Hy).
  assert (Hms : 0 <= t mod msPerDay < msPerDay) by (apply Z.mod_pos_bound; reflexivity).
  destruct (clock_facts _ Hms) as (Hh & Hmi & Hs & Hml & Hsum).
  assert (Hyr : -999999 <= y <= 999999).
  { unfold inRange, maxTime, msPerDay in *. revert Hy. Z.div_mod_to_equations. lia. }
  rewrite takeYear_year by exact Hyr. cbn [opt_bind].
  cbn [opt_bind String.append expect Ascii.eqb Bool.eqb].
  rewrite takeDigits_small by (simpl; lia). cbn [opt_bind].
  cbn [opt_bind String.append expect Ascii.eqb Bool.eqb].
  rewrite takeDigits_small by (simpl; lia). cbn [opt_bind].
  cbn [opt_bind String.append expect Ascii.eqb Bool.eqb].
  rewrite takeDigits_small by (simpl; lia). cbn [opt_bind].
  cbn [opt_bind String.append expect Ascii.eqb Bool.eqb].
  rewrite takeDigits_small by (simpl; lia). cbn [opt_bind].
  cbn [opt_bind String.append expect Ascii.eqb Bool.eqb].
  rewrite takeDigits_small by (simpl; lia). cbn [opt_bind].
  cbn [opt_bind String.append expect Ascii.eqb Bool.eqb].
  rewrite takeDigits_small by (simpl; lia). cbn [opt_bind].
  cbn [opt_bind String.append expect Ascii.eqb Bool.eqb].
  replace ((1 <=? m) && (m <=? 12) && (1 <=? d) && (d <=? 31)
           && (t mod msPerDay / 3600000 <=? 23)
           && ((t mod msPerDay / 60000) mod 60 <=? 59)
           && ((t mod msPerDay / 1000) mod 60 <=? 59)) with true.
  2:{ symmetry. repeat (apply andb_true_intro; split); apply Z.leb_le; lia. }
  rewrite Hdays.
  replace (t / msPerDay * msPerDay + t mod msPerDay / 3600000 * 3600000
           + (t mod msPerDay / 60000) mod 60 * 60000
           + (t mod msPerDay / 1000) mod 60 * 1000 + (t mod msPerDay) mod 1000)
    with t.
  2:{ pose proof (Z.div_mod t msPerDay ltac:(discriminate)). lia. }
  unfold Date_ofNumber.
  destruct (Z.leb_spec (Z.abs t) maxTime) as [|Hbad]; [reflexivity|].
  unfold inRange in Ht. lia.
Qed.

End ISO8601_facts.

(* ------------------------------------------------------------------ *)
(** * What a computation leaves alone                                    *)
(* ------------------------------------------------------------------ *)

Lemma keeps_ret {X A} (f : Proc -> X) (a : A) : keeps f (ret a).
Proof. intros s. reflexivity. Qed.

Lemma keeps_throw {X A} (f : Proc -> X) e : keeps f (@throw A e).
Proof. intros s. reflexivity. Qed.

Lemma keeps_gets {X A} (f : Proc -> X) (g : Proc -> A) : keeps f (gets g).
Proof. intros s. reflexivity. Qed.

Lemma keeps_bind {X A B} (f : Proc -> X) (m : JS A) (k : A -> JS B) :
  keeps f m -> (forall a, keeps f (k a)) -> keeps f (bind m k).
Proof.
  intros Hm Hk s. unfold bind. specialize (Hm s).
  destruct (m s) as [[a|e|c] s']; simpl in *; [|assumption..].
  now rewrite Hk.
Qed.

Lemma keeps_forEach {X A} (f : Proc -> X) (l : list A) (body : A -> JS unit) :
  (forall a, keeps f (body a)) -> keeps f (forEach l body).
Proof.
  intros H. induction l as [|a l IH]; cbn [forEach].
  - apply keeps_ret.
  - apply keeps_bind; auto.
Qed.

Lemma keeps_mapM {X A B} (f : Proc -> X) (g : A -> JS B) (l : list A) :
  (forall a, keeps f (g a)) -> keeps f (mapM g l).
Proof.
  intros H. induction l as [|a l IH]; cbn [mapM].
  - apply keeps_ret.
  - apply keeps_bind; [auto|intros b]. apply keeps_bind; [auto|intros bs]. apply keeps_ret.
Qed.

Ltac keeps_modify :=
  match goal with
  | |- keeps _ (modify _) =>
      let s := fresh "s" in
      intros s; destruct s as [[? ? ? ? ? ?] ? [? ? ?] [?] ? ? ?]; reflexivity
  end.

Ltac keeps_step :=
  first
    [ apply keeps_ret | apply keeps_throw | apply keeps_gets
    | apply keeps_bind; [|intros ?]
    | apply keeps_forEach; intros ?
    | apply keeps_mapM; intros ?
    | keeps_modify
    | match goal with
      | |- keeps _ (match ?x with _ => _ end) => destruct x
      end ].

Create HintDb keeps.

Lemma lock_storeCall o : keeps lockOf (storeCall o).
Proof.
  intros [[src tgt ps lk ck out] h p u tm tr rj]. unfold storeCall. cbn.
  destruct out as [|[|] rest]; reflexivity.
Qed.
#[local] Hint Resolve lock_storeCall : keeps.

Lemma lock_find c flt lim skp : keeps lockOf (find c flt lim skp).
Proof. unfold find. repeat (keeps_step || auto with keeps). Qed.

Lemma lock_findOne c flt srt : keeps lockOf (findOne c flt srt).
Proof. unfold findOne. repeat (keeps_step || auto with keeps). Qed.

Lemma lock_set_coll c l : keeps lockOf (modify (with_world (set_coll c l))).
Proof. intros [[src tgt ps lk ck out] h p u tm tr rj]. destruct c; reflexivity. Qed.
#[local] Hint Resolve lock_find lock_findOne lock_set_coll : keeps.

Lemma lock_insertOne c doc : keeps lockOf (insertOne c doc).
Proof. unfold insertOne. repeat (auto with keeps || keeps_step). Qed.

Lemma lock_insertMany c docs : keeps lockOf (insertMany c docs).
Proof. unfold insertMany. repeat (auto with keeps || keeps_step). Qed.

Lemma lock_updateOne c id doc : keeps lockOf (updateOne c id doc).
Proof. unfold updateOne. repeat (auto with keeps || keeps_step). Qed.

Lemma lock_fresh c : keeps lockOf (fresh c).
Proof. intros s. reflexivity. Qed.

Lemma lock_deref r : keeps lockOf (deref r).
Proof. intros s. unfold deref. destruct (nth_error (heap s) r); reflexivity. Qed.
#[local] Hint Resolve lock_insertOne lock_insertMany lock_updateOne lock_fresh lock_deref : keeps.

Lemma lock_assign r f : keeps lockOf (assign r f).
Proof. unfold assign. repeat (auto with keeps || keeps_step). Qed.
#[local] Hint Resolve lock_assign : keeps.

Lemma lock_anonymizeCustomer r : keeps lockOf (anonymizeCustomer r).
Proof. unfold anonymizeCustomer. repeat (auto with keeps || keeps_step). Qed.

Lemma lock_writeFileSync raw : keeps lockOf (writeFileSync_POINTER_STORE raw).
Proof. unfold writeFileSync_POINTER_STORE. keeps_modify. Qed.
#[local] Hint Resolve lock_anonymizeCustomer lock_writeFileSync : keeps.

Section Reindex.

Context {platform : Platform}.

Lemma lock_toISOString d : keeps lockOf (toISOString d).
Proof. destruct d; [apply keeps_throw|apply keeps_ret]. Qed.

Lemma lock_reindexUpdate docs last : keeps lockOf (reindexUpdate docs last).
Proof.
  revert last. induction docs as [|d docs IH]; intros last; cbn [reindexUpdate].
  - apply keeps_ret.
  - repeat (auto with keeps || keeps_step).
Qed.

Lemma lock_reindexInsert docs last : keeps lockOf (reindexInsert docs last).
Proof.
  revert last. induction docs as [|d docs IH]; intros last; cbn [reindexInsert].
  - apply keeps_ret.
  - repeat (auto with keeps || keeps_step).
Qed.

Lemma lock_fullReindex : keeps lockOf fullReindex.
Proof.
  unfold fullReindex.
  repeat (auto using lock_reindexUpdate, lock_reindexInsert, lock_toISOString with keeps
          || keeps_step).
Qed.

Lemma run_reindex_branch cfg s :
  configured cfg -> fullReindexRequested cfg -> lockfile (world s) = false ->
  run cfg s
  = bind fullReindex (fun _ => lockfile_unlockSync ;; process_exit 0)
         (with_world (set_lockfile true) s).
Proof.
  intros (C1 & C2 & C3) Hreq Hfree.
  unfold run. rewrite C1, C2, C3. cbn [orb].
  rewrite (existsb_eqb_In _ _ Hreq).
  unfold lockfile_lockSync, lockfile_checkSync.
  unfold bind at 1 2 3, gets. rewrite Hfree. cbn [negb ret].
  unfold bind at 1, gets. rewrite Hfree. reflexivity.
Qed.

(** When [fullReindex] returns, the lock is released and the process
    exits with status 0. *)
Lemma run_reindex_completes cfg s s1 :
  configured cfg -> fullReindexRequested cfg -> lockfile (world s) = false ->
  fullReindex (with_world (set_lockfile true) s) = (Ok tt, s1) ->
  run cfg s = (Exit 0, with_world (set_lockfile false) s1).
Proof.
  intros Hc Hr Hf E. rewrite run_reindex_branch by assumption.
  rewrite (bind_ok _ _ _ _ _ E). reflexivity.
Qed.

(** C2, the code against the claim: when [fullReindex] fails with an
    error after the lock was taken, [run] fails with that error
    without ever reaching [unlockSync]; the lock file is still there in
    the state the failure leaves. *)
Theorem C2_failed_reindex_leaves_lock_held :
  forall cfg s e s1,
    configured cfg -> fullReindexRequested cfg ->
    lockfile (world s) = false ->
    fullReindex (with_world (set_lockfile true) s) = (Throw e, s1) ->
    run cfg s = (Throw e, s1) /\ lockfile (world s1) = true.
Proof.
  intros cfg s e s1 Hc Hr Hf E. rewrite run_reindex_branch by assumption.
  rewrite (bind_throw _ _ _ _ _ E). split; [reflexivity|].
  pose proof (lock_fullReindex (with_world (set_lockfile true) s)) as K.
  rewrite E in K. exact K.
Qed.

End Reindex.

(* ------------------------------------------------------------------ *)
(** * The store's queries                                                *)
(* ------------------------------------------------------------------ *)

Lemma storeCall_up o s :
  storeUp s -> storeCall o s = (Ok tt, afterCall o s) /\ storeUp (afterCall o s).
Proof.
  destruct s as [[src tgt ps lk ck out] h p u tm tr rj]. unfold storeUp, storeCall, afterCall.
  cbn. intros H. destruct out as [|b rest]; cbn.
  - split; [reflexivity|]. intros b [].
  - rewrite (H b (or_introl eq_refl)). split; [reflexivity|].
    intros b' Hb'. apply H. now right.
Qed.

Lemma filter_all (l : list Customer) : List.filter all l = l.
Proof. induction l as [|x l IH]; simpl; [reflexivity|now rewrite IH]. Qed.

Lemma Date_leb_total a b : Date_leb a b = true \/ Date_leb b a = true.
Proof.
  destruct a as [|x], b as [|y]; simpl; auto.
  destruct (Z.leb_spec x y); [now left|right]. apply Z.leb_le. lia.
Qed.

Lemma Date_leb_trans a b c :
  Date_leb a b = true -> Date_leb b c = true -> Date_leb a c = true.
Proof.
  destruct a as [|x], b as [|y], c as [|z]; simpl; try congruence.
  rewrite !Z.leb_le. lia.
Qed.

Lemma Date_leb_antisym a b : Date_leb a b = true -> Date_leb b a = true -> a = b.
Proof.
  destruct a as [|x], b as [|y]; simpl; try congruence.
  rewrite !Z.leb_le. intros. f_equal. lia.
Qed.

Lemma In_insertSorted c x l : In x (insertSorted c l) <-> x = c \/ In x l.
Proof.
  induction l as [|y l IH]; simpl.
  - intuition.
  - destruct (Date_leb (createdAt c) (createdAt y)); simpl; [intuition|].
    rewrite IH. intuition.
Qed.

Lemma In_sortByCreatedAt x l : In x (sortByCreatedAt l) <-> In x l.
Proof.
  induction l as [|y l IH]; simpl; [tauto|].
  rewrite In_insertSorted, IH. intuition.
Qed.

Lemma insertSorted_sorted c l :
  StronglySorted olderOrEqual l -> StronglySorted olderOrEqual (insertSorted c l).
Proof.
  induction 1 as [|y l Hs IH Hall]; simpl.
  - repeat constructor.
  - destruct (Date_leb (createdAt c) (createdAt y)) eqn:E.
    + constructor; [now constructor|]. constructor; [exact E|].
      rewrite Forall_forall in *. intros x Hx.
      eapply Date_leb_trans; [exact E|now apply Hall].
    + constructor; [exact IH|].
      rewrite Forall_forall in *. intros x Hx.
      apply In_insertSorted in Hx. destruct Hx as [->|Hx]; [|now apply Hall].
      destruct (Date_leb_total (createdAt c) (createdAt y)) as [H|H]; [congruence|exact H].
Qed.

Lemma sortByCreatedAt_sorted l : StronglySorted olderOrEqual (sortByCreatedAt l).
Proof.
  induction l as [|x l IH]; simpl; [constructor|now apply insertSorted_sorted].
Qed.

(** The first record of a sorted collection carries the oldest
    creation timestamp of the collection. *)
Lemma sortByCreatedAt_head l c :
  In c l -> (forall x, In x l -> olderOrEqual c x) ->
  exists c0, hd_error (sortByCreatedAt l) = Some c0 /\ createdAt c0 = createdAt c.
Proof.
  intros Hin Hmin.
  pose proof (sortByCreatedAt_sorted l) as Hs.
  destruct (sortByCreatedAt l) as [|c0 rest] eqn:E.
  - apply In_sortByCreatedAt in Hin. rewrite E in Hin. destruct Hin.
  - exists c0. split; [reflexivity|].
    assert (In c0 l) as H0 by (apply In_sortByCreatedAt; rewrite E; now left).
    apply Date_leb_antisym; [|now apply Hmin].
    apply In_sortByCreatedAt in Hin. rewrite E in Hin. destruct Hin as [->|Hin].
    + destruct (Date_leb_total (createdAt c) (createdAt c)); assumption.
    + inversion Hs as [|? ? ? Hall]; subst.
      rewrite Forall_forall in Hall. now apply Hall.
Qed.

Lemma findOne_up c flt srt s :
  storeUp s ->
  findOne c flt srt s
  = (Ok (hd_error (if srt then sortByCreatedAt (List.filter flt (get_coll c (world s)))
                   else List.filter flt (get_coll c (world s)))),
     afterCall (OpFindOne c) s).
Proof.
  intros H. unfold findOne.
  rewrite (bind_ok _ _ _ _ _ (proj1 (storeCall_up _ _ H))).
  unfold bind, gets, ret.
  destruct s as [[src tgt ps lk ck out] h p u tm tr rj]. destruct c; reflexivity.
Qed.

Lemma aMinuteEarlier_valid t :
  inRange (t - 60000) -> aMinuteEarlier (ValidDate t) = ValidDate (t - 60000).
Proof.
  unfold inRange, aMinuteEarlier, Date_ofNumber. cbn [getTime option_map].
  intros H. change (60 * 1000) with 60000.
  destruct (Z.leb_spec (Z.abs (t - 60000)) maxTime); [reflexivity|lia].
Qed.

(* ------------------------------------------------------------------ *)
(** * The Pursuer's checkpoint                                           *)
(* ------------------------------------------------------------------ *)

Section Checkpoint.

Context {platform : Platform}.

Lemma Pursuer_loadPointer_derived s :
  pointerStore (world s) = None -> storeUp s ->
  Pursuer_loadPointer s
  = (Ok tt,
     with_pursuer
       (set_pointer
          (Some (aMinuteEarlier
                   match hd_error (sortByCreatedAt (source (world s))) with
                   | Some c => createdAt c
                   | None => ValidDate (clock (world s))
                   end)))
       (afterCall (OpFindOne Source) s)).
Proof.
  intros Hf Hup. unfold Pursuer_loadPointer.
  unfold existsSync_POINTER_STORE. unfold bind at 1, gets. rewrite Hf.
  rewrite (bind_ok _ _ _ _ _ (findOne_up Source all true s Hup)).
  cbn [get_coll]. rewrite filter_all.
  unfold Date_now, bind, gets, modify.
  destruct s as [[src tgt ps lk ck out] h [p w b] u tm tr rj]. reflexivity.
Qed.

Lemma Pursuer_loadPointer_stored s raw :
  pointerStore (world s) = Some raw ->
  Pursuer_loadPointer s
  = (Ok tt, with_pursuer (set_pointer (Some (Date_parse raw))) s).
Proof.
  intros Hf. unfold Pursuer_loadPointer.
  unfold existsSync_POINTER_STORE, readFileSync_POINTER_STORE.
  unfold bind, gets. cbv beta iota. rewrite Hf. cbv beta iota. rewrite Hf. reflexivity.
Qed.

(** C6 (as amended): with no checkpoint file (and the store
    answering), loading the checkpoint derives it from the source: one
    minute before the oldest creation timestamp when the source has
    records, and one minute before the current time, not the current
    time itself, when the source is empty.  One minute before [t] is
    the time value [t - 60000] whenever that is a time value of the
    language. *)
Theorem C6_initial_checkpoint_a_minute_earlier :
  forall s,
    pointerStore (world s) = None -> storeUp s ->
    exists s',
      Pursuer_loadPointer s = (Ok tt, s')
      /\ (source (world s) = [] ->
          pointer (pursuer s') = Some (aMinuteEarlier (ValidDate (clock (world s)))))
      /\ (forall c t0,
            In c (source (world s)) -> createdAt c = ValidDate t0 ->
            (forall x, In x (source (world s)) ->
                       exists t, createdAt x = ValidDate t /\ t0 <= t) ->
            pointer (pursuer s') = Some (aMinuteEarlier (ValidDate t0)))
      /\ (forall t, inRange (t - 60000) ->
                    aMinuteEarlier (ValidDate t) = ValidDate (t - 60000)).
Proof.
  intros s Hf Hup. eexists. split; [apply (Pursuer_loadPointer_derived s Hf Hup)|].
  split; [|split].
  - intros E. rewrite E. reflexivity.
  - intros c t0 Hin Hc Hmin.
    destruct (sortByCreatedAt_head (source (world s)) c Hin) as (c0 & -> & E0).
    + intros x Hx. destruct (Hmin x Hx) as (t & Ex & Ht).
      unfold olderOrEqual. rewrite Hc, Ex. simpl. now apply Z.leb_le.
    + cbn. rewrite E0, Hc. reflexivity.
  - apply aMinuteEarlier_valid.
Qed.

End Checkpoint.

(* ------------------------------------------------------------------ *)
(** * One tick of the Pursuer, step by step                              *)
(* ------------------------------------------------------------------ *)

Ltac state_simpl :=
  cbv [fetchedInto afterCall with_world with_heap with_pursuer with_updater
       with_timers with_trace with_rejections set_pointerStore set_lockfile
       set_outages set_pointer set_buffer set_coll get_coll
       world heap pursuer updater timers trace rejections source target pointerStore
       lockfile clock outages pointer window buffer] in *.

Lemma find_up c flt lim skp s :
  storeUp s ->
  find c flt lim skp s
  = (Ok (let sorted := sortByCreatedAt (List.filter flt (get_coll c (world s))) in
         let skipped := match skp with
                        | Some k => skipn (Z.to_nat k) sorted
                        | None => sorted
                        end in
         match lim with
         | Some n => limitTo n skipped
         | None => skipped
         end),
     afterCall (OpFind c) s).
Proof.
  intros H. unfold find.
  rewrite (bind_ok _ _ _ _ _ (proj1 (storeCall_up _ _ H))).
  unfold bind, gets, ret.
  destruct s as [[src tgt ps lk ck out] h p u tm tr rj]. destruct c; reflexivity.
Qed.

Lemma fetch_run docs s :
  forEach docs (fun doc =>
    customer <- fresh doc ;;
    newTargetCustomer <- anonymizeCustomer customer ;;
    modify (with_pursuer (fun p => set_buffer (buffer p ++ [newTargetCustomer]) p))) s
  = (Ok tt, fetchedInto docs s).
Proof.
  revert s. induction docs as [|d docs IH]; intros s.
  - cbn [forEach]. unfold ret, fetchedInto. f_equal.
    destruct s as [w h [p wd b] u tm tr rj]. state_simpl. cbn. now rewrite !app_nil_r.
  - cbn [forEach].
    assert (E1 : (customer <- fresh d ;;
                  newTargetCustomer <- anonymizeCustomer customer ;;
                  modify (with_pursuer
                    (fun p => set_buffer (buffer p ++ [newTargetCustomer]) p))) s
                 = (Ok tt,
                    with_pursuer (fun p => set_buffer (buffer p ++ [List.length (heap s)]) p)
                      (with_heap (fun h => h ++ [anonymized d]) s))).
    { unfold fresh at 1. unfold bind at 1.
      rewrite (bind_ok _ _ _ _ _
                 (anonymizeCustomer_run (with_heap (fun h => h ++ [d]) s)
                    (List.length (heap s)) d (nth_error_app_end (heap s) d))).
      unfold modify. f_equal.
      destruct s as [w h [p wd b] u tm tr rj]. state_simpl. now rewrite list_set_app_end. }
    rewrite (bind_ok _ _ _ _ _ E1). rewrite IH.
    f_equal. unfold fetchedInto.
    destruct s as [w h [p wd b] u tm tr rj]. state_simpl. cbn [map List.length seq].
    rewrite <- !app_assoc. cbn [app]. rewrite length_app. cbn [List.length].
    replace (List.length h + 1)%nat with (S (List.length h)) by lia. reflexivity.
Qed.

Lemma mapM_deref s refs docs :
  holds s refs docs -> mapM deref refs s = (Ok docs, s).
Proof.
  induction 1 as [|r c refs docs Hr _ IH]; cbn [mapM]; [reflexivity|].
  rewrite (bind_ok _ _ _ _ _ (deref_run _ _ _ Hr)).
  rewrite (bind_ok _ _ _ _ _ IH). reflexivity.
Qed.

Lemma hasId_app id l1 l2 : hasId id (l1 ++ l2) = hasId id l1 || hasId id l2.
Proof. apply existsb_app. Qed.

Lemma insertOrdered_fresh docs coll :
  freshIds coll docs -> insertOrdered docs coll = (coll ++ docs, None).
Proof.
  revert coll. induction docs as [|d docs IH]; intros coll [Hnd Hfr]; cbn [insertOrdered].
  - now rewrite app_nil_r.
  - rewrite (Hfr d (or_introl eq_refl)).
    rewrite IH; [now rewrite <- app_assoc|].
    cbn [map] in Hnd. inversion Hnd as [|? ? Hnotin Hnd']; subst.
    split; [exact Hnd'|]. intros d' Hd'.
    rewrite hasId_app, (Hfr d' (or_intror Hd')). cbn. unfold byId.
    rewrite orb_false_r. apply N.eqb_neq. intros E. apply Hnotin.
    rewrite E. now apply in_map.
Qed.

Lemma insertMany_up docs s :
  storeUp s -> docs <> [] -> freshIds (target (world s)) docs ->
  insertMany Target docs s
  = (Ok tt, with_world (fun w => set_coll Target (target w ++ docs) w)
              (afterCall (OpInsertMany Target) s)).
Proof.
  intros Hup Hne Hfr. unfold insertMany.
  destruct docs as [|d docs]; [congruence|].
  rewrite (bind_ok _ _ _ _ _ (proj1 (storeCall_up _ _ Hup))).
  unfold bind at 1, gets.
  replace (get_coll Target (world (afterCall (OpInsertMany Target) s)))
    with (target (world s))
    by (destruct s as [[src tgt ps lk ck out] h p u tm tr rj]; reflexivity).
  rewrite (insertOrdered_fresh _ _ Hfr).
  unfold bind, modify, ret.
  destruct s as [[src tgt ps lk ck out] h p u tm tr rj]. reflexivity.
Qed.

Lemma exists_last_or_nil {A} (l : list A) :
  l = [] \/ exists front x, l = front ++ [x].
Proof.
  destruct l as [|a l]; [now left|right].
  destruct (exists_last (l := a :: l)) as (front & x & E); [discriminate|]. eauto.
Qed.

Lemma last_map_Some {A} (l : list A) x : last (map Some (l ++ [x])) None = Some x.
Proof. rewrite map_app. cbn. apply last_last. Qed.

Lemma last_map_Some_nil {A} : last (map (@Some A) []) None = None.
Proof. reflexivity. Qed.

Section Tick.

Context {platform : Platform}.

Lemma Pursuer_loop_with_pointer s p :
  pointer (pursuer s) = Some p -> storeUp s ->
  Pursuer_loop s
  = let docs := forwardQuery (Some p) (window (pursuer s))
                             (List.length (buffer (pursuer s))) (source (world s)) in
    let s1 := fetchedInto docs (afterCall (OpFind Source) s) in
    if flushDue (window (pursuer s)) (List.length (buffer (pursuer s)))
                (List.length (buffer (pursuer s1)))
    then flushBlock s1
    else (Ok tt, s1).
Proof.
  intros Hp Hup. unfold Pursuer_loop.
  unfold bind at 1, gets at 1. rewrite Hp.
  unfold bind at 1, ret at 1.
  unfold buffer_length at 1. unfold bind at 1, gets at 1.
  unfold bind at 1, gets at 1. rewrite Hp.
  unfold bind at 1, gets at 1.
  rewrite (bind_ok _ _ _ _ _ (find_up Source _ _ _ s Hup)).
  cbn [get_coll]. rewrite Nat2Z.id.
  fold (forwardQuery (Some p) (window (pursuer s)) (List.length (buffer (pursuer s)))
                     (source (world s))).
  rewrite (bind_ok _ _ _ _ _ (fetch_run _ _)).
  unfold buffer_length. unfold bind at 1, gets at 1.
  cbv zeta. unfold flushDue.
  replace (window (pursuer (afterCall (OpFind Source) s))) with (window (pursuer s))
    by (destruct s as [[src tgt ps lk ck out] h [pp w b] u tm tr rj]; reflexivity).
  set (s1 := fetchedInto _ _).
  destruct ((Z.of_nat (List.length (buffer (pursuer s1))) =? window (pursuer s))
            || negb (Z.of_nat (List.length (buffer (pursuer s))) =? 0)); reflexivity.
Qed.

Lemma Pursuer_loop_after_load s s0 :
  pointer (pursuer s) = None ->
  Pursuer_loadPointer s = (Ok tt, s0) -> pointer (pursuer s0) <> None ->
  Pursuer_loop s = Pursuer_loop s0.
Proof.
  intros Hp E Hp0. unfold Pursuer_loop.
  unfold bind at 1, gets at 1. rewrite Hp.
  rewrite (bind_ok _ _ _ _ _ E).
  symmetry. unfold bind at 1, gets at 1.
  destruct (pointer (pursuer s0)); [|congruence]. reflexivity.
Qed.

Lemma Pursuer_storePointer_valid s t :
  pointer (pursuer s) = Some (ValidDate t) ->
  Pursuer_storePointer s
  = (Ok tt, with_trace (fun tr => tr ++ [OpWritePointer (toISO t)])
              (with_world (set_pointerStore (Some (toISO t))) s)).
Proof.
  intros H. unfold Pursuer_storePointer. unfold bind at 1, gets. rewrite H. reflexivity.
Qed.

Lemma flushBlock_run s front c t refs :
  storeUp s ->
  buffer (pursuer s) = refs -> holds s refs (front ++ [c]) ->
  freshIds (target (world s)) (front ++ [c]) ->
  createdAt c = ValidDate t ->
  flushBlock s = (Ok tt, flushedAt (front ++ [c]) t s).
Proof.
  intros Hup Hbuf Hh Hfr Ht. unfold flushBlock.
  unfold bind at 1, gets at 1. rewrite Hbuf.
  rewrite (bind_ok _ _ _ _ _ (mapM_deref _ _ _ Hh)).
  assert (Hne : front ++ [c] <> []) by (destruct front; discriminate).
  rewrite (bind_ok _ _ _ _ _ (insertMany_up _ _ Hup Hne Hfr)).
  unfold holds in Hh. apply Forall2_app_inv_r in Hh.
  destruct Hh as (rfront & rlast & _ & Hl & ->).
  inversion Hl as [|r c' ? ? Hr Hnil]; subst. inversion Hnil; subst.
  rewrite last_map_Some.
  set (s1 := with_world _ _).
  assert (Hr1 : nth_error (heap s1) r = Some c)
    by (subst s1; destruct s as [[src tgt ps lk ck out] h p u tm tr rj]; exact Hr).
  rewrite (bind_ok _ _ _ _ _
            (bind_ok _ _ _ _ _ (deref_run _ _ _ Hr1))).
  rewrite Ht. unfold detached. unfold bind at 1.
  rewrite (Pursuer_storePointer_valid _ t) by reflexivity.
  reflexivity.
Qed.

End Tick.

Section Flush.

Context {platform : Platform}.

Lemma Pursuer_tick_unlocked s :
  lockfile (world s) = false -> Pursuer_tick s = Pursuer_loop s.
Proof.
  intros H. unfold Pursuer_tick, lockfile_checkSync. unfold bind at 1, gets.
  rewrite H. reflexivity.
Qed.

Lemma storeUp_afterCall o s : storeUp s -> storeUp (afterCall o s).
Proof. intros H. apply (storeCall_up o s H). Qed.

Lemma loaded_facts s :
  storeUp s ->
  exists p,
    pointer (pursuer (loaded s)) = Some p
    /\ Pursuer_loop s = Pursuer_loop (loaded s)
    /\ storeUp (loaded s)
    /\ heap (loaded s) = heap s
    /\ buffer (pursuer (loaded s)) = buffer (pursuer s)
    /\ window (pursuer (loaded s)) = window (pursuer s)
    /\ source (world (loaded s)) = source (world s)
    /\ target (world (loaded s)) = target (world s)
    /\ pointerStore (world (loaded s)) = pointerStore (world s)
    /\ targetWrites (loaded s) = targetWrites s.
Proof.
  intros Hup. unfold loaded.
  destruct (pointer (pursuer s)) as [p|] eqn:Hp.
  - exists p. repeat split; assumption.
  - destruct (pointerStore (world s)) as [raw|] eqn:Hf.
    + pose proof (Pursuer_loadPointer_stored s raw Hf) as E. rewrite E. cbn [snd].
      eexists. split; [reflexivity|].
      split; [apply (Pursuer_loop_after_load s _ Hp E); discriminate|].
      destruct s as [[src tgt ps lk ck out] h [pp w b] u tm tr rj].
      repeat split; try reflexivity; assumption.
    + pose proof (Pursuer_loadPointer_derived s Hf Hup) as E. rewrite E. cbn [snd].
      eexists. split; [reflexivity|].
      split; [apply (Pursuer_loop_after_load s _ Hp E); discriminate|].
      split; [apply (storeUp_afterCall (OpFindOne Source) s Hup)|].
      destruct s as [[src tgt ps lk ck out] h [pp w b] u tm tr rj].
      unfold targetWrites. state_simpl. rewrite filter_app. cbn. rewrite app_nil_r.
      repeat split; try reflexivity; assumption.
Qed.

Lemma holds_fetchedInto s refs held docs o :
  holds s refs held -> buffer (pursuer s) = refs ->
  holds (fetchedInto docs (afterCall o s))
        (buffer (pursuer (fetchedInto docs (afterCall o s))))
        (held ++ map anonymized docs).
Proof.
  intros Hh Hb. unfold holds in *.
  destruct s as [[src tgt ps lk ck out] h [pp w b] u tm tr rj]. state_simpl. subst b.
  apply Forall2_app.
  - eapply Forall2_impl; [|exact Hh]. cbn beta. intros r c Hr.
    rewrite nth_error_app1; [exact Hr|]. apply nth_error_Some. congruence.
  - clear Hh. generalize h. induction docs as [|d docs IH]; intros h0; cbn; constructor.
    + rewrite nth_error_app2 by lia. now rewrite Nat.sub_diag.
    + specialize (IH (h0 ++ [anonymized d])).
      rewrite length_app in IH. cbn in IH.
      replace (List.length h0 + 1)%nat with (S (List.length h0)) in IH by lia.
      rewrite <- app_assoc in IH. exact IH.
Qed.

Lemma holds_length s refs docs : holds s refs docs -> List.length refs = List.length docs.
Proof. induction 1; cbn; congruence. Qed.

(** A tick without the lock, when the flush is not due: the query's
    records are appended to the buffer and that is all. *)
Lemma Pursuer_tick_buffers s held :
  lockfile (world s) = false -> storeUp s ->
  holds s (buffer (pursuer s)) held ->
  let s0 := loaded s in
  let docs := forwardQuery (pointer (pursuer s0)) (window (pursuer s))
                           (List.length held) (source (world s)) in
  let batch := held ++ map anonymized docs in
  Z.of_nat (List.length batch) <> window (pursuer s) -> held = [] ->
  Pursuer_tick s = (Ok tt, fetchedInto docs (afterCall (OpFind Source) s0)).
Proof.
  intros Hl Hup Hh s0 docs batch Hw Hheld.
  rewrite (Pursuer_tick_unlocked s Hl).
  destruct (loaded_facts s Hup) as (p & Hp & -> & Hup0 & Hheap & Hbuf & Hwin & Hsrc & _).
  fold s0 in Hp, Hup0, Hheap, Hbuf, Hwin, Hsrc |- *.
  rewrite (Pursuer_loop_with_pointer s0 p Hp Hup0). cbv zeta.
  pose proof (holds_length _ _ _ Hh) as Hlen.
  rewrite Hbuf, Hwin, Hsrc, Hlen.
  subst batch docs. rewrite Hp in *.
  set (docs := forwardQuery (Some p) _ _ _) in *.
  set (batch := held ++ map anonymized docs) in *.
  assert (Hafter : List.length (buffer (pursuer (fetchedInto docs (afterCall (OpFind Source) s0))))
                   = List.length batch).
  { subst batch. destruct s0 as [[src tgt ps lk ck out] h [pp w b] u tm tr rj].
    state_simpl. subst b.
    rewrite !length_app, length_seq, length_map. lia. }
  rewrite Hafter. unfold flushDue.
  destruct (Z.eqb_spec (Z.of_nat (List.length batch)) (window (pursuer s))); [contradiction|].
  subst held. reflexivity.
Qed.

(** A tick without the lock, when the flush is due and the store takes
    the batch. *)
Lemma Pursuer_tick_flushes s held front c t :
  lockfile (world s) = false -> storeUp s ->
  holds s (buffer (pursuer s)) held ->
  let s0 := loaded s in
  let docs := forwardQuery (pointer (pursuer s0)) (window (pursuer s))
                           (List.length held) (source (world s)) in
  let batch := held ++ map anonymized docs in
  Z.of_nat (List.length batch) = window (pursuer s) \/ held <> [] ->
  batch = front ++ [c] -> createdAt c = ValidDate t ->
  freshIds (target (world s)) batch ->
  Pursuer_tick s
  = (Ok tt, flushedAt batch t (fetchedInto docs (afterCall (OpFind Source) s0))).
Proof.
  intros Hl Hup Hh s0 docs batch Hdue Hbatch Ht Hfr.
  rewrite (Pursuer_tick_unlocked s Hl).
  destruct (loaded_facts s Hup)
    as (p & Hp & -> & Hup0 & Hheap & Hbuf & Hwin & Hsrc & Htgt & _).
  fold s0 in Hp, Hup0, Hheap, Hbuf, Hwin, Hsrc, Htgt |- *.
  rewrite (Pursuer_loop_with_pointer s0 p Hp Hup0). cbv zeta.
  pose proof (holds_length _ _ _ Hh) as Hlen.
  rewrite Hbuf, Hwin, Hsrc, Hlen.
  subst batch docs. rewrite Hp in *.
  set (docs := forwardQuery (Some p) _ _ _) in *.
  set (batch := held ++ map anonymized docs) in *.
  set (s1 := fetchedInto docs (afterCall (OpFind Source) s0)).
  assert (Hh1 : holds s1 (buffer (pursuer s1)) batch).
  { apply holds_fetchedInto with (refs := buffer (pursuer s0)); [|reflexivity].
    unfold holds. rewrite Hheap, Hbuf. exact Hh. }
  pose proof (holds_length _ _ _ Hh1) as Hafter. rewrite Hafter.
  assert (flushDue (window (pursuer s)) (List.length held) (List.length batch) = true) as ->.
  { unfold flushDue. destruct Hdue as [E|Hne].
    - rewrite E, Z.eqb_refl. reflexivity.
    - destruct held; [congruence|].
      destruct (Z.of_nat (List.length batch) =? window (pursuer s)); reflexivity. }
  rewrite Hbatch in *.
  apply flushBlock_run with (refs := buffer (pursuer s1)); try assumption; try reflexivity.
  - subst s1. apply storeUp_afterCall with (o := OpFind Source) in Hup0.
    intros b Hb. apply Hup0.
    destruct s0 as [[src tgt ps lk ck out] h [pp w b0] u tm tr rj]. exact Hb.
  - assert (target (world s1) = target (world s)) as ->; [|exact Hfr].
    rewrite <- Htgt. subst s1.
    destruct s0 as [[src tgt ps lk ck out] h [pp w b0] u tm tr rj]. reflexivity.
Qed.

End Flush.

Section FlushClaim.

Context {platform : Platform}.

Lemma buffered_facts docs s0 :
  let s1 := fetchedInto docs (afterCall (OpFind Source) s0) in
  source (world s1) = source (world s0)
  /\ target (world s1) = target (world s0)
  /\ pointerStore (world s1) = pointerStore (world s0)
  /\ lockfile (world s1) = lockfile (world s0)
  /\ pointer (pursuer s1) = pointer (pursuer s0)
  /\ window (pursuer s1) = window (pursuer s0)
  /\ targetWrites s1 = targetWrites s0
  /\ (storeUp s0 -> storeUp s1).
Proof.
  destruct s0 as [[src tgt ps lk ck out] h [pp w b] u tm tr rj].
  cbv zeta. unfold targetWrites, storeUp. state_simpl.
  rewrite filter_app. cbn. rewrite app_nil_r. repeat split.
  intros H b0 Hb. apply H. destruct out; [destruct Hb|now right].
Qed.

Lemma flushed_facts batch t s1 :
  let s2 := flushedAt batch t s1 in
  target (world s2) = target (world s1) ++ batch
  /\ pointer (pursuer s2) = Some (ValidDate t)
  /\ pointerStore (world s2) = Some (toISO t)
  /\ buffer (pursuer s2) = [].
Proof.
  destruct s1 as [[src tgt ps lk ck out] h [pp w b] u tm tr rj]. repeat split.
Qed.

Lemma limitTo_nil n : limitTo n [] = [].
Proof. unfold limitTo. destruct (n =? 0); [reflexivity|]. now rewrite firstn_nil. Qed.

Lemma limitTo_one n c : limitTo n [c] = [c].
Proof.
  unfold limitTo. destruct (Z.eqb_spec n 0); [reflexivity|].
  destruct (Z.to_nat (Z.abs n)) eqn:E; [lia|]. cbn. now rewrite firstn_nil.
Qed.


End FlushClaim.

(* ------------------------------------------------------------------ *)
(** * One tick, whatever the store does                                  *)
(* ------------------------------------------------------------------ *)

Lemma storeCall_run o s :
  storeCall o s = ((if callOk s then Ok tt else Throw StoreError), afterCall o s).
Proof.
  destruct s as [[src tgt ps lk ck out] h p u tm tr rj].
  unfold storeCall, callOk, afterCall. cbn. destruct out as [|[|] rest]; reflexivity.
Qed.

Lemma find_run c flt lim skp s :
  find c flt lim skp s
  = if callOk s then
      (Ok (let sorted := sortByCreatedAt (List.filter flt (get_coll c (world s))) in
           let skipped := match skp with
                          | Some k => skipn (Z.to_nat k) sorted
                          | None => sorted
                          end in
           match lim with
           | Some n => limitTo n skipped
           | None => skipped
           end),
       afterCall (OpFind c) s)
    else (Throw StoreError, afterCall (OpFind c) s).
Proof.
  unfold find. unfold bind at 1. rewrite storeCall_run.
  destruct (callOk s); [|reflexivity].
  unfold bind, gets, ret.
  destruct s as [[src tgt ps lk ck out] h p u tm tr rj]. destruct c; reflexivity.
Qed.

Lemma findOne_run c flt srt s :
  findOne c flt srt s
  = if callOk s then
      (Ok (hd_error (if srt then sortByCreatedAt (List.filter flt (get_coll c (world s)))
                     else List.filter flt (get_coll c (world s)))),
       afterCall (OpFindOne c) s)
    else (Throw StoreError, afterCall (OpFindOne c) s).
Proof.
  unfold findOne. unfold bind at 1. rewrite storeCall_run.
  destruct (callOk s); [|reflexivity].
  unfold bind, gets, ret.
  destruct s as [[src tgt ps lk ck out] h p u tm tr rj]. destruct c; reflexivity.
Qed.

Lemma insertMany_run docs s :
  insertMany Target docs s
  = match docs with
    | [] => (Throw EmptyBatch, s)
    | _ =>
        if callOk s then
          let s2 := with_world
                      (set_coll Target (fst (insertOrdered docs (target (world s)))))
                      (afterCall (OpInsertMany Target) s) in
          match snd (insertOrdered docs (target (world s))) with
          | Some id => (Throw (DuplicateKey id), s2)
          | None => (Ok tt, s2)
          end
        else (Throw StoreError, afterCall (OpInsertMany Target) s)
    end.
Proof.
  unfold insertMany. destruct docs as [|d docs]; [reflexivity|].
  unfold bind at 1. rewrite storeCall_run.
  destruct (callOk s); [|reflexivity].
  unfold bind at 1, gets.
  replace (get_coll Target (world (afterCall (OpInsertMany Target) s)))
    with (target (world s))
    by (destruct s as [[src tgt ps lk ck out] h p u tm tr rj]; reflexivity).
  destruct (insertOrdered (d :: docs) (target (world s))) as [coll' [id|]];
    reflexivity.
Qed.

Section AnyTick.

Context {platform : Platform}.

Lemma Pursuer_loadPointer_run s :
  Pursuer_loadPointer s
  = match pointerStore (world s) with
    | Some raw => (Ok tt, with_pursuer (set_pointer (Some (Date_parse raw))) s)
    | None =>
        if callOk s then
          (Ok tt,
           with_pursuer
             (set_pointer
                (Some (aMinuteEarlier
                         match hd_error (sortByCreatedAt (source (world s))) with
                         | Some c => createdAt c
                         | None => ValidDate (clock (world s))
                         end)))
             (afterCall (OpFindOne Source) s))
        else (Throw StoreError, afterCall (OpFindOne Source) s)
    end.
Proof.
  destruct (pointerStore (world s)) as [raw|] eqn:Hf.
  - now apply Pursuer_loadPointer_stored.
  - unfold Pursuer_loadPointer.
    unfold existsSync_POINTER_STORE. unfold bind at 1, gets. rewrite Hf.
    unfold bind at 1. rewrite findOne_run.
    destruct (callOk s); [|reflexivity].
    cbn [get_coll]. rewrite filter_all.
    unfold Date_now, bind, gets, modify.
    destruct s as [[src tgt ps lk ck out] h [p w b] u tm tr rj]. reflexivity.
Qed.

Lemma Pursuer_loop_load_fails s e s1 :
  pointer (pursuer s) = None ->
  Pursuer_loadPointer s = (Throw e, s1) ->
  Pursuer_loop s = (Throw e, s1).
Proof.
  intros Hp E. unfold Pursuer_loop.
  unfold bind at 1, gets at 1. rewrite Hp.
  unfold bind at 1. unfold bind at 1. rewrite E. reflexivity.
Qed.

Lemma Pursuer_loop_run s p :
  pointer (pursuer s) = Some p ->
  Pursuer_loop s
  = if callOk s then
      let docs := forwardQuery (Some p) (window (pursuer s))
                               (List.length (buffer (pursuer s))) (source (world s)) in
      let s1 := fetchedInto docs (afterCall (OpFind Source) s) in
      if flushDue (window (pursuer s)) (List.length (buffer (pursuer s)))
                  (List.length (buffer (pursuer s1)))
      then flushBlock s1
      else (Ok tt, s1)
    else (Throw StoreError, afterCall (OpFind Source) s).
Proof.
  intros Hp. unfold Pursuer_loop.
  unfold bind at 1, gets at 1. rewrite Hp.
  unfold bind at 1, ret at 1.
  unfold buffer_length at 1. unfold bind at 1, gets at 1.
  unfold bind at 1, gets at 1. rewrite Hp.
  unfold bind at 1, gets at 1.
  unfold bind at 1. rewrite find_run.
  destruct (callOk s); [|reflexivity].
  cbn [get_coll]. rewrite Nat2Z.id.
  fold (forwardQuery (Some p) (window (pursuer s)) (List.length (buffer (pursuer s)))
                     (source (world s))).
  rewrite (bind_ok _ _ _ _ _ (fetch_run _ _)).
  unfold buffer_length. unfold bind at 1, gets at 1.
  cbv zeta. unfold flushDue.
  replace (window (pursuer (afterCall (OpFind Source) s))) with (window (pursuer s))
    by (destruct s as [[src tgt ps lk ck out] h [pp w b] u tm tr rj]; reflexivity).
  set (s1 := fetchedInto _ _).
  destruct ((Z.of_nat (List.length (buffer (pursuer s1))) =? window (pursuer s))
            || negb (Z.of_nat (List.length (buffer (pursuer s))) =? 0)); reflexivity.
Qed.

(** The flush, whatever the store does: either it fails before the
    checkpoint is touched, or the batch went in and the checkpoint of
    its last record is set, written and the buffer emptied. *)
Lemma flushBlock_cases s batch :
  holds s (buffer (pursuer s)) batch ->
  (forall c, In c batch -> exists t, createdAt c = ValidDate t) ->
  quietly s (snd (flushBlock s))
  \/ exists front c t s2,
       batch = front ++ [c] /\ createdAt c = ValidDate t /\ quietly s s2
       /\ snd (flushBlock s)
          = with_pursuer (fun p => set_buffer [] (set_pointer (Some (ValidDate t)) p))
              (with_trace (fun tr => tr ++ [OpWritePointer (toISO t)])
                 (with_world (set_pointerStore (Some (toISO t))) s2)).
Proof.
  intros Hh Hdates.
  remember (flushBlock s) as res eqn:E.
  unfold flushBlock in E.
  unfold bind at 1, gets at 1 in E.
  rewrite (bind_ok _ _ _ _ _ (mapM_deref _ _ _ Hh)) in E.
  unfold bind at 1 in E. rewrite insertMany_run in E.
  assert (Qcall : quietly s (afterCall (OpInsertMany Target) s)).
  { destruct s as [[src tgt ps lk ck out] h [pp w b] u tm tr rj].
    unfold quietly, pointerWrites. state_simpl. rewrite flat_map_app. cbn.
    rewrite app_nil_r. repeat split. exists []. now rewrite app_nil_r. }
  destruct (exists_last_or_nil batch) as [->|(front & c & Efront)].
  { left. subst res. cbn [snd]. unfold quietly. repeat split.
    exists []. now rewrite app_nil_r. }
  assert (Hmatch : forall (X : Type) (a b : X),
             match batch with [] => a | _ :: _ => b end = b).
  { intros X a b. rewrite Efront. destruct front; reflexivity. }
  rewrite Hmatch in E.
  destruct (callOk s); [|left; subst res; exact Qcall].
  cbv zeta in E.
  set (s2 := with_world _ _) in E.
  assert (Q2 : quietly s s2).
  { subst s2. destruct s as [[src tgt ps lk ck out] h [pp w b] u tm tr rj].
    unfold quietly, pointerWrites in *. state_simpl. exact Qcall. }
  destruct (snd (insertOrdered batch (target (world s)))) as [id|];
    [left; subst res; exact Q2|].
  right.
  destruct (Hdates c) as (t & Ht); [rewrite Efront; apply in_or_app; right; now left|].
  exists front, c, t, s2.
  split; [exact Efront|]. split; [exact Ht|]. split; [exact Q2|].
  unfold holds in Hh. rewrite Efront in Hh. apply Forall2_app_inv_r in Hh.
  destruct Hh as (rfront & rlast & _ & Hl & Hbuf).
  inversion Hl as [|r c' ? ? Hr Hnil]; subst rlast. inversion Hnil; subst.
  rewrite Hbuf, last_map_Some.
  assert (Hr2 : nth_error (heap s2) r = Some c)
    by (subst s2; destruct s as [[src tgt ps lk ck out] h p u tm tr rj]; exact Hr).
  rewrite (bind_ok _ _ _ _ _ (bind_ok _ _ _ _ _ (deref_run _ _ _ Hr2))).
  rewrite Ht. unfold detached. unfold bind at 1.
  rewrite (Pursuer_storePointer_valid _ t) by reflexivity.
  reflexivity.
Qed.

End AnyTick.

(* ------------------------------------------------------------------ *)
(** * Steps that leave the checkpoint alone                              *)
(* ------------------------------------------------------------------ *)

Lemma quietly_refl s : quietly s s.
Proof. unfold quietly. repeat split. exists []. now rewrite app_nil_r. Qed.

Lemma quietly_trans s1 s2 s3 : quietly s1 s2 -> quietly s2 s3 -> quietly s1 s3.
Proof.
  intros (P1 & F1 & W1 & S1 & m1 & H1) (P2 & F2 & W2 & S2 & m2 & H2).
  unfold quietly. repeat split; try congruence.
  exists (m1 ++ m2). rewrite H2, H1. now rewrite app_assoc.
Qed.

Lemma calm_ret {A} (a : A) : calm (ret a).
Proof. intros s. apply quietly_refl. Qed.

Lemma calm_throw {A} e : calm (@throw A e).
Proof. intros s. apply quietly_refl. Qed.

Lemma calm_gets {A} (g : Proc -> A) : calm (gets g).
Proof. intros s. apply quietly_refl. Qed.

Lemma calm_bind {A B} (m : JS A) (k : A -> JS B) :
  calm m -> (forall a, calm (k a)) -> calm (bind m k).
Proof.
  intros Hm Hk s. unfold bind. specialize (Hm s).
  destruct (m s) as [[a|e|c] s']; cbn [snd] in *; [|assumption..].
  eapply quietly_trans; [exact Hm|apply Hk].
Qed.

Lemma calm_detached {A} (m : JS A) : calm m -> calm (detached m).
Proof.
  intros Hm s. unfold detached. specialize (Hm s).
  destruct (m s) as [[a|e|c] s']; cbn [snd] in *; assumption.
Qed.

Lemma calm_storeCall o : isStoreOp o = true -> calm (storeCall o).
Proof.
  intros Ho s. rewrite storeCall_run. cbn [snd].
  destruct s as [[src tgt ps lk ck out] h [pp w b] u tm tr rj].
  unfold quietly, pointerWrites. state_simpl. rewrite flat_map_app. cbn.
  destruct o; try discriminate; cbn; rewrite app_nil_r; repeat split;
    exists []; now rewrite app_nil_r.
Qed.

Ltac quiet_now :=
  unfold quietly, pointerWrites; cbn; repeat split; exists []; now rewrite app_nil_r.

Lemma calm_set_target l : calm (modify (with_world (set_coll Target l))).
Proof. intros [[src tgt ps lk ck out] h [pp w b] u tm tr rj]. quiet_now. Qed.

Lemma calm_timers f : calm (modify (with_timers f)).
Proof. intros [[src tgt ps lk ck out] h [pp w b] u tm tr rj]. quiet_now. Qed.

Lemma calm_updater f : calm (modify (with_updater f)).
Proof. intros [[src tgt ps lk ck out] h [pp w b] u tm tr rj]. quiet_now. Qed.

Lemma calm_deref r : calm (deref r).
Proof.
  intros s. unfold deref. destruct (nth_error (heap s) r); apply quietly_refl.
Qed.

Create HintDb calm.
#[local] Hint Resolve calm_set_target calm_timers calm_updater calm_deref : calm.
#[local] Hint Extern 1 (calm (storeCall _)) => apply calm_storeCall; reflexivity : calm.

Ltac calm_step :=
  first
    [ apply calm_ret | apply calm_throw | apply calm_gets
    | apply calm_bind; [|intros ?]
    | apply calm_detached
    | match goal with
      | |- calm (match ?x with _ => _ end) => destruct x
      end ].

Lemma calm_find c flt lim skp : calm (find c flt lim skp).
Proof. unfold find. repeat (auto with calm || calm_step). Qed.

Lemma calm_findOne c flt srt : calm (findOne c flt srt).
Proof. unfold findOne. repeat (auto with calm || calm_step). Qed.

Lemma calm_updateOne id doc : calm (updateOne Target id doc).
Proof. unfold updateOne. repeat (auto with calm || calm_step). Qed.
#[local] Hint Resolve calm_find calm_findOne calm_updateOne : calm.

(** A fresh object may be anonymized: no object that existed before is
    touched. *)
Lemma calm_fresh_anonymize {B} doc (k : ref -> JS B) :
  (forall r, calm (k r)) ->
  calm (c <- fresh doc ;; r <- anonymizeCustomer c ;; k r).
Proof.
  intros Hk s. unfold fresh at 1. unfold bind at 1.
  rewrite (bind_ok _ _ _ _ _
             (anonymizeCustomer_run (with_heap (fun h => h ++ [doc]) s)
                (List.length (heap s)) doc (nth_error_app_end (heap s) doc))).
  eapply quietly_trans; [|apply Hk].
  destruct s as [[src tgt ps lk ck out] h [pp w b] u tm tr rj].
  unfold quietly. state_simpl. rewrite list_set_app_end. repeat split. eauto.
Qed.

Section CalmUpdater.

Context {platform : Platform}.

Lemma calm_Updater_run : calm Updater_run.
Proof.
  unfold Updater_run, lockfile_checkSync, setTimeout, Updater_buildStream, cursor_close.
  repeat (auto with calm || calm_step).
Qed.

Lemma calm_Updater_onData doc : calm (Updater_onData doc).
Proof.
  unfold Updater_onData. apply calm_bind; [auto with calm|intros [found|]].
  - apply calm_fresh_anonymize. intros r. repeat (auto with calm || calm_step).
  - apply calm_ret.
Qed.

Lemma calm_Updater_onStreamData doc : calm (Updater_onStreamData doc).
Proof.
  unfold Updater_onStreamData, lockfile_checkSync, cursor_close.
  apply calm_bind; [apply calm_gets|intros [|]]; cbn [negb].
  - apply calm_bind; [auto with calm|intros _; apply calm_Updater_run].
  - apply calm_Updater_onData.
Qed.

End CalmUpdater.

(* ------------------------------------------------------------------ *)
(** * The checkpoints a run writes                                       *)
(* ------------------------------------------------------------------ *)

Lemma lastOf_snoc ts t : lastOf (ts ++ [t]) = Some t.
Proof. unfold lastOf. apply last_map_Some. Qed.

Lemma lastOf_In ts W : lastOf ts = Some W -> In W ts.
Proof.
  destruct (exists_last_or_nil ts) as [->|(front & y & ->)]; [discriminate|].
  rewrite lastOf_snoc. intros E. injection E as <-. apply in_or_app. right. now left.
Qed.

Lemma lastOf_bound ts :
  StronglySorted Z.le ts ->
  forall x W, In x ts -> lastOf ts = Some W -> x <= W.
Proof.
  induction 1 as [|a ts Hs IH Hall]; intros x W Hin Hlast; [destruct Hin|].
  destruct (exists_last_or_nil ts) as [->|(front & y & ->)].
  - cbn in Hlast. injection Hlast as <-. destruct Hin as [->|[]]. lia.
  - change (a :: front ++ [y]) with ((a :: front) ++ [y]) in Hlast.
    rewrite lastOf_snoc in Hlast. injection Hlast as <-.
    destruct Hin as [->|Hin].
    + rewrite Forall_forall in Hall. apply Hall. apply in_or_app. right. now left.
    + apply IH; [exact Hin|apply lastOf_snoc].
Qed.

Lemma sorted_snoc ts t :
  StronglySorted Z.le ts -> (forall W, lastOf ts = Some W -> W <= t) ->
  StronglySorted Z.le (ts ++ [t]).
Proof.
  intros Hs Hlast.
  assert (Hall : forall x, In x ts -> x <= t).
  { intros x Hx. destruct (exists_last_or_nil ts) as [->|(front & y & E)]; [destruct Hx|].
    assert (lastOf ts = Some y) as Hy by (rewrite E; apply lastOf_snoc).
    pose proof (lastOf_bound ts Hs x y Hx Hy). specialize (Hlast y Hy). lia. }
  clear Hlast. induction Hs as [|a ts Hs IH Ha]; cbn.
  - repeat constructor.
  - constructor.
    + apply IH. intros x Hx. apply Hall. now right.
    + apply Forall_app. split; [exact Ha|]. constructor; [|constructor].
      apply Hall. now left.
Qed.

Lemma sorted_successive ts front t1 t2 back :
  StronglySorted Z.le ts -> ts = front ++ t1 :: t2 :: back -> t1 <= t2.
Proof.
  intros Hs ->. induction front as [|a front IH]; cbn in Hs.
  - inversion Hs as [|? ? _ Hall]; subst. inversion Hall; subst. assumption.
  - inversion Hs; subst. auto.
Qed.

Lemma In_limitTo n (l : list Customer) d : In d (limitTo n l) -> In d l.
Proof.
  unfold limitTo. destruct (n =? 0); [auto|]. intros H.
  rewrite <- (firstn_skipn (Z.to_nat (Z.abs n)) l). apply in_or_app. now left.
Qed.

Lemma In_skipn_list {A} k (l : list A) d : In d (skipn k l) -> In d l.
Proof.
  intros H. rewrite <- (firstn_skipn k l). apply in_or_app. now right.
Qed.

Section Checkpoints.

Context {platform : Platform}.

Lemma In_forwardQuery p w len src d :
  In d (forwardQuery p w len src) ->
  In d src /\ gtCreatedAt (queryBound p) d = true.
Proof.
  unfold forwardQuery. intros H.
  apply In_limitTo, In_skipn_list, In_sortByCreatedAt, filter_In in H. exact H.
Qed.

Lemma Inv_quietly s s' ts : Inv s ts -> quietly s s' -> Inv s' ts.
Proof.
  intros (Hw & Hs & Hr & Hb & Hp & Hsrc) (P & F & W & S & more & Hh).
  unfold Inv. rewrite W, F, P, S.
  split; [exact Hw|]. split; [exact Hs|]. split; [exact Hr|].
  split; [|split; [exact Hp|exact Hsrc]].
  intros r Hin. unfold bufferedAbove in Hb. rewrite P in Hin.
  destruct (Hb r Hin) as (c & t & Hc & Rest). exists c, t. split; [|exact Rest].
  rewrite Hh. rewrite nth_error_app1; [exact Hc|]. apply nth_error_Some. congruence.
Qed.

Lemma Inv_fetched s ts docs :
  Inv s ts ->
  (forall d, In d docs ->
     exists t, createdAt d = ValidDate t /\ inRange t
               /\ forall W, lastOf ts = Some W -> W < t) ->
  Inv (fetchedInto docs s) ts.
Proof.
  intros (Hw & Hs & Hr & Hb & Hp & Hsrc) Hdocs.
  destruct s as [[src tgt ps lk ck out] h [pp w b] u tm tr rj].
  unfold Inv, bufferedAbove, pointerWrites in *. state_simpl.
  split; [exact Hw|]. split; [exact Hs|]. split; [exact Hr|].
  split; [|split; [exact Hp|exact Hsrc]].
  intros r Hin. apply in_app_or in Hin. destruct Hin as [Hin|Hin].
  - destruct (Hb r Hin) as (c & t & Hc & Rest). exists c, t. split; [|exact Rest].
    rewrite nth_error_app1; [exact Hc|]. apply nth_error_Some. congruence.
  - apply in_seq in Hin.
    destruct (nth_error docs (r - List.length h)) as [d|] eqn:Ed.
    2:{ apply nth_error_None in Ed. lia. }
    destruct (Hdocs d (nth_error_In _ _ Ed)) as (t & Ht & Rest).
    exists (anonymized d), t. split; [|split; [exact Ht|exact Rest]].
    rewrite nth_error_app2 by lia. rewrite nth_error_map, Ed. reflexivity.
Qed.

Lemma bufferedAbove_holds s lo :
  bufferedAbove s lo ->
  exists batch, holds s (buffer (pursuer s)) batch
                /\ forall c, In c batch ->
                     exists t, createdAt c = ValidDate t /\ inRange t
                               /\ forall W, lo = Some W -> W < t.
Proof.
  unfold bufferedAbove, holds. generalize (buffer (pursuer s)) as refs.
  induction refs as [|r refs IH]; intros H.
  - exists []. split; [constructor|intros c []].
  - destruct (H r (or_introl eq_refl)) as (c & t & Hc & Rest).
    destruct IH as (batch & Hh & Hall); [intros r' Hr'; apply H; now right|].
    exists (c :: batch). split; [now constructor|].
    intros c' [<-|Hin]; [eauto|auto].
Qed.

Variable law : parsesBack.

Lemma Inv_load s ts :
  Inv s ts -> pointer (pursuer s) = None ->
  Inv (snd (Pursuer_loadPointer s)) ts
  /\ (forall e, fst (Pursuer_loadPointer s) = Throw e ->
                Pursuer_loop s = (Throw e, snd (Pursuer_loadPointer s)))
  /\ (fst (Pursuer_loadPointer s) = Ok tt ->
      Pursuer_loop s = Pursuer_loop (snd (Pursuer_loadPointer s))
      /\ pointer (pursuer (snd (Pursuer_loadPointer s))) <> None)
  /\ (forall c, fst (Pursuer_loadPointer s) <> Exit c).
Proof.
  intros HI Hp.
  assert (Hfail : forall e, fst (Pursuer_loadPointer s) = Throw e ->
                    Pursuer_loop s = (Throw e, snd (Pursuer_loadPointer s))).
  { intros e E. apply Pursuer_loop_load_fails; [exact Hp|].
    rewrite <- E. apply surjective_pairing. }
  pose proof HI as (Hw & Hs & Hr & Hb & Hptr & Hsrc).
  rewrite Pursuer_loadPointer_run in *.
  destruct (pointerStore (world s)) as [raw|] eqn:Hf.
  - cbn [fst snd] in *. split; [|split; [exact Hfail|split; [|discriminate]]].
    + split; [exact Hw|]. split; [exact Hs|]. split; [exact Hr|].
      split; [exact Hb|]. split; [|exact Hsrc].
      intros W HW. destruct (Hptr W HW) as [E _].
      split; [change (pointerStore (world s) = Some (toISO W)); rewrite Hf; exact E|].
      right. injection E as ->. cbn.
      rewrite law; [reflexivity|].
      rewrite Forall_forall in Hr. apply Hr. now apply lastOf_In.
    + intros _. split; [|discriminate].
      apply Pursuer_loop_after_load; [exact Hp| |discriminate].
      rewrite Pursuer_loadPointer_run, Hf. reflexivity.
  - assert (Hnone : lastOf ts = None).
    { destruct (lastOf ts) as [W|] eqn:E; [|reflexivity].
      destruct (Hptr W eq_refl) as [F _]. discriminate. }
    assert (Q : quietly s (afterCall (OpFindOne Source) s)).
    { pose proof (calm_storeCall (OpFindOne Source) eq_refl s) as Q.
      now rewrite storeCall_run in Q. }
    destruct (callOk s) eqn:Hc; cbn [fst snd] in *.
    + split; [|split; [exact Hfail|split; [|discriminate]]].
      * pose proof (Inv_quietly _ _ _ HI Q) as (Hw' & Hs' & Hr' & Hb' & Hptr' & Hsrc').
        split; [exact Hw'|]. split; [exact Hs'|]. split; [exact Hr'|].
        split; [exact Hb'|]. split; [|exact Hsrc'].
        intros W HW. rewrite Hnone in HW. discriminate.
      * intros _. split; [|discriminate].
        apply Pursuer_loop_after_load; [exact Hp| |discriminate].
        rewrite Pursuer_loadPointer_run, Hf, Hc. reflexivity.
    + split; [exact (Inv_quietly _ _ _ HI Q)|].
      split; [exact Hfail|]. split; [discriminate|discriminate].
Qed.

Lemma Inv_flushed s2 ts t :
  Inv s2 ts -> inRange t -> (forall W, lastOf ts = Some W -> W < t) ->
  Inv (with_pursuer (fun p => set_buffer [] (set_pointer (Some (ValidDate t)) p))
         (with_trace (fun tr => tr ++ [OpWritePointer (toISO t)])
            (with_world (set_pointerStore (Some (toISO t))) s2)))
      (ts ++ [t]).
Proof.
  intros (Hw & Hs & Hr & Hb & Hptr & Hsrc) Ht Habove.
  destruct s2 as [[src tgt ps lk ck out] h [pp w b] u tm tr rj].
  unfold Inv, bufferedAbove, pointerWrites in *. state_simpl.
  split; [rewrite flat_map_app, map_app, Hw; reflexivity|].
  split; [apply sorted_snoc; [exact Hs|intros W HW; specialize (Habove W HW); lia]|].
  split; [apply Forall_app; split; [exact Hr|constructor; [exact Ht|constructor]]|].
  split; [intros r []|]. split; [|exact Hsrc].
  intros W HW. rewrite lastOf_snoc in HW. injection HW as <-. split; [reflexivity|now right].
Qed.

Lemma Inv_loop_pointer s ts p :
  Inv s ts -> pointer (pursuer s) = Some p ->
  exists more, Inv (snd (Pursuer_loop s)) (ts ++ more).
Proof.
  intros HI Hp. rewrite (Pursuer_loop_run s p Hp).
  assert (Q : quietly s (afterCall (OpFind Source) s)).
  { pose proof (calm_storeCall (OpFind Source) eq_refl s) as Q.
    now rewrite storeCall_run in Q. }
  pose proof (Inv_quietly _ _ _ HI Q) as HI0.
  destruct (callOk s); [|exists []; rewrite app_nil_r; exact HI0].
  cbv zeta.
  set (docs := forwardQuery (Some p) _ _ _).
  assert (HI1 : Inv (fetchedInto docs (afterCall (OpFind Source) s)) ts).
  { apply Inv_fetched; [exact HI0|]. intros d Hd.
    apply In_forwardQuery in Hd. destruct Hd as [Hsrc Hgt].
    destruct HI as (_ & _ & _ & _ & Hptr & Hreal).
    unfold gtCreatedAt in Hgt.
    destruct (queryBound (Some p)) as [b|] eqn:Eb; [|discriminate].
    destruct (createdAt d) as [|t] eqn:Et; [discriminate|].
    exists t. split; [reflexivity|]. split; [apply (Hreal d t Hsrc Et)|].
    intros W HW. destruct (Hptr W HW) as [_ [F|F]]; [congruence|].
    rewrite Hp in F. injection F as ->. cbn in Eb. injection Eb as <-.
    now apply Z.ltb_lt. }
  set (s1 := fetchedInto docs (afterCall (OpFind Source) s)) in *.
  destruct (flushDue _ _ _); [|exists []; rewrite app_nil_r; exact HI1].
  pose proof HI1 as (_ & _ & _ & Hb1 & _).
  destruct (bufferedAbove_holds s1 _ Hb1) as (batch & Hh & Hall).
  destruct (flushBlock_cases s1 batch Hh) as [Q1|(front & c & t & s2 & Eb & Ht & Q2 & ->)].
  - intros c Hc. destruct (Hall c Hc) as (t & Ht & _). eauto.
  - exists []. rewrite app_nil_r. exact (Inv_quietly _ _ _ HI1 Q1).
  - exists [t]. apply Inv_flushed; [exact (Inv_quietly _ _ _ HI1 Q2)| |].
    + destruct (Hall c) as (t' & Ht' & Hr' & _);
        [rewrite Eb; apply in_or_app; right; now left|]. congruence.
    + destruct (Hall c) as (t' & Ht' & _ & Ha');
        [rewrite Eb; apply in_or_app; right; now left|].
      assert (t' = t) as -> by congruence. exact Ha'.
Qed.

Lemma Inv_tick s ts :
  Inv s ts -> exists more, Inv (snd (Pursuer_tick s)) (ts ++ more).
Proof.
  intros HI. destruct (lockfile (world s)) eqn:Hl.
  - rewrite Pursuer_tick_locked by exact Hl. cbn [snd].
    exists []. rewrite app_nil_r.
    destruct HI as (Hw & Hs & Hr & Hb & Hptr & Hsrc).
    split; [exact Hw|]. split; [exact Hs|]. split; [exact Hr|].
    split; [exact Hb|]. split; [|exact Hsrc].
    intros W HW. destruct (Hptr W HW) as [E _]. split; [exact E|now left].
  - rewrite Pursuer_tick_unlocked by exact Hl.
    destruct (pointer (pursuer s)) as [p|] eqn:Hp.
    + now apply (Inv_loop_pointer s ts p).
    + destruct (Inv_load s ts HI Hp) as (HI1 & Hfail & Hok & Hexit).
      destruct (fst (Pursuer_loadPointer s)) as [[]|e|c] eqn:E.
      * destruct (Hok eq_refl) as [-> Hp1].
        destruct (pointer (pursuer (snd (Pursuer_loadPointer s)))) as [p|] eqn:Hp';
          [|congruence].
        now apply (Inv_loop_pointer _ ts p).
      * rewrite (Hfail e eq_refl). exists []. rewrite app_nil_r. exact HI1.
      * destruct (Hexit c eq_refl).
Qed.

Lemma Inv_step e s ts :
  noReindex e -> realSource e -> Inv s ts ->
  exists more, Inv (step e s) (ts ++ more).
Proof.
  intros Hn Hr HI. destruct e as [t|src|tgt|held|tm|out|]; cbn [step].
  - destruct t as [| |doc|].
    + unfold fire, detached. destruct (Inv_tick s ts HI) as (more & HI').
      exists more. destruct (Pursuer_tick s) as [[a|e|c] s']; exact HI'.
    + exists []. rewrite app_nil_r. apply (Inv_quietly s _ ts HI).
      apply (calm_detached _ calm_Updater_run).
    + exists []. rewrite app_nil_r. apply (Inv_quietly s _ ts HI).
      apply (calm_detached _ (calm_Updater_onStreamData doc)).
    + exists []. rewrite app_nil_r. apply (Inv_quietly s _ ts HI).
      apply (calm_detached _ calm_Updater_run).
  - exists []. rewrite app_nil_r.
    destruct HI as (Hw & Hs & Hrg & Hb & Hptr & Hsrc).
    destruct s as [[src0 tgt ps lk ck out] h [pp w b] u tm tr rj].
    split; [exact Hw|]. split; [exact Hs|]. split; [exact Hrg|].
    split; [exact Hb|]. split; [exact Hptr|exact Hr].
  - exists []. rewrite app_nil_r. apply (Inv_quietly s _ ts HI).
    destruct s as [[src0 tgt0 ps lk ck out] h [pp w b] u tm tr rj]. quiet_now.
  - exists []. rewrite app_nil_r. apply (Inv_quietly s _ ts HI).
    destruct s as [[src0 tgt0 ps lk ck out] h [pp w b] u tm0 tr rj]. quiet_now.
  - exists []. rewrite app_nil_r. apply (Inv_quietly s _ ts HI).
    destruct s as [[src0 tgt0 ps lk ck out] h [pp w b] u tm0 tr rj]. quiet_now.
  - exists []. rewrite app_nil_r. apply (Inv_quietly s _ ts HI).
    destruct s as [[src0 tgt0 ps lk ck out0] h [pp w b] u tm0 tr rj]. quiet_now.
  - destruct (Hn eq_refl).
Qed.

Lemma Inv_run es s ts :
  Forall noReindex es -> Forall realSource es -> Inv s ts ->
  exists more, Inv (runOf es s) (ts ++ more).
Proof.
  revert s ts. induction es as [|e es IH]; intros s ts Hn Hr HI.
  - exists []. rewrite app_nil_r. exact HI.
  - inversion Hn; subst. inversion Hr; subst.
    destruct (Inv_step e s ts) as (m1 & HI1); try assumption.
    destruct (IH (step e s) (ts ++ m1)) as (m2 & HI2); try assumption.
    exists (m1 ++ m2). rewrite app_assoc. exact HI2.
Qed.

End Checkpoints.


From Stdlib Require Import Permutation.

(* ------------------------------------------------------------------ *)
(** * The anonymised email                                               *)
(* ------------------------------------------------------------------ *)

Lemma occurrences_app sep (a b : string) :
  occurrences sep (a ++ b)%string = (occurrences sep a + occurrences sep b)%nat.
Proof.
  induction a as [|c a IH]; cbn [append occurrences]; [reflexivity|].
  rewrite IH. lia.
Qed.

Lemma split_pieces_clean sep s :
  Forall (fun p => occurrences sep p = 0%nat) (split sep s).
Proof.
  induction s as [|c s IH]; cbn [split].
  - constructor; [reflexivity|constructor].
  - destruct (Ascii.eqb c sep) eqn:E.
    + constructor; [reflexivity|exact IH].
    + destruct (split sep s) as [|p ps].
      * constructor; [|constructor]. cbn [occurrences]. now rewrite E.
      * inversion IH as [|? ? Hp Hps]; subst.
        constructor; [|exact Hps]. cbn [occurrences]. rewrite E. exact Hp.
Qed.

Lemma lowerHex_not_at c : isLowerHex c = true -> Ascii.eqb c "@" = false.
Proof.
  intros H. apply Ascii.eqb_neq. intros ->. vm_compute in H. discriminate.
Qed.

Lemma allChars_lowerHex_no_at s :
  allChars isLowerHex s = true -> occurrences "@" s = 0%nat.
Proof.
  induction s as [|c s IH]; cbn [allChars occurrences]; [reflexivity|].
  intros H. apply andb_true_iff in H. destruct H as [Hc Hs].
  rewrite (lowerHex_not_at _ Hc), (IH Hs). reflexivity.
Qed.

Lemma hex_no_at v : occurrences "@" (hex v) = 0%nat.
Proof. apply allChars_lowerHex_no_at. apply (hex_isHex8 v). Qed.

Lemma anonymized_email_one_at_always c :
  occurrences "@" (email (anonymized c)) = 1%nat.
Proof.
  unfold anonymized. cbn [email].
  rewrite !occurrences_app, hex_no_at.
  assert (Hh : occurrences "@" (template (nth_error (split "@" (email c)) 1)) = 0%nat).
  { destruct (nth_error (split "@" (email c)) 1) as [p|] eqn:E; cbn [template].
    - pose proof (split_pieces_clean "@" (email c)) as F.
      rewrite Forall_forall in F. apply F. eapply nth_error_In; eauto.
    - reflexivity. }
  rewrite Hh. reflexivity.
Qed.

(** X1.  Whatever the email of the record was (no ['@'], one, or
    several), the email [anonymizeCustomer] leaves in the object
    contains exactly one ['@']: the digest before it is eight
    hexadecimal digits, and what follows is one piece of the split or
    the word undefined. *)
Theorem anonymizeCustomer_email_has_one_at :
  forall s r c,
    nth_error (heap s) r = Some c ->
    exists s' c' rest,
      anonymizeCustomer r s = (Ok r, s')
      /\ nth_error (heap s') r = Some c'
      /\ occurrences "@" (email c') = 1%nat
      /\ email c' = (hex (hd EmptyString (split "@" (email c))) ++ "@" ++ rest)%string
      /\ occurrences "@" rest = 0%nat.
Proof.
  intros s r c H.
  exists (with_heap (fun h => list_set h r (anonymized c)) s), (anonymized c),
         (template (nth_error (split "@" (email c)) 1)).
  split; [apply anonymizeCustomer_run; exact H|].
  split; [eapply heap_after_set; exact H|].
  split; [apply anonymized_email_one_at_always|].
  split; [reflexivity|].
  destruct (nth_error (split "@" (email c)) 1) as [p|] eqn:E; cbn [template].
  - pose proof (split_pieces_clean "@" (email c)) as F.
    rewrite Forall_forall in F. apply F. eapply nth_error_In; eauto.
  - reflexivity.
Qed.

(* ------------------------------------------------------------------ *)
(** * What every action of the program leaves in order                   *)
(* ------------------------------------------------------------------ *)

Section Always.

Variable R : Proc -> Proc -> Prop.
Hypothesis R_refl : forall s, R s s.
Hypothesis R_trans : forall s1 s2 s3, R s1 s2 -> R s2 s3 -> R s1 s3.

Lemma always_ret {A} (a : A) : always R (ret a).
Proof. intros s. apply R_refl. Qed.

Lemma always_throw {A} e : always R (@throw A e).
Proof. intros s. apply R_refl. Qed.

Lemma always_exit {A} c : always R (@process_exit A c).
Proof. intros s. apply R_refl. Qed.

Lemma always_gets {A} (g : Proc -> A) : always R (gets g).
Proof. intros s. apply R_refl. Qed.

Lemma always_bind {A B} (m : JS A) (k : A -> JS B) :
  always R m -> (forall a, always R (k a)) -> always R (bind m k).
Proof.
  intros Hm Hk s. unfold bind. specialize (Hm s).
  destruct (m s) as [[a|e|c] s']; cbn [snd] in *; [|assumption..].
  eapply R_trans; [exact Hm|apply Hk].
Qed.

Lemma always_bind_yields {A B} (Q : A -> Prop) (m : JS A) (k : A -> JS B) :
  always R m -> yields m Q -> (forall a, Q a -> always R (k a)) -> always R (bind m k).
Proof.
  intros Hm Hq Hk s. unfold bind. specialize (Hm s). specialize (Hq s).
  destruct (m s) as [[a|e|c] s']; cbn [snd fst] in *; [|assumption..].
  eapply R_trans; [exact Hm|apply Hk]. apply Hq. reflexivity.
Qed.

Lemma always_forEach {A} (l : list A) (body : A -> JS unit) :
  (forall a, always R (body a)) -> always R (forEach l body).
Proof.
  intros H. induction l as [|a l IH]; cbn [forEach].
  - apply always_ret.
  - apply always_bind; auto.
Qed.

Lemma always_mapM {A B} (g : A -> JS B) (l : list A) :
  (forall a, always R (g a)) -> always R (mapM g l).
Proof.
  intros H. induction l as [|a l IH]; cbn [mapM].
  - apply always_ret.
  - apply always_bind; [auto|intros b]. apply always_bind; [auto|intros bs].
    apply always_ret.
Qed.

Hypothesis R_rejections : forall s s' f, R s s' -> R s (with_rejections f s').

Lemma always_detached {A} (m : JS A) : always R m -> always R (detached m).
Proof.
  intros Hm s. unfold detached. specialize (Hm s).
  destruct (m s) as [[a|e|c] s']; cbn [snd] in *; auto.
Qed.

End Always.

Section OrderlySteps.

Context {platform : Platform}.

Lemma orderly_refl s : orderly s s.
Proof.
  unfold orderly. repeat split.
  - exists []. now rewrite app_nil_r.
  - exists []. rewrite app_nil_r. split; [reflexivity|constructor].
Qed.

Lemma orderly_trans s1 s2 s3 : orderly s1 s2 -> orderly s2 s3 -> orderly s1 s3.
Proof.
  intros (S1 & C1 & (m1 & I1) & (o1 & T1 & F1)) (S2 & C2 & (m2 & I2) & (o2 & T2 & F2)).
  unfold orderly. split; [congruence|]. split; [congruence|]. split.
  - exists (m1 ++ m2). rewrite I2, I1. now rewrite app_assoc.
  - exists (o1 ++ o2). rewrite T2, T1. split; [now rewrite app_assoc|].
    apply Forall_app. split; assumption.
Qed.

Lemma orderly_rejections s s' f : orderly s s' -> orderly s (with_rejections f s').
Proof. intros H. exact H. Qed.

End OrderlySteps.

Create HintDb orderly.

Section OrderlyStore.

Context {platform : Platform}.

Ltac ord_step :=
  first
    [ apply (always_ret _ orderly_refl) | apply (always_throw _ orderly_refl)
    | apply (always_exit _ orderly_refl) | apply (always_gets _ orderly_refl)
    | apply (always_bind _ orderly_trans); [|intros ?]
    | apply (always_forEach _ orderly_refl orderly_trans); intros ?
    | apply (always_mapM _ orderly_refl orderly_trans); intros ?
    | apply (always_detached _ orderly_rejections)
    | match goal with
      | |- always _ (match ?x with _ => _ end) => destruct x
      | |- always _ (if ?x then _ else _) => destruct x
      end ].

Ltac orderly_now :=
  unfold orderly, targetIds; cbn;
  split; [reflexivity|]; split; [reflexivity|]; split;
  [ exists []; now rewrite app_nil_r
  | exists []; rewrite app_nil_r; split; [reflexivity|constructor] ].

Lemma orderly_storeCall o : rendered o -> always orderly (storeCall o).
Proof.
  intros Ho s. rewrite storeCall_run. cbn [snd].
  destruct s as [[src tgt ps lk ck out] h p u tm tr rj].
  unfold orderly, targetIds. cbn.
  split; [reflexivity|]. split; [reflexivity|]. split.
  - exists []. now rewrite app_nil_r.
  - exists [o]. split; [reflexivity|]. constructor; [exact Ho|constructor].
Qed.

Lemma orderly_with_heap f : always orderly (modify (with_heap f)).
Proof. intros [[src tgt ps lk ck out] h p u tm tr rj]. orderly_now. Qed.

Lemma orderly_with_pursuer f : always orderly (modify (with_pursuer f)).
Proof. intros [[src tgt ps lk ck out] h p u tm tr rj]. orderly_now. Qed.

Lemma orderly_with_updater f : always orderly (modify (with_updater f)).
Proof. intros [[src tgt ps lk ck out] h p u tm tr rj]. orderly_now. Qed.

Lemma orderly_with_timers f : always orderly (modify (with_timers f)).
Proof. intros [[src tgt ps lk ck out] h p u tm tr rj]. orderly_now. Qed.

Lemma orderly_set_lockfile v : always orderly (modify (with_world (set_lockfile v))).
Proof. intros [[src tgt ps lk ck out] h p u tm tr rj]. orderly_now. Qed.

Lemma orderly_fresh c : always orderly (fresh c).
Proof. intros [[src tgt ps lk ck out] h p u tm tr rj]. orderly_now. Qed.

Lemma orderly_deref r : always orderly (deref r).
Proof.
  intros s. unfold deref. destruct (nth_error (heap s) r); apply orderly_refl.
Qed.

Hint Resolve orderly_with_heap orderly_with_pursuer orderly_with_updater
  orderly_with_timers orderly_set_lockfile orderly_fresh orderly_deref : orderly.
Hint Extern 1 (always orderly (storeCall _)) =>
  apply orderly_storeCall; exact I : orderly.

Lemma orderly_assign r f : always orderly (assign r f).
Proof. unfold assign. repeat (auto with orderly || ord_step). Qed.

Hint Resolve orderly_assign : orderly.

Lemma orderly_anonymizeCustomer r : always orderly (anonymizeCustomer r).
Proof. unfold anonymizeCustomer. repeat (auto with orderly || ord_step). Qed.

Lemma orderly_find c flt lim skp : always orderly (find c flt lim skp).
Proof. unfold find. repeat (auto with orderly || ord_step). Qed.

Lemma orderly_findOne c flt srt : always orderly (findOne c flt srt).
Proof. unfold findOne. repeat (auto with orderly || ord_step). Qed.

Ltac orderly_solve :=
  unfold orderly, targetIds; cbn;
  split; [reflexivity|]; split; [reflexivity|]; split;
  [ eexists; first [ symmetry; apply app_nil_r | rewrite map_app; reflexivity ]
  | eexists; split;
    [ first [ symmetry; apply app_nil_r | reflexivity ]
    | repeat constructor ] ].

Lemma orderly_insertOne doc : always orderly (insertOne Target doc).
Proof.
  intros [[src tgt ps lk ck out] h p u tm tr rj].
  unfold insertOne, storeCall, bind, gets, modify, throw. cbn.
  destruct out as [|[|] rest]; cbn;
    try (destruct (existsb (byId (_id doc)) tgt); cbn); orderly_solve.
Qed.

Lemma insertOrdered_appends docs coll :
  exists pre, fst (insertOrdered docs coll) = coll ++ pre.
Proof.
  revert coll. induction docs as [|d docs IH]; intros coll; cbn [insertOrdered].
  - exists []. cbn. now rewrite app_nil_r.
  - destruct (hasId (_id d) coll).
    + exists []. cbn. now rewrite app_nil_r.
    + destruct (IH (coll ++ [d])) as (pre & E). exists (d :: pre).
      rewrite E, <- app_assoc. reflexivity.
Qed.

Lemma orderly_insertMany docs : always orderly (insertMany Target docs).
Proof.
  intros s. rewrite insertMany_run.
  destruct docs as [|d docs]; [apply orderly_refl|].
  destruct (insertOrdered_appends (d :: docs) (target (world s))) as (pre & E).
  destruct s as [[src tgt ps lk ck out] h p u tm tr rj].
  cbn [world target] in E.
  destruct (callOk _); cbv zeta;
    [destruct (snd (insertOrdered (d :: docs) _))|]; cbn [snd];
    state_simpl; try rewrite E; orderly_solve.
Qed.

Lemma replaceFirst_ids id doc l :
  _id doc = id -> map _id (replaceFirst id doc l) = map _id l.
Proof.
  intros Hid. induction l as [|x l IH]; cbn [replaceFirst map]; [reflexivity|].
  destruct (byId id x) eqn:E; cbn [map].
  - unfold byId in E. apply N.eqb_eq in E. now rewrite Hid, E.
  - now rewrite IH.
Qed.

Lemma orderly_updateOne id doc :
  _id doc = id -> always orderly (updateOne Target id doc).
Proof.
  intros Hid [[src tgt ps lk ck out] h p u tm tr rj].
  unfold updateOne, storeCall, bind, gets, modify. cbn.
  destruct out as [|[|] rest]; cbn; unfold orderly, targetIds; cbn;
    rewrite ?(replaceFirst_ids id doc tgt Hid);
    (split; [reflexivity|]; split; [reflexivity|]; split;
     [ exists []; now rewrite app_nil_r
     | eexists; split; [reflexivity|repeat constructor] ]).
Qed.

Lemma orderly_write t : always orderly (writeFileSync_POINTER_STORE (toISO t)).
Proof.
  intros [[src tgt ps lk ck out] h p u tm tr rj].
  unfold writeFileSync_POINTER_STORE, modify. unfold orderly, targetIds. cbn.
  split; [reflexivity|]. split; [reflexivity|]. split.
  - exists []. now rewrite app_nil_r.
  - eexists. split; [reflexivity|]. constructor; [|constructor]. cbn. eauto.
Qed.

(** What [toISOString] returns is what is written. *)
Lemma orderly_toISOString_write d :
  always orderly (rawPointer <- toISOString d ;; writeFileSync_POINTER_STORE rawPointer).
Proof.
  destruct d as [|t]; cbn [toISOString].
  - intros s. apply orderly_refl.
  - intros s. apply (orderly_write t s).
Qed.

Hint Resolve orderly_anonymizeCustomer orderly_find orderly_findOne orderly_insertOne
  orderly_insertMany orderly_toISOString_write : orderly.

(** A document of the store, made an object and anonymized, then read:
    the object holds the anonymized record. *)
Lemma fresh_anonymize_deref {B} doc (k : Customer -> JS B) s :
  (sourceCustomer <- fresh doc ;;
   newTargetCustomer <- anonymizeCustomer sourceCustomer ;;
   nt <- deref newTargetCustomer ;;
   k nt) s
  = k (anonymized doc) (with_heap (fun h => h ++ [anonymized doc]) s).
Proof.
  unfold fresh at 1. unfold bind at 1.
  rewrite (bind_ok _ _ _ _ _
             (anonymizeCustomer_run (with_heap (fun h => h ++ [doc]) s)
                (List.length (heap s)) doc (nth_error_app_end (heap s) doc))).
  set (s1 := with_heap _ (with_heap _ s)).
  assert (E : s1 = with_heap (fun h => h ++ [anonymized doc]) s).
  { subst s1. destruct s as [w h p u tm tr rj]. state_simpl.
    now rewrite list_set_app_end. }
  rewrite E.
  assert (D : nth_error (heap (with_heap (fun h => h ++ [anonymized doc]) s))
                        (List.length (heap s)) = Some (anonymized doc)).
  { destruct s as [w h p u tm tr rj]. cbn. apply nth_error_app_end. }
  rewrite (bind_ok _ _ _ _ _ (deref_run _ _ _ D)). reflexivity.
Qed.

Lemma orderly_fresh_anonymize_deref {B} doc (k : Customer -> JS B) :
  always orderly (k (anonymized doc)) ->
  always orderly (sourceCustomer <- fresh doc ;;
                  newTargetCustomer <- anonymizeCustomer sourceCustomer ;;
                  nt <- deref newTargetCustomer ;;
                  k nt).
Proof.
  intros Hk s. rewrite fresh_anonymize_deref.
  eapply orderly_trans; [|apply Hk]. apply (orderly_with_heap _ s).
Qed.

Lemma findOne_yields c flt srt :
  yields (findOne c flt srt)
         (fun found => forall doc, found = Some doc -> flt doc = true).
Proof.
  intros s found E. rewrite findOne_run in E.
  destruct (callOk s); cbn [fst] in E; [|discriminate].
  injection E as <-. intros doc Hd.
  assert (Hin : In doc (List.filter flt (get_coll c (world s)))).
  { destruct srt.
    - apply In_sortByCreatedAt.
      destruct (sortByCreatedAt _) as [|x l]; [discriminate|].
      injection Hd as ->. now left.
    - destruct (List.filter _ _) as [|x l]; [discriminate|].
      injection Hd as ->. now left. }
  apply filter_In in Hin. apply Hin.
Qed.

Lemma anonymized_id c : _id (anonymized c) = _id c.
Proof. reflexivity. Qed.

Lemma orderly_reindexUpdate docs last : always orderly (reindexUpdate docs last).
Proof.
  revert last. induction docs as [|d docs IH]; intros last; cbn [reindexUpdate].
  - apply (always_ret _ orderly_refl).
  - apply (always_bind_yields _ orderly_trans _ _ _ (orderly_findOne _ _ _)
                              (findOne_yields _ _ _)).
    intros [doc|] Hf; [|apply IH].
    specialize (Hf doc eq_refl). unfold byId in Hf. apply N.eqb_eq in Hf.
    apply orderly_fresh_anonymize_deref.
    apply (always_bind _ orderly_trans); [|intros _; apply IH].
    destruct (isEqual _ _); [apply (always_ret _ orderly_refl)|].
    apply orderly_updateOne. rewrite anonymized_id. exact Hf.
Qed.

Lemma orderly_reindexInsert docs last : always orderly (reindexInsert docs last).
Proof.
  revert last. induction docs as [|d docs IH]; intros last; cbn [reindexInsert].
  - apply (always_ret _ orderly_refl).
  - apply orderly_fresh_anonymize_deref.
    apply (always_bind _ orderly_trans); [auto with orderly|intros _; apply IH].
Qed.

Lemma orderly_fullReindex : always orderly fullReindex.
Proof.
  unfold fullReindex.
  repeat (auto using orderly_reindexUpdate, orderly_reindexInsert with orderly
          || ord_step).
  (* the second loop's result is rendered and written *)
  all: try (apply (always_bind _ orderly_trans); [apply orderly_reindexInsert|intros ?];
            apply orderly_toISOString_write).
Qed.

Lemma orderly_Pursuer_loadPointer : always orderly Pursuer_loadPointer.
Proof.
  unfold Pursuer_loadPointer, existsSync_POINTER_STORE, readFileSync_POINTER_STORE,
    Date_now.
  repeat (auto with orderly || ord_step).
Qed.

Lemma orderly_Pursuer_storePointer : always orderly Pursuer_storePointer.
Proof.
  unfold Pursuer_storePointer. repeat (auto with orderly || ord_step).
Qed.

Lemma orderly_Pursuer_loop : always orderly Pursuer_loop.
Proof.
  unfold Pursuer_loop, buffer_length.
  repeat (auto using orderly_Pursuer_loadPointer, orderly_Pursuer_storePointer
            with orderly
          || ord_step).
Qed.

Lemma orderly_Pursuer_tick : always orderly Pursuer_tick.
Proof.
  unfold Pursuer_tick, lockfile_checkSync.
  repeat (auto using orderly_Pursuer_loop with orderly || ord_step).
Qed.

Lemma orderly_Updater_run : always orderly Updater_run.
Proof.
  unfold Updater_run, lockfile_checkSync, setTimeout, Updater_buildStream, cursor_close.
  repeat (auto with orderly || ord_step).
Qed.

Lemma orderly_Updater_onData doc : always orderly (Updater_onData doc).
Proof.
  unfold Updater_onData.
  apply (always_bind_yields _ orderly_trans _ _ _ (orderly_findOne _ _ _)
                            (findOne_yields _ _ _)).
  intros [found|] Hf; [|apply (always_ret _ orderly_refl)].
  specialize (Hf found eq_refl). unfold byId in Hf. apply N.eqb_eq in Hf.
  apply orderly_fresh_anonymize_deref.
  destruct (isEqual _ _); [apply (always_ret _ orderly_refl)|].
  apply orderly_updateOne. rewrite anonymized_id. exact Hf.
Qed.

Lemma orderly_Updater_onStreamData doc : always orderly (Updater_onStreamData doc).
Proof.
  unfold Updater_onStreamData, lockfile_checkSync, cursor_close.
  repeat (auto using orderly_Updater_run, orderly_Updater_onData with orderly
          || ord_step).
Qed.

Lemma orderly_fire t : always orderly (fire t).
Proof.
  unfold fire. apply (always_detached _ orderly_rejections).
  destruct t; unfold Updater_onStreamEnd;
    auto using orderly_Pursuer_tick, orderly_Updater_run, orderly_Updater_onStreamData.
Qed.

Lemma orderly_run cfg : always orderly (run cfg).
Proof.
  unfold run, lockfile_lockSync, lockfile_unlockSync, lockfile_checkSync, Pursuer_run,
    setInterval.
  repeat (auto using orderly_fullReindex, orderly_Updater_run with orderly || ord_step).
Qed.

End OrderlyStore.

Section OrderlyRuns.

Context {platform : Platform}.

Lemma runOf_related (R : Proc -> Proc -> Prop) (ok : Event -> Prop) :
  (forall s, R s s) -> (forall s1 s2 s3, R s1 s2 -> R s2 s3 -> R s1 s3) ->
  (forall e s, ok e -> R s (step e s)) ->
  forall es s, Forall ok es -> R s (runOf es s).
Proof.
  intros Hrefl Htrans Hstep es. induction es as [|e es IH]; intros s Hes.
  - apply Hrefl.
  - inversion Hes as [|? ? He Hes']; subst. cbn [runOf fold_left].
    eapply Htrans; [apply (Hstep e s He)|]. apply IH. exact Hes'.
Qed.

Lemma step_source e s :
  leavesSource e -> source (world (step e s)) = source (world s).
Proof.
  intros He. destruct e; cbn [step leavesSource] in *; try contradiction.
  - apply (orderly_fire t s).
  - destruct s as [[? ? ? ? ? ?] ? ? ? ? ? ?]. reflexivity.
  - destruct s as [[? ? ? ? ? ?] ? ? ? ? ? ?]. reflexivity.
  - destruct s as [[? ? ? ? ? ?] ? ? ? ? ? ?]. reflexivity.
  - destruct s as [[? ? ? ? ? ?] ? ? ? ? ? ?]. reflexivity.
  - destruct s as [w h p u tm tr rj]. cbn.
    apply (orderly_fullReindex (idle w)).
Qed.

Lemma step_targetIds e s :
  leavesTarget e -> exists more, targetIds (step e s) = targetIds s ++ more.
Proof.
  intros He. destruct e; cbn [step leavesTarget] in *; try contradiction.
  - apply (orderly_fire t s).
  - destruct s as [[? ? ? ? ? ?] ? ? ? ? ? ?].
    exists []. cbn. now rewrite app_nil_r.
  - destruct s as [[? ? ? ? ? ?] ? ? ? ? ? ?].
    exists []. cbn. now rewrite app_nil_r.
  - destruct s as [[? ? ? ? ? ?] ? ? ? ? ? ?].
    exists []. cbn. now rewrite app_nil_r.
  - destruct s as [[? ? ? ? ? ?] ? ? ? ? ? ?].
    exists []. cbn. now rewrite app_nil_r.
  - destruct s as [w h p u tm tr rj].
    apply (orderly_fullReindex (idle w)).
Qed.

Lemma step_trace e s :
  exists ops, trace (step e s) = trace s ++ ops /\ Forall rendered ops.
Proof.
  destruct e; cbn [step].
  1: apply (orderly_fire t s).
  all: destruct s as [[? ? ? ? ? ?] ? ? ? ? ? ?];
    exists []; cbn; rewrite app_nil_r; split; [reflexivity|constructor].
Qed.

Lemma rendered_pointerWrites ops :
  Forall rendered ops ->
  exists ts, flat_map (fun o => match o with
                                | OpWritePointer raw => [raw]
                                | _ => []
                                end) ops = map toISO ts.
Proof.
  induction 1 as [|o ops Ho _ (ts & IH)].
  - exists []. reflexivity.
  - destruct o; cbn [flat_map app]; try (exists ts; exact IH).
    destruct Ho as (t & ->). exists (t :: ts). cbn [map]. now rewrite IH.
Qed.


(** X3.  The program never removes a record from the target and never
    changes a record's identity id: after start-up in either mode and
    any sequence of callbacks (and of full reindexes by other
    processes), the target's ids are those it had, in the same order,
    followed by the ids inserted since.  Records whose source is gone
    stay in the target. *)
Theorem target_records_are_never_removed :
  forall cfg es s,
    Forall leavesTarget es ->
    exists more,
      map _id (target (world (runOf es (snd (run cfg s)))))
      = map _id (target (world s)) ++ more.
Proof.
  intros cfg es s Hes.
  destruct (orderly_run cfg s) as (_ & _ & (m1 & E1) & _).
  assert (H : exists more,
             targetIds (runOf es (snd (run cfg s))) = targetIds (snd (run cfg s)) ++ more).
  { apply (runOf_related (fun a b => exists more, targetIds b = targetIds a ++ more)
                         leavesTarget).
    - intros a. exists []. now rewrite app_nil_r.
    - intros a b c (x & Ex) (y & Ey). exists (x ++ y). rewrite Ey, Ex.
      now rewrite app_assoc.
    - intros. now apply step_targetIds.
    - exact Hes. }
  destruct H as (m2 & E2). exists (m1 ++ m2).
  unfold targetIds in *. rewrite E2, E1. now rewrite app_assoc.
Qed.

(** X4.  Whatever the process writes to the checkpoint file is the
    rendering [toISOString] gives of a time value: an invalid date
    makes [toISOString] throw before the file is touched.  This holds
    from start-up through any run, whatever else happens to the world
    meanwhile. *)
Theorem checkpoint_writes_are_rendered_dates :
  forall cfg es s,
    exists ts,
      pointerWrites (runOf es (snd (run cfg s))) = pointerWrites s ++ map toISO ts.
Proof.
  intros cfg es s.
  assert (H : exists ops, trace (runOf es (snd (run cfg s))) = trace s ++ ops
                          /\ Forall rendered ops).
  { destruct (orderly_run cfg s) as (_ & _ & _ & (o1 & E1 & F1)).
    assert (H2 : exists ops, trace (runOf es (snd (run cfg s)))
                             = trace (snd (run cfg s)) ++ ops /\ Forall rendered ops).
    { apply (runOf_related
               (fun a b => exists ops, trace b = trace a ++ ops /\ Forall rendered ops)
               (fun _ => True)).
      - intros a. exists []. rewrite app_nil_r. split; [reflexivity|constructor].
      - intros a b c (x & Ex & Fx) (y & Ey & Fy). exists (x ++ y).
        rewrite Ey, Ex. split; [now rewrite app_assoc|]. apply Forall_app. now split.
      - intros. apply step_trace.
      - apply Forall_forall. intros; exact I. }
    destruct H2 as (o2 & E2 & F2). exists (o1 ++ o2). rewrite E2, E1.
    split; [now rewrite app_assoc|]. apply Forall_app. now split. }
  destruct H as (ops & E & F).
  destruct (rendered_pointerWrites ops F) as (ts & Ets).
  exists ts. unfold pointerWrites. rewrite E, flat_map_app, Ets. reflexivity.
Qed.

End OrderlyRuns.

(* ------------------------------------------------------------------ *)
(** * [fullReindex], case by case                                        *)
(* ------------------------------------------------------------------ *)

Lemma afterOps_refl s : afterOps s s (target (world s)) [].
Proof.
  unfold afterOps. rewrite app_nil_r. repeat split; auto.
Qed.

Lemma afterOps_trans s1 s2 s3 tgt2 tgt3 ops1 ops2 :
  afterOps s1 s2 tgt2 ops1 -> afterOps s2 s3 tgt3 ops2 ->
  afterOps s1 s3 tgt3 (ops1 ++ ops2).
Proof.
  intros (S1 & T1 & P1 & L1 & Tr1 & U1) (S2 & T2 & P2 & L2 & Tr2 & U2).
  unfold afterOps.
  split; [congruence|]. split; [exact T2|]. split; [congruence|].
  split; [congruence|]. split; [rewrite Tr2, Tr1; now rewrite app_assoc|auto].
Qed.

Lemma afterOps_call o s :
  isStoreOp o = true -> afterOps s (afterCall o s) (target (world s)) [o].
Proof.
  intros Ho. unfold afterOps.
  destruct s as [[src tgt ps lk ck out] h p u tm tr rj]. state_simpl.
  repeat match goal with |- _ /\ _ => split end; try reflexivity.
  intros H. exact (storeUp_afterCall o _ H).
Qed.

Lemma afterOps_heap f s : afterOps s (with_heap f s) (target (world s)) [].
Proof.
  unfold afterOps. destruct s as [[src tgt ps lk ck out] h p u tm tr rj]. state_simpl.
  rewrite app_nil_r. repeat match goal with |- _ /\ _ => split end; auto.
Qed.

Lemma insertOne_run doc s :
  insertOne Target doc s
  = if callOk s then
      if hasId (_id doc) (target (world s))
      then (Throw (DuplicateKey (_id doc)), afterCall (OpInsertOne Target) s)
      else (Ok tt, with_world (fun w => set_coll Target (target w ++ [doc]) w)
                     (afterCall (OpInsertOne Target) s))
    else (Throw StoreError, afterCall (OpInsertOne Target) s).
Proof.
  unfold insertOne. unfold bind at 1. rewrite storeCall_run.
  destruct (callOk s); [|reflexivity].
  unfold bind, gets, modify, throw.
  destruct s as [[src tgt ps lk ck out] h p u tm tr rj]. state_simpl.
  destruct (hasId (_id doc) tgt); reflexivity.
Qed.

Lemma updateOne_run id doc s :
  updateOne Target id doc s
  = if callOk s then
      (Ok tt, with_world (fun w => set_coll Target (replaceFirst id doc (target w)) w)
                (afterCall (OpUpdateOne Target) s))
    else (Throw StoreError, afterCall (OpUpdateOne Target) s).
Proof.
  unfold updateOne. unfold bind at 1. rewrite storeCall_run.
  destruct (callOk s); [|reflexivity].
  unfold bind, gets, modify.
  destruct s as [[src tgt ps lk ck out] h p u tm tr rj]. reflexivity.
Qed.

Lemma storeUp_callOk s : storeUp s -> callOk s = true.
Proof.
  unfold storeUp, callOk. destruct (outages (world s)) as [|[|] rest]; auto.
  intros H. discriminate (H true (or_introl eq_refl)).
Qed.

Lemma isEqual_refl c : isEqual c c = true.
Proof.
  unfold isEqual, Address_eqb. rewrite N.eqb_refl, !String.eqb_refl.
  destruct (createdAt c) as [|t]; cbn; [reflexivity|apply Z.eqb_refl].
Qed.

Lemma isEqual_eq a b : isEqual a b = true -> a = b.
Proof.
  unfold isEqual, Address_eqb. intros H.
  repeat match goal with
         | E : _ && _ = true |- _ => apply andb_true_iff in E; destruct E
         end.
  repeat match goal with
         | E : String.eqb _ _ = true |- _ => apply String.eqb_eq in E
         | E : N.eqb _ _ = true |- _ => apply N.eqb_eq in E
         end.
  assert (Hd : createdAt a = createdAt b).
  { destruct (createdAt a), (createdAt b); cbn in *; try discriminate; auto.
    f_equal. now apply Z.eqb_eq. }
  destruct a as [i f l e [a1 a2 a3 a4 a5 a6] d], b as [i' f' l' e' [b1 b2 b3 b4 b5 b6] d'].
  cbn in *. congruence.
Qed.

Lemma filter_byId_absent (l : list Customer) id :
  ~ In id (map _id l) -> List.filter (byId id) l = [].
Proof.
  induction l as [|y l IH]; intros Hx; [reflexivity|].
  cbn [List.filter]. unfold byId at 1.
  destruct (N.eqb (_id y) id) eqn:E.
  - apply N.eqb_eq in E. exfalso. apply Hx. cbn [map]. now left.
  - apply IH. intros H. apply Hx. cbn [map]. now right.
Qed.

Lemma filter_byId_unique (l : list Customer) d :
  NoDup (map _id l) -> In d l -> List.filter (byId (_id d)) l = [d].
Proof.
  induction l as [|x l IH]; intros Hnd Hin; [contradiction|].
  cbn [map] in Hnd. inversion Hnd as [|? ? Hx Hnd']; subst.
  cbn [List.filter]. destruct Hin as [->|Hin].
  - unfold byId at 1. rewrite N.eqb_refl. f_equal.
    now apply filter_byId_absent.
  - unfold byId at 1. destruct (N.eqb (_id x) (_id d)) eqn:E.
    + apply N.eqb_eq in E. exfalso. apply Hx. rewrite E. now apply in_map.
    + now apply IH.
Qed.

(** ** Sorting by creation timestamp *)

Lemma insertSorted_first c l :
  (forall y, In y l -> olderOrEqual c y) -> insertSorted c l = c :: l.
Proof.
  destruct l as [|x rest]; intros H; cbn [insertSorted]; [reflexivity|].
  rewrite (H x (or_introl eq_refl)). reflexivity.
Qed.

Lemma sortByCreatedAt_sorted_list l :
  StronglySorted olderOrEqual l -> sortByCreatedAt l = l.
Proof.
  induction 1 as [|a l Hs IH Ha]; [reflexivity|].
  unfold sortByCreatedAt in *. cbn [fold_right]. rewrite IH.
  apply insertSorted_first. rewrite Forall_forall in Ha. exact Ha.
Qed.

Lemma filter_insertSorted f c l :
  StronglySorted olderOrEqual l ->
  List.filter f (insertSorted c l)
  = if f c then insertSorted c (List.filter f l) else List.filter f l.
Proof.
  induction 1 as [|x rest Hs IH Hx]; cbn [insertSorted List.filter].
  - destruct (f c); reflexivity.
  - rewrite Forall_forall in Hx.
    destruct (Date_leb (createdAt c) (createdAt x)) eqn:E; cbn [List.filter].
    + destruct (f c); [|reflexivity].
      symmetry. apply insertSorted_first.
      intros y Hy.
      assert (Hy' : In y (x :: rest)).
      { destruct (f x); [destruct Hy as [->|Hy]; [now left|right]|right];
          apply filter_In in Hy; apply Hy. }
      destruct Hy' as [->|Hy']; [exact E|].
      eapply Date_leb_trans; [exact E|apply Hx; exact Hy'].
    + rewrite IH. destruct (f x), (f c); cbn [insertSorted]; rewrite ?E; reflexivity.
Qed.

Lemma filter_sortByCreatedAt f l :
  sortByCreatedAt (List.filter f l) = List.filter f (sortByCreatedAt l).
Proof.
  induction l as [|a l IH]; [reflexivity|].
  change (sortByCreatedAt (a :: l)) with (insertSorted a (sortByCreatedAt l)).
  rewrite filter_insertSorted by apply sortByCreatedAt_sorted.
  cbn [List.filter]. destruct (f a); [|exact IH].
  change (sortByCreatedAt (a :: List.filter f l))
    with (insertSorted a (sortByCreatedAt (List.filter f l))).
  now rewrite IH.
Qed.

Lemma insertSorted_perm c l : Permutation (insertSorted c l) (c :: l).
Proof.
  induction l as [|x rest IH]; cbn [insertSorted]; [reflexivity|].
  destruct (Date_leb (createdAt c) (createdAt x)); [reflexivity|].
  rewrite IH. apply perm_swap.
Qed.

Lemma sortByCreatedAt_perm l : Permutation (sortByCreatedAt l) l.
Proof.
  induction l as [|a l IH]; [reflexivity|].
  change (sortByCreatedAt (a :: l)) with (insertSorted a (sortByCreatedAt l)).
  rewrite insertSorted_perm. now constructor.
Qed.

Lemma sorted_map_anonymized l :
  StronglySorted olderOrEqual l -> StronglySorted olderOrEqual (map anonymized l).
Proof.
  induction 1 as [|a l Hs IH Ha]; cbn [map]; constructor; [exact IH|].
  rewrite Forall_forall in *. intros y Hy. apply in_map_iff in Hy.
  destruct Hy as (d & <- & Hd). exact (Ha d Hd).
Qed.

Lemma sorted_app_l {A} (R : A -> A -> Prop) (l1 l2 : list A) :
  StronglySorted R (l1 ++ l2) -> StronglySorted R l1.
Proof.
  induction l1 as [|a l1 IH]; cbn [app]; intros H; [constructor|].
  inversion H as [|? ? Hs Ha]; subst. constructor; [now apply IH|].
  rewrite Forall_forall in *. intros y Hy. apply Ha. apply in_or_app. now left.
Qed.

Lemma sorted_app_between {A} (R : A -> A -> Prop) (l1 l2 : list A) a b :
  StronglySorted R (l1 ++ l2) -> In a l1 -> In b l2 -> R a b.
Proof.
  induction l1 as [|x l1 IH]; cbn [app]; intros H Ha Hb; [contradiction|].
  inversion H as [|? ? Hs Hx]; subst. destruct Ha as [->|Ha].
  - rewrite Forall_forall in Hx. apply Hx. apply in_or_app. now right.
  - now apply IH.
Qed.

Lemma last_cons_default {A} (x : A) l d : last (x :: l) d = last l x.
Proof.
  revert x d. induction l as [|y l IH]; intros x d; [reflexivity|].
  change (last (x :: y :: l) d) with (last (y :: l) d). now rewrite !IH.
Qed.

Lemma storeUp_with_heap f s : storeUp s -> storeUp (with_heap f s).
Proof. destruct s as [[src tgt ps lk ck out] h p u tm tr rj]. exact (fun H => H). Qed.

Lemma freshIds_step coll d rest :
  freshIds coll (d :: rest) ->
  hasId (_id d) coll = false /\ freshIds (coll ++ [anonymized d]) rest.
Proof.
  intros [Hnd Hfr]. split; [apply Hfr; now left|].
  cbn [map] in Hnd. inversion Hnd as [|? ? Hnotin Hnd']; subst.
  split; [exact Hnd'|]. intros d' Hd'.
  rewrite hasId_app, (Hfr d' (or_intror Hd')). cbn. unfold byId.
  rewrite orb_false_r. apply N.eqb_neq. intros E. apply Hnotin.
  change (_id (anonymized d)) with (_id d) in E.
  rewrite E. now apply in_map.
Qed.

Section ReindexCases.

Context {platform : Platform}.

(** The first loop over a target that is in step with the source reads
    each record's source and updates nothing. *)
Lemma reindexUpdate_in_step ds lastCreatedAt s :
  storeUp s -> NoDup (map _id (source (world s))) ->
  (forall d, In d ds -> In d (source (world s))) ->
  exists s',
    reindexUpdate (map anonymized ds) lastCreatedAt s
    = (Ok (last (map (fun d => Some (createdAt d)) ds) lastCreatedAt), s')
    /\ afterOps s s' (target (world s)) (repeat (OpFindOne Source) (List.length ds)).
Proof.
  revert lastCreatedAt s.
  induction ds as [|d ds IH]; intros lastCreatedAt s Hup Hnd Hin.
  - exists s. split; [reflexivity|apply afterOps_refl].
  - cbn [map reindexUpdate]. unfold bind at 1.
    rewrite (findOne_up _ _ _ _ Hup). cbn [get_coll].
    rewrite anonymized_id.
    rewrite (filter_byId_unique _ d Hnd (Hin d (or_introl eq_refl))). cbn [hd_error].
    rewrite fresh_anonymize_deref. rewrite isEqual_refl.
    unfold bind at 1, ret at 1.
    set (s1 := with_heap _ (afterCall (OpFindOne Source) s)).
    assert (A1 : afterOps s s1 (target (world s)) [OpFindOne Source]).
    { pose proof (afterOps_trans _ _ _ _ _ _ _
                    (afterOps_call (OpFindOne Source) s eq_refl)
                    (afterOps_heap (fun h => h ++ [anonymized d])
                                   (afterCall (OpFindOne Source) s))) as A.
      replace (target (world (afterCall (OpFindOne Source) s))) with (target (world s)) in A
        by (destruct s as [[? ? ? ? ? ?] ? ? ? ? ? ?]; reflexivity).
      exact A. }
    destruct A1 as (S1 & T1 & P1 & L1 & Tr1 & U1).
    destruct (IH (Some (createdAt (anonymized d))) s1 (U1 Hup)) as (s' & E & A2).
    + now rewrite S1.
    + intros x Hx. rewrite S1. apply Hin. now right.
    + exists s'. split.
      * rewrite E. f_equal. f_equal. cbn [map]. rewrite last_cons_default.
        reflexivity.
      * pose proof (afterOps_trans s s1 s' _ _ _ _
                      (conj S1 (conj T1 (conj P1 (conj L1 (conj Tr1 U1))))) A2) as A.
        rewrite T1 in A. exact A.
Qed.

(** The second loop inserts each record it is given, anonymized, when
    none of them is in the target yet. *)
Lemma reindexInsert_up todo lastCreatedAt s :
  storeUp s -> freshIds (target (world s)) todo ->
  exists s',
    reindexInsert todo lastCreatedAt s
    = (Ok (last (map createdAt todo) lastCreatedAt), s')
    /\ afterOps s s' (target (world s) ++ map anonymized todo)
                (repeat (OpInsertOne Target) (List.length todo)).
Proof.
  revert lastCreatedAt s.
  induction todo as [|d todo IH]; intros lastCreatedAt s Hup Hfr.
  - exists s. split; [reflexivity|]. cbn [map]. rewrite app_nil_r. apply afterOps_refl.
  - cbn [reindexInsert]. rewrite fresh_anonymize_deref.
    destruct (freshIds_step _ _ _ Hfr) as [Hd Hfr'].
    unfold bind at 1. rewrite insertOne_run.
    set (s0 := with_heap (fun h => h ++ [anonymized d]) s).
    assert (Hup0 : storeUp s0) by (apply storeUp_with_heap; exact Hup).
    assert (T0 : target (world s0) = target (world s))
      by (destruct s as [[? ? ? ? ? ?] ? ? ? ? ? ?]; reflexivity).
    rewrite (storeUp_callOk _ Hup0), anonymized_id, T0, Hd.
    set (s1 := with_world _ (afterCall (OpInsertOne Target) s0)).
    assert (A1 : afterOps s s1 (target (world s) ++ [anonymized d]) [OpInsertOne Target]).
    { subst s1 s0. unfold afterOps.
      destruct s as [[src tgt ps lk ck out] h p u tm tr rj]. state_simpl.
      repeat match goal with |- _ /\ _ => split end; try reflexivity.
      intros H. exact (storeUp_afterCall (OpInsertOne Target)
                         (mkProc (mkWorld src tgt ps lk ck out) h p u tm tr rj) H). }
    destruct A1 as (S1 & T1 & P1 & L1 & Tr1 & U1).
    destruct (IH (createdAt (anonymized d)) s1 (U1 Hup)) as (s' & E & A2).
    + rewrite T1. exact Hfr'.
    + exists s'. split.
      * rewrite E. f_equal. f_equal. cbn [map]. rewrite last_cons_default. reflexivity.
      * pose proof (afterOps_trans s s1 s' _ _ _ _
                      (conj S1 (conj T1 (conj P1 (conj L1 (conj Tr1 U1))))) A2) as A.
        rewrite T1 in A. cbn [map]. rewrite <- app_assoc in A. exact A.
Qed.

Lemma forallb_repeat {A} (f : A -> bool) x n : f x = true -> forallb f (repeat x n) = true.
Proof. intros H. induction n as [|n IH]; cbn; [reflexivity|now rewrite H, IH]. Qed.

(** With nothing in the source, the first loop finds no record's
    source: it reads and goes on. *)
Lemma reindexUpdate_no_source docs lastCreatedAt s :
  source (world s) = [] ->
  exists n,
    afterOps s (snd (reindexUpdate docs lastCreatedAt s)) (target (world s))
             (repeat (OpFindOne Source) n)
    /\ (fst (reindexUpdate docs lastCreatedAt s) = Ok lastCreatedAt
        \/ fst (reindexUpdate docs lastCreatedAt s) = Throw StoreError)
    /\ (storeUp s ->
        fst (reindexUpdate docs lastCreatedAt s) = Ok lastCreatedAt
        /\ n = List.length docs).
Proof.
  revert s. induction docs as [|d docs IH]; intros s Hsrc.
  - exists 0%nat. cbn [reindexUpdate ret snd fst repeat].
    split; [apply afterOps_refl|]. split; [now left|]. intros _. now split.
  - assert (E : reindexUpdate (d :: docs) lastCreatedAt s
                = if callOk s
                  then reindexUpdate docs lastCreatedAt (afterCall (OpFindOne Source) s)
                  else (Throw StoreError, afterCall (OpFindOne Source) s)).
    { cbn [reindexUpdate]. unfold bind at 1. rewrite findOne_run.
      destruct (callOk s); [|reflexivity]. cbn [get_coll]. rewrite Hsrc. reflexivity. }
    rewrite E. clear E.
    destruct (callOk s) eqn:C.
    + pose proof (afterOps_call (OpFindOne Source) s eq_refl) as A1.
      destruct (IH (afterCall (OpFindOne Source) s)) as (n & A2 & R & U).
      { destruct A1 as (S1 & _). now rewrite S1. }
      exists (S n). split.
      * pose proof (afterOps_trans _ _ _ _ _ _ _ A1 A2) as A.
        replace (target (world (afterCall (OpFindOne Source) s)))
          with (target (world s)) in A
          by (destruct s as [[? ? ? ? ? ?] ? ? ? ? ? ?]; reflexivity).
        exact A.
      * split; [exact R|]. intros Hup.
        destruct (U (storeUp_afterCall _ _ Hup)) as [E ->]. now split.
    + exists 1%nat. cbn [snd fst].
      split; [apply (afterOps_call (OpFindOne Source) s eq_refl)|].
      split; [now right|]. intros Hup. rewrite (storeUp_callOk _ Hup) in C. discriminate.
Qed.

(** X5.  With an empty source, [fullReindex] only reads: it looks up
    the source of every target record, finds none, asks for the
    source's oldest record, finds none, and returns.  The target is
    left as it was (records whose source is gone are not removed) and
    the checkpoint file is not written; this also holds when the store
    fails on the way.  When the store answers, the operations are one
    read of the target and one read of the source per target record
    plus one. *)
Theorem fullReindex_of_an_empty_source :
  forall s,
    source (world s) = [] ->
    exists ops,
      trace (snd (fullReindex s)) = trace s ++ ops
      /\ forallb isRead ops = true
      /\ target (world (snd (fullReindex s))) = target (world s)
      /\ pointerStore (world (snd (fullReindex s))) = pointerStore (world s)
      /\ (storeUp s ->
          fst (fullReindex s) = Ok tt
          /\ ops = OpFind Target
                   :: repeat (OpFindOne Source) (S (List.length (target (world s))))).
Proof.
  intros s Hsrc. remember (fullReindex s) as res eqn:E.
  unfold fullReindex in E. unfold bind at 1 in E. rewrite find_run in E.
  destruct (callOk s) eqn:C.
  - cbv zeta in E. cbn [get_coll] in E. rewrite filter_all in E.
    set (docs := sortByCreatedAt (target (world s))) in E.
    pose proof (afterOps_call (OpFind Target) s eq_refl) as A1.
    set (s1 := afterCall (OpFind Target) s) in *.
    assert (Hsrc1 : source (world s1) = []).
    { destruct A1 as (S1 & _). now rewrite S1. }
    destruct (reindexUpdate_no_source docs None s1 Hsrc1) as (n & A2 & R & U).
    replace (target (world s1)) with (target (world s)) in A2
      by (destruct A1 as (_ & T1 & _); now rewrite T1).
    pose proof (afterOps_trans _ _ _ _ _ _ _ A1 A2) as A12.
    unfold bind at 1 in E.
    destruct (reindexUpdate docs None s1) as [r s2] eqn:E2. cbn [fst snd] in *.
    destruct R as [-> | ->].
    + unfold bind at 1 in E. unfold bind at 1 in E. rewrite findOne_run in E.
      assert (Hsrc2 : source (world s2) = []).
      { destruct A12 as (S2 & _). now rewrite S2. }
      pose proof (afterOps_call (OpFindOne Source) s2 eq_refl) as A3.
      replace (target (world s2)) with (target (world s)) in A3
        by (destruct A12 as (_ & T2 & _); now rewrite T2).
      pose proof (afterOps_trans _ _ _ _ _ _ _ A12 A3) as A.
      destruct A as (SA & TA & PA & LA & TrA & UA).
      exists (([OpFind Target] ++ repeat (OpFindOne Source) n) ++ [OpFindOne Source]).
      destruct (callOk s2) eqn:C2.
      * cbn [get_coll] in E. rewrite Hsrc2 in E.
        cbn [List.filter sortByCreatedAt fold_right hd_error ret] in E.
        subst res. cbn [fst snd].
        split; [exact TrA|]. split.
        { rewrite !forallb_app, forallb_repeat by reflexivity. reflexivity. }
        split; [exact TA|]. split; [exact PA|]. intros Hup. split; [reflexivity|].
        destruct (U (storeUp_afterCall _ _ Hup)) as [_ ->].
        subst docs. rewrite (Permutation_length (sortByCreatedAt_perm _)).
        cbn [app]. f_equal. rewrite <- repeat_cons. reflexivity.
      * subst res. cbn [fst snd].
        split; [exact TrA|]. split.
        { rewrite !forallb_app, forallb_repeat by reflexivity. reflexivity. }
        split; [exact TA|]. split; [exact PA|]. intros Hup.
        destruct A12 as (_ & _ & _ & _ & _ & U2).
        rewrite (storeUp_callOk _ (U2 Hup)) in C2. discriminate.
    + subst res. cbn [fst snd].
      destruct A12 as (SA & TA & PA & LA & TrA & UA).
      exists ([OpFind Target] ++ repeat (OpFindOne Source) n).
      split; [exact TrA|]. split.
      { rewrite !forallb_app, forallb_repeat by reflexivity. reflexivity. }
      split; [exact TA|]. split; [exact PA|]. intros Hup.
      destruct (U (storeUp_afterCall _ _ Hup)) as [E' _]. discriminate.
  - subst res. cbn [fst snd].
    destruct (afterOps_call (OpFind Target) s eq_refl) as (SA & TA & PA & LA & TrA & UA).
    exists [OpFind Target].
    split; [exact TrA|]. split; [reflexivity|].
    split; [exact TA|]. split; [exact PA|]. intros Hup.
    rewrite (storeUp_callOk _ Hup) in C. discriminate.
Qed.

Lemma NoDup_app_disjoint {A} (l1 l2 : list A) x :
  NoDup (l1 ++ l2) -> In x l1 -> In x l2 -> False.
Proof.
  induction l1 as [|a l1 IH]; cbn [app]; intros H H1 H2; [contradiction|].
  inversion H as [|? ? Ha Hnd]; subst. destruct H1 as [->|H1].
  - apply Ha. apply in_or_app. now right.
  - now apply IH.
Qed.

Lemma reads_write_nothing ops :
  forallb isRead ops = true ->
  List.filter isTargetWrite ops = []
  /\ flat_map (fun o => match o with
                        | OpWritePointer raw => [raw]
                        | _ => []
                        end) ops = [].
Proof.
  induction ops as [|o ops IH]; cbn [forallb]; intros H; [now split|].
  apply andb_true_iff in H. destruct H as [Ho H]. destruct (IH H) as [I1 I2].
  destruct o as [c|c|c|c|c|raw]; try discriminate; cbn; now rewrite ?I1, ?I2.
Qed.

Lemma inserts_are_target_writes n :
  List.filter isTargetWrite (repeat (OpInsertOne Target) n) = repeat (OpInsertOne Target) n
  /\ flat_map (fun o => match o with
                        | OpWritePointer raw => [raw]
                        | _ => []
                        end) (repeat (OpInsertOne Target) n) = [].
Proof.
  induction n as [|n [I1 I2]]; cbn; [now split|]. now rewrite I1, I2.
Qed.

(** The bound from which the second loop starts, and the process once
    it is known: the creation timestamp of the target's last record,
    or a minute before the source's oldest record when the target is
    empty. *)
Lemma reindex_start done todo front newest tN s2 :
  storeUp s2 ->
  sortByCreatedAt (source (world s2)) = done ++ todo ->
  (forall c, In c (done ++ todo) -> exists t, createdAt c = ValidDate t) ->
  (forall a d ta td, In a done -> In d todo ->
     createdAt a = ValidDate ta -> createdAt d = ValidDate td -> ta < td) ->
  (done = [] -> forall c t, hd_error todo = Some c -> createdAt c = ValidDate t ->
                inRange (t - 60000)) ->
  done ++ todo = front ++ [newest] -> createdAt newest = ValidDate tN ->
  exists b s3 ops3,
    match last (map (fun d => Some (createdAt d)) done) None with
    | Some d => ret (Some d)
    | None =>
        firstCustomer <- findOne Source all true ;;
        match firstCustomer with
        | None => ret None
        | Some c => ret (Some (aMinuteEarlier (createdAt c)))
        end
    end s2 = (Ok (Some (ValidDate b)), s3)
    /\ afterOps s2 s3 (target (world s2)) ops3
    /\ forallb isRead ops3 = true
    /\ List.filter (gtCreatedAt (Some b)) (done ++ todo) = todo
    /\ last (map createdAt todo) (ValidDate b) = ValidDate tN.
Proof.
  intros Hup Hsort Hvalid Hbound Hrange Hlast HtN.
  assert (Hsorted : StronglySorted olderOrEqual (done ++ todo))
    by (rewrite <- Hsort; apply sortByCreatedAt_sorted).
  assert (Hnewest : forall b, todo <> [] -> last (map createdAt todo) b = ValidDate tN).
  { intros b Hne. destruct (exists_last_or_nil todo) as [->|(tf & x & ->)]; [congruence|].
    rewrite app_assoc in Hlast. apply app_inj_tail in Hlast. destruct Hlast as [_ ->].
    rewrite map_app. cbn [map]. rewrite last_last. exact HtN. }
  destruct (exists_last_or_nil done) as [->|(df & l & ->)].
  - (* an empty target *)
    cbn [map last app] in *.
    destruct todo as [|c0 todo'].
    { exfalso. destruct front; discriminate. }
    destruct (Hvalid c0 (or_introl eq_refl)) as (t0 & Ht0).
    exists (t0 - 60000), (afterCall (OpFindOne Source) s2), [OpFindOne Source].
    split.
    { rewrite (bind_ok _ _ _ _ _ (findOne_up Source all true s2 Hup)).
      cbn [get_coll]. rewrite filter_all, Hsort. cbn [hd_error].
      rewrite Ht0, aMinuteEarlier_valid; [reflexivity|].
      apply (Hrange eq_refl c0 t0 eq_refl Ht0). }
    split; [apply afterOps_call; reflexivity|]. split; [reflexivity|]. split.
    + assert (F : forall d, In d (c0 :: todo') -> gtCreatedAt (Some (t0 - 60000)) d = true).
      { intros d Hd. unfold gtCreatedAt. destruct (Hvalid d Hd) as (td & Htd).
        rewrite Htd. apply Z.ltb_lt.
        inversion Hsorted as [|? ? _ Hall]; subst. rewrite Forall_forall in Hall.
        destruct Hd as [<-|Hd].
        - rewrite Ht0 in Htd. injection Htd as <-. lia.
        - specialize (Hall d Hd). unfold olderOrEqual in Hall.
          rewrite Ht0, Htd in Hall. cbn in Hall. apply Z.leb_le in Hall. lia. }
      clear - F. induction (c0 :: todo') as [|x xs IH]; [reflexivity|].
      cbn [List.filter]. rewrite (F x (or_introl eq_refl)). f_equal.
      apply IH. intros d Hd. apply F. now right.
    + apply Hnewest. discriminate.
  - (* the target's last record [l] *)
    assert (Hl : In l ((df ++ [l]) ++ todo)).
    { apply in_or_app. left. apply in_or_app. right. now left. }
    destruct (Hvalid l Hl) as (tl & Htl).
    exists tl, s2, [].
    split.
    { rewrite map_app. cbn [map]. rewrite last_last, Htl. reflexivity. }
    split; [apply afterOps_refl|]. split; [reflexivity|]. split.
    + rewrite filter_app.
      assert (F1 : List.filter (gtCreatedAt (Some tl)) (df ++ [l]) = []).
      { assert (F : forall d, In d (df ++ [l]) -> gtCreatedAt (Some tl) d = false).
        { intros d Hd. unfold gtCreatedAt.
          assert (Hd' : In d ((df ++ [l]) ++ todo)) by (apply in_or_app; now left).
          destruct (Hvalid d Hd') as (td & Htd). rewrite Htd. apply Z.ltb_ge.
          apply in_app_or in Hd. destruct Hd as [Hd|[<-|[]]].
          - pose proof (sorted_app_between olderOrEqual df [l] d l
                          (sorted_app_l _ _ _ Hsorted) Hd (or_introl eq_refl)) as O.
            unfold olderOrEqual in O. rewrite Htd, Htl in O. cbn in O.
            apply Z.leb_le in O. exact O.
          - rewrite Htl in Htd. injection Htd as <-. lia. }
        clear - F. induction (df ++ [l]) as [|x xs IH]; [reflexivity|].
        cbn [List.filter]. rewrite (F x (or_introl eq_refl)).
        apply IH. intros d Hd. apply F. now right. }
      assert (F2 : List.filter (gtCreatedAt (Some tl)) todo = todo).
      { assert (F : forall d, In d todo -> gtCreatedAt (Some tl) d = true).
        { intros d Hd. unfold gtCreatedAt.
          assert (Hd' : In d ((df ++ [l]) ++ todo)) by (apply in_or_app; now right).
          destruct (Hvalid d Hd') as (td & Htd). rewrite Htd. apply Z.ltb_lt.
          apply (Hbound l d tl td); auto. apply in_or_app. right. now left. }
        clear - F. induction todo as [|x xs IH]; [reflexivity|].
        cbn [List.filter]. rewrite (F x (or_introl eq_refl)). f_equal.
        apply IH. intros d Hd. apply F. now right. }
      rewrite F1, F2. reflexivity.
    + destruct todo as [|c0 todo'].
      * cbn [map last]. rewrite app_nil_r in Hlast.
        apply app_inj_tail in Hlast. destruct Hlast as [_ ->]. congruence.
      * apply Hnewest. discriminate.
Qed.

(** X6.  [fullReindex] brings a target that holds the anonymized
    records of the older part of the source up to the whole source.
    Assume the store answers, the source's ids are distinct and its
    creation timestamps are dates, and the target is in step with the
    source up to some instant: it holds, oldest first, exactly the
    anonymized records [done] of the source sorted by creation
    timestamp, and every other record [todo] is strictly newer.  Then
    [fullReindex] returns normally, updates nothing, inserts the
    anonymized [todo] records one by one in order, and writes the
    newest creation timestamp to the checkpoint file.  In particular an
    empty target receives the whole source ([done] empty), and a second
    full reindex changes nothing in the target ([todo] empty). *)
Theorem fullReindex_completes_the_target :
  forall s done todo front newest tN,
    storeUp s ->
    NoDup (map _id (source (world s))) ->
    (forall c, In c (source (world s)) -> exists t, createdAt c = ValidDate t) ->
    sortByCreatedAt (source (world s)) = done ++ todo ->
    target (world s) = map anonymized done ->
    (forall a d ta td, In a done -> In d todo ->
       createdAt a = ValidDate ta -> createdAt d = ValidDate td -> ta < td) ->
    (done = [] -> forall c t, hd_error todo = Some c -> createdAt c = ValidDate t ->
                  inRange (t - 60000)) ->
    done ++ todo = front ++ [newest] -> createdAt newest = ValidDate tN ->
    exists s',
      fullReindex s = (Ok tt, s')
      /\ target (world s') = map anonymized (sortByCreatedAt (source (world s)))
      /\ pointerStore (world s') = Some (toISO tN)
      /\ source (world s') = source (world s)
      /\ targetWrites s' = targetWrites s ++ repeat (OpInsertOne Target) (List.length todo)
      /\ pointerWrites s' = pointerWrites s ++ [toISO tN].
Proof.
  intros s done todo front newest tN Hup Hnd Hvalid Hsort Htgt Hbound Hrange Hlast HtN.
  assert (Hsorted : StronglySorted olderOrEqual (done ++ todo))
    by (rewrite <- Hsort; apply sortByCreatedAt_sorted).
  assert (Hperm : Permutation (done ++ todo) (source (world s)))
    by (rewrite <- Hsort; apply sortByCreatedAt_perm).
  assert (Hin : forall d, In d (done ++ todo) -> In d (source (world s)))
    by (intros d Hd; eapply Permutation_in; eauto).
  assert (HndS : NoDup (map _id (done ++ todo))).
  { eapply Permutation_NoDup; [apply Permutation_map; symmetry; exact Hperm|exact Hnd]. }
  unfold fullReindex.
  (* the target is read *)
  rewrite (bind_ok _ _ _ _ _ (find_up Target all None None s Hup)).
  cbv zeta. cbn [get_coll]. rewrite filter_all, Htgt.
  rewrite (sortByCreatedAt_sorted_list (map anonymized done))
    by (apply sorted_map_anonymized; eapply sorted_app_l; exact Hsorted).
  pose proof (afterOps_call (OpFind Target) s eq_refl) as A1.
  set (s1 := afterCall (OpFind Target) s) in *.
  (* the first loop *)
  destruct (reindexUpdate_in_step done None s1) as (s2 & E2 & A2).
  { apply A1. exact Hup. }
  { destruct A1 as (S1 & _). rewrite S1. exact Hnd. }
  { intros d Hd. destruct A1 as (S1 & _). rewrite S1. apply Hin.
    apply in_or_app. now left. }
  rewrite (bind_ok _ _ _ _ _ E2).
  pose proof (afterOps_trans _ _ _ _ _ _ _ A1 A2) as A12.
  (* where the second loop starts *)
  assert (Hup2 : storeUp s2) by (apply A12; exact Hup).
  assert (Hsort2 : sortByCreatedAt (source (world s2)) = done ++ todo).
  { destruct A12 as (S2 & _). rewrite S2. exact Hsort. }
  assert (Hvalid2 : forall c, In c (done ++ todo) -> exists t, createdAt c = ValidDate t).
  { intros c Hc. apply Hvalid. apply Hin. exact Hc. }
  destruct (reindex_start done todo front newest tN s2 Hup2 Hsort2 Hvalid2 Hbound Hrange
              Hlast HtN)
    as (b & s3 & ops3 & E3 & A3 & R3 & F3 & L3).
  rewrite (bind_ok _ _ _ _ _ E3).
  pose proof (afterOps_trans _ _ _ _ _ _ _ A12 A3) as A123.
  (* the source is read *)
  assert (Hup3 : storeUp s3) by (apply A123; exact Hup).
  rewrite (bind_ok _ _ _ _ _ (find_up Source _ None None s3 Hup3)).
  cbv zeta. cbn [get_coll queryBound].
  replace (source (world s3)) with (source (world s))
    by (destruct A123 as (S3 & _); now rewrite S3).
  rewrite filter_sortByCreatedAt, Hsort, F3.
  pose proof (afterOps_call (OpFind Source) s3 eq_refl) as A4.
  set (s4 := afterCall (OpFind Source) s3) in *.
  pose proof (afterOps_trans _ _ _ _ _ _ _ A123 A4) as A1234.
  assert (T4 : target (world s4) = map anonymized done).
  { destruct A1234 as (_ & Ta & _). rewrite Ta.
    destruct A123 as (_ & Tb & _). rewrite Tb.
    destruct A12 as (_ & Tc & _). rewrite Tc.
    destruct A1 as (_ & Td & _). rewrite Td. exact Htgt. }
  (* the second loop *)
  destruct (reindexInsert_up todo (ValidDate b) s4) as (s5 & E5 & A5).
  { apply A1234. exact Hup. }
  { rewrite T4. split.
    - rewrite map_app in HndS. eapply NoDup_app_remove_l. exact HndS.
    - intros d Hd. unfold hasId.
      destruct (existsb (byId (_id d)) (map anonymized done)) eqn:X; [|reflexivity].
      exfalso. apply existsb_exists in X. destruct X as (x & Hx & Hid).
      apply in_map_iff in Hx. destruct Hx as (a & <- & Ha).
      unfold byId in Hid. apply N.eqb_eq in Hid. rewrite anonymized_id in Hid.
      rewrite map_app in HndS.
      apply (NoDup_app_disjoint _ _ (_id d) HndS).
      + rewrite <- Hid. now apply in_map.
      + now apply in_map. }
  rewrite (bind_ok _ _ _ _ _ E5). rewrite L3. cbn [toISOString].
  pose proof (afterOps_trans _ _ _ _ _ _ _ A1234 A5) as A.
  rewrite T4 in A.
  destruct A as (SA & TA & PA & LA & TrA & UA).
  unfold bind, ret, writeFileSync_POINTER_STORE, modify.
  eexists. split; [reflexivity|].
  unfold targetWrites, pointerWrites.
  destruct s5 as [[src5 tgt5 ps5 lk5 ck5 out5] h5 p5 u5 tm5 tr5 rj5].
  cbn [world source target pointerStore trace with_trace with_world set_pointerStore] in *.
  split; [rewrite TA, map_app; reflexivity|]. split; [reflexivity|].
  split; [exact SA|].
  rewrite TrA.
  destruct (reads_write_nothing ops3 R3) as [W1 W2].
  destruct (reads_write_nothing (repeat (OpFindOne Source) (List.length done))
              (forallb_repeat isRead (OpFindOne Source) (List.length done) eq_refl)) as [W3 W4].
  destruct (inserts_are_target_writes (List.length todo)) as [W5 W6].
  rewrite !filter_app, !flat_map_app.
  rewrite W1, W2, W3, W4, W5, W6. cbn. rewrite !app_nil_r.
  split; reflexivity.
Qed.

End ReindexCases.

(* ------------------------------------------------------------------ *)
(** * One record of the Updater's stream                                 *)
(* ------------------------------------------------------------------ *)

Lemma In_replaceFirst id doc l x :
  In x l -> byId id x = true -> In doc (replaceFirst id doc l).
Proof.
  induction l as [|y l IH]; intros Hin Hx; [contradiction|].
  cbn [replaceFirst]. destruct (byId id y) eqn:E; [now left|].
  destruct Hin as [->|Hin]; [congruence|]. right. now apply IH.
Qed.

Section OnData.

Context {platform : Platform}.

Lemma Updater_onData_up targetCustomer s :
  storeUp s ->
  Updater_onData targetCustomer s
  = match hd_error (List.filter (byId (_id targetCustomer)) (source (world s))) with
    | None => (Ok tt, afterCall (OpFindOne Source) s)
    | Some doc =>
        let s1 := with_heap (fun h => h ++ [anonymized doc])
                            (afterCall (OpFindOne Source) s) in
        if isEqual targetCustomer (anonymized doc) then (Ok tt, s1)
        else (Ok tt,
              with_world (fun w => set_coll Target
                                    (replaceFirst (_id targetCustomer) (anonymized doc)
                                                  (target w)) w)
                (afterCall (OpUpdateOne Target) s1))
    end.
Proof.
  intros Hup. unfold Updater_onData.
  rewrite (bind_ok _ _ _ _ _ (findOne_up Source _ false s Hup)). cbn [get_coll].
  destruct (hd_error _) as [doc|]; [|reflexivity].
  rewrite fresh_anonymize_deref. cbv zeta.
  destruct (isEqual targetCustomer (anonymized doc)); [reflexivity|].
  rewrite updateOne_run.
  rewrite storeUp_callOk; [reflexivity|].
  apply storeUp_with_heap. apply storeUp_afterCall. exact Hup.
Qed.

(** X7.  One record of the Updater's stream, when the store answers and
    the source holds a record [d] with the same id: [onData] leaves the
    anonymized [d] in the target in place of the first record with
    that id, writing only if the streamed record differs from it; the
    source is not touched.  Handing [onData] the record it has just
    left in the target reads the source again and writes nothing. *)
Theorem Updater_onData_brings_the_record_in_step :
  forall s targetCustomer d,
    storeUp s ->
    NoDup (map _id (source (world s))) ->
    In d (source (world s)) -> _id d = _id targetCustomer ->
    exists s1 s2,
      Updater_onData targetCustomer s = (Ok tt, s1)
      /\ target (world s1)
         = (if isEqual targetCustomer (anonymized d) then target (world s)
            else replaceFirst (_id targetCustomer) (anonymized d) (target (world s)))
      /\ targetWrites s1
         = targetWrites s
           ++ (if isEqual targetCustomer (anonymized d) then [] else [OpUpdateOne Target])
      /\ (In targetCustomer (target (world s)) -> In (anonymized d) (target (world s1)))
      /\ source (world s1) = source (world s)
      /\ Updater_onData (anonymized d) s1 = (Ok tt, s2)
      /\ target (world s2) = target (world s1)
      /\ targetWrites s2 = targetWrites s1.
Proof.
  intros s t d Hup Hnd Hin Hid.
  assert (Hfind : forall s', source (world s') = source (world s) ->
            hd_error (List.filter (byId (_id t)) (source (world s'))) = Some d).
  { intros s' ->. rewrite <- Hid. now rewrite (filter_byId_unique _ d Hnd Hin). }
  pose proof (Updater_onData_up t s Hup) as E1.
  rewrite (Hfind s eq_refl) in E1. cbv zeta in E1.
  set (s0 := with_heap (fun h => h ++ [anonymized d]) (afterCall (OpFindOne Source) s)) in *.
  assert (Hup0 : storeUp s0)
    by (apply storeUp_with_heap; apply storeUp_afterCall; exact Hup).
  assert (second : forall s1,
            storeUp s1 -> source (world s1) = source (world s) ->
            exists s2, Updater_onData (anonymized d) s1 = (Ok tt, s2)
                       /\ target (world s2) = target (world s1)
                       /\ targetWrites s2 = targetWrites s1).
  { intros s1 Hup1 Hs1. rewrite (Updater_onData_up _ s1 Hup1).
    rewrite anonymized_id, Hid, (Hfind s1 Hs1). cbv zeta. rewrite isEqual_refl.
    eexists. split; [reflexivity|].
    destruct s1 as [[src1 tgt1 ps1 lk1 ck1 out1] h1 p1 u1 tm1 tr1 rj1].
    unfold targetWrites. state_simpl. rewrite filter_app. cbn. rewrite app_nil_r.
    split; reflexivity. }
  assert (F0 : target (world s0) = target (world s)
               /\ targetWrites s0 = targetWrites s
               /\ source (world s0) = source (world s)).
  { subst s0. unfold targetWrites.
    destruct s as [[src tgt ps lk ck out] h p u tm tr rj].
    state_simpl. rewrite filter_app. cbn. rewrite app_nil_r. now repeat split. }
  destruct F0 as (T0 & W0 & S0).
  destruct (isEqual t (anonymized d)) eqn:Q.
  - destruct (second s0 Hup0 S0) as (s2 & E2 & T2 & W2).
    exists s0, s2. split; [exact E1|]. split; [exact T0|].
    split; [now rewrite W0, app_nil_r|]. split.
    { intros Ht. rewrite T0. apply isEqual_eq in Q. now rewrite <- Q. }
    split; [exact S0|]. now repeat split.
  - set (s1 := with_world _ (afterCall (OpUpdateOne Target) s0)) in *.
    assert (F1 : target (world s1)
                 = replaceFirst (_id t) (anonymized d) (target (world s0))
                 /\ targetWrites s1 = targetWrites s0 ++ [OpUpdateOne Target]
                 /\ source (world s1) = source (world s0)
                 /\ storeUp s1).
    { pose proof (storeUp_afterCall (OpUpdateOne Target) s0 Hup0) as H.
      subst s1. unfold targetWrites. clearbody s0.
      destruct s0 as [[src tgt ps lk ck out] h p u tm tr rj].
      state_simpl. rewrite filter_app. cbn. now repeat split. }
    destruct F1 as (T1 & W1 & S1 & Hup1).
    destruct (second s1 Hup1) as (s2 & E2 & T2 & W2); [now rewrite S1|].
    exists s1, s2. split; [exact E1|]. split; [now rewrite T1, T0|].
    split; [now rewrite W1, W0|]. split.
    { intros Ht. rewrite T1, T0. apply (In_replaceFirst _ _ _ t Ht).
      unfold byId. apply N.eqb_refl. }
    split; [now rewrite S1|]. now repeat split.
Qed.

End OnData.

(* ------------------------------------------------------------------ *)
(** * A flush the store refuses                                          *)
(* ------------------------------------------------------------------ *)

Lemma stalled_refl s : stalled s s.
Proof.
  unfold stalled. repeat match goal with |- _ /\ _ => split end; auto;
    exists []; now rewrite app_nil_r.
Qed.

Lemma stalled_trans s1 s2 s3 : stalled s1 s2 -> stalled s2 s3 -> stalled s1 s3.
Proof.
  intros (L1 & U1 & R1 & W1 & P1 & (b1 & B1) & (h1 & H1) & (t1 & T1))
         (L2 & U2 & R2 & W2 & P2 & (b2 & B2) & (h2 & H2) & (t2 & T2)).
  unfold stalled. repeat match goal with |- _ /\ _ => split end; try congruence; auto.
  - exists (b1 ++ b2). rewrite B2, B1. now rewrite app_assoc.
  - exists (h1 ++ h2). rewrite H2, H1. now rewrite app_assoc.
  - exists (t1 ++ t2). rewrite T2, T1. now rewrite app_assoc.
Qed.

Lemma holds_stalled s s' refs docs :
  stalled s s' -> holds s refs docs -> holds s' refs docs.
Proof.
  intros (_ & _ & _ & _ & _ & _ & (more & Hh) & _) H. unfold holds in *.
  eapply Forall2_impl; [|exact H]. cbn beta. intros r c Hr.
  rewrite Hh, nth_error_app1; [exact Hr|]. apply nth_error_Some. congruence.
Qed.

Lemma stalled_call o s : isStoreOp o = true -> stalled s (afterCall o s).
Proof.
  intros Ho. pose proof (storeUp_afterCall o s) as U.
  destruct s as [[src tgt ps lk ck out] h [pp w b] u tm tr rj].
  unfold stalled, pointerWrites. state_simpl. rewrite flat_map_app.
  destruct o; try discriminate; cbn; rewrite !app_nil_r;
    (repeat match goal with |- _ /\ _ => split end; auto;
     exists []; now rewrite app_nil_r).
Qed.

Lemma stalled_fetched docs s : stalled s (fetchedInto docs s).
Proof.
  destruct s as [[src tgt ps lk ck out] h [pp w b] u tm tr rj].
  unfold stalled, pointerWrites. state_simpl.
  repeat match goal with |- _ /\ _ => split end; auto; eauto.
  exists []. now rewrite app_nil_r.
Qed.

Lemma stalled_inserted pre s :
  stalled s (with_world (set_coll Target (target (world s) ++ pre)) s).
Proof.
  destruct s as [[src tgt ps lk ck out] h [pp w b] u tm tr rj].
  unfold stalled, pointerWrites. state_simpl.
  repeat match goal with |- _ /\ _ => split end; auto; eauto;
    exists []; now rewrite app_nil_r.
Qed.

Lemma insertOrdered_refused docs coll c :
  In c docs -> hasId (_id c) coll = true ->
  exists id, snd (insertOrdered docs coll) = Some id.
Proof.
  revert coll. induction docs as [|d docs IH]; intros coll Hin Hc; [contradiction|].
  cbn [insertOrdered]. destruct (hasId (_id d) coll) eqn:E.
  - exists (_id d). reflexivity.
  - destruct Hin as [->|Hin]; [congruence|].
    apply IH; [exact Hin|]. rewrite hasId_app, Hc. reflexivity.
Qed.

Section Wedged.

Context {platform : Platform}.

Lemma stalled_loaded s : stalled s (loaded s).
Proof.
  unfold loaded. destruct (pointer (pursuer s)); [apply stalled_refl|].
  rewrite Pursuer_loadPointer_run.
  destruct (pointerStore (world s)) eqn:Hf.
  - cbn [snd]. destruct s as [[src tgt ps lk ck out] h [pp w b] u tm tr rj].
    unfold stalled, pointerWrites. state_simpl.
    repeat match goal with |- _ /\ _ => split end; auto;
      exists []; now rewrite app_nil_r.
  - assert (G : forall d, stalled s (with_pursuer (set_pointer d)
                                       (afterCall (OpFindOne Source) s))).
    { intros d. eapply stalled_trans; [apply (stalled_call (OpFindOne Source) s eq_refl)|].
      generalize (afterCall (OpFindOne Source) s).
      intros [[src tgt ps lk ck out] h [pp w b] u tm tr rj].
      unfold stalled, pointerWrites. state_simpl.
      repeat match goal with |- _ /\ _ => split end; auto;
        exists []; now rewrite app_nil_r. }
    destruct (callOk s); cbn [snd]; [apply G|].
    apply (stalled_call (OpFindOne Source) s eq_refl).
Qed.

(** A tick of the Pursuer whose buffer holds a record that is already
    in the target: the bulk insert is refused, and nothing after it in
    [loop] runs. *)
Lemma wedged_tick s held c :
  lockfile (world s) = false -> storeUp s ->
  holds s (buffer (pursuer s)) held -> In c held ->
  hasId (_id c) (target (world s)) = true ->
  exists id s2 batch,
    Pursuer_tick s = (Throw (DuplicateKey id), s2)
    /\ stalled s s2
    /\ holds s2 (buffer (pursuer s2)) batch /\ In c batch
    /\ hasId (_id c) (target (world s2)) = true.
Proof.
  intros Hl Hup Hh Hc Hdup.
  rewrite (Pursuer_tick_unlocked s Hl).
  destruct (loaded_facts s Hup)
    as (p & Hp & -> & Hup0 & Hheap & Hbuf & Hwin & Hsrc & Htgt & _).
  pose proof (stalled_loaded s) as St0.
  set (s0 := loaded s) in *.
  rewrite (Pursuer_loop_with_pointer s0 p Hp Hup0). cbv zeta.
  set (docs := forwardQuery (Some p) _ _ _).
  set (s1 := fetchedInto docs (afterCall (OpFind Source) s0)).
  set (batch := held ++ map anonymized docs).
  assert (St1 : stalled s s1).
  { eapply stalled_trans; [exact St0|].
    eapply stalled_trans; [apply (stalled_call (OpFind Source) s0 eq_refl)|].
    apply stalled_fetched. }
  assert (Hh1 : holds s1 (buffer (pursuer s1)) batch).
  { apply holds_fetchedInto with (refs := buffer (pursuer s0)); [|reflexivity].
    unfold holds. rewrite Hheap, Hbuf. exact Hh. }
  assert (Hne : buffer (pursuer s0) <> []).
  { rewrite Hbuf. intros E. rewrite E in Hh. inversion Hh; subst. contradiction. }
  assert (flushDue (window (pursuer s0)) (List.length (buffer (pursuer s0)))
                   (List.length (buffer (pursuer s1))) = true) as ->.
  { unfold flushDue. destruct (buffer (pursuer s0)); [congruence|].
    cbn [List.length]. rewrite orb_true_iff. right. reflexivity. }
  assert (Hup1 : storeUp s1) by (apply St1; exact Hup).
  assert (Ht1 : exists more, target (world s1) = target (world s) ++ more) by apply St1.
  destruct Ht1 as (more1 & Ht1).
  assert (Hc1 : In c batch) by (apply in_or_app; now left).
  assert (Hdup1 : hasId (_id c) (target (world s1)) = true).
  { rewrite Ht1, hasId_app, Hdup. reflexivity. }
  destruct (insertOrdered_refused batch (target (world s1)) c Hc1 Hdup1) as (id & Hid).
  destruct (insertOrdered_appends batch (target (world s1))) as (pre & Hpre).
  unfold flushBlock. unfold bind at 1, gets at 1.
  rewrite (bind_ok _ _ _ _ _ (mapM_deref _ _ _ Hh1)).
  assert (E : insertMany Target batch s1
              = (Throw (DuplicateKey id),
                 with_world (set_coll Target (target (world s1) ++ pre))
                            (afterCall (OpInsertMany Target) s1))).
  { rewrite insertMany_run. destruct batch as [|x batch']; [contradiction|].
    rewrite (storeUp_callOk _ Hup1). cbv zeta. rewrite Hid, Hpre. reflexivity. }
  rewrite (bind_throw _ _ _ _ _ E).
  set (s2 := with_world _ (afterCall (OpInsertMany Target) s1)).
  assert (St12 : stalled s1 s2).
  { eapply stalled_trans; [apply (stalled_call (OpInsertMany Target) s1 eq_refl)|].
    subst s2.
    replace (target (world s1)) with (target (world (afterCall (OpInsertMany Target) s1)))
      by (destruct s1 as [[? ? ? ? ? ?] ? ? ? ? ? ?]; reflexivity).
    apply stalled_inserted. }
  exists id, s2, batch. split; [reflexivity|].
  split; [eapply stalled_trans; eassumption|]. split.
  - assert (B : buffer (pursuer s2) = buffer (pursuer s1))
      by (subst s2; destruct s1 as [[? ? ? ? ? ?] ? [? ? ?] ? ? ? ?]; reflexivity).
    rewrite B. eapply holds_stalled; eassumption.
  - split; [exact Hc1|].
    assert (T : target (world s2) = target (world s1) ++ pre)
      by (subst s2; destruct s1 as [[? ? ? ? ? ?] ? ? ? ? ? ?]; reflexivity).
    rewrite T, hasId_app, Hdup1. reflexivity.
Qed.

Lemma wedged_step e s held c :
  tickOrArrival e ->
  lockfile (world s) = false -> storeUp s ->
  holds s (buffer (pursuer s)) held -> In c held ->
  hasId (_id c) (target (world s)) = true ->
  exists ids batch more,
    List.length ids = (if isTick e then 1 else 0)%nat
    /\ rejections (step e s) = rejections s ++ map DuplicateKey ids
    /\ pointerWrites (step e s) = pointerWrites s
    /\ pointerStore (world (step e s)) = pointerStore (world s)
    /\ buffer (pursuer (step e s)) = buffer (pursuer s) ++ more
    /\ lockfile (world (step e s)) = false /\ storeUp (step e s)
    /\ holds (step e s) (buffer (pursuer (step e s))) batch /\ In c batch
    /\ hasId (_id c) (target (world (step e s))) = true.
Proof.
  intros He Hl Hup Hh Hc Hdup.
  destruct e as [t| src | tgt | held' | t | out | ]; try contradiction.
  - destruct t; try contradiction.
    destruct (wedged_tick s held c Hl Hup Hh Hc Hdup)
      as (id & s2 & batch & E & St & Hh2 & Hc2 & Hdup2).
    destruct St as (L & U & R & W & P & (more & B) & _ & _).
    exists [id], batch, more.
    assert (Es : step (Fires PursuerTick) s
                 = with_rejections (fun l => l ++ [DuplicateKey id]) s2).
    { unfold step, fire, detached. rewrite E. reflexivity. }
    rewrite Es. cbn [isTick].
    destruct s2 as [[src2 tgt2 ps2 lk2 ck2 out2] h2 [pp2 w2 b2] u2 tm2 tr2 rj2].
    unfold pointerWrites in *. unfold holds in *. state_simpl. cbn [map List.length].
    repeat match goal with |- _ /\ _ => split end; try assumption; try congruence; auto.
  - exists [], held, [].
    destruct s as [[src2 tgt2 ps2 lk2 ck2 out2] h2 [pp2 w2 b2] u2 tm2 tr2 rj2].
    unfold pointerWrites in *. unfold holds in *. unfold step. cbn [isTick]. state_simpl.
    cbn [map List.length]. rewrite !app_nil_r.
    repeat match goal with |- _ /\ _ => split end; try assumption; reflexivity.
  - exists [], held, [].
    destruct s as [[src2 tgt2 ps2 lk2 ck2 out2] h2 [pp2 w2 b2] u2 tm2 tr2 rj2].
    unfold pointerWrites in *. unfold holds in *. unfold step. cbn [isTick]. state_simpl.
    cbn [map List.length]. rewrite !app_nil_r.
    repeat match goal with |- _ /\ _ => split end; try assumption; reflexivity.
Qed.

(** X8.  A record in the buffer whose id is already in the target
    wedges the Pursuer.  With the lock free and the store answering,
    every tick from then on ends in [insertMany]'s duplicate-key
    error, which nobody handles (the process is taken to outlive an
    unhandled rejection, as in [detached]; a runtime that ends the
    process on the first one stops at the first such tick): the
    statements after the bulk insert
    are never reached, so the buffer is not cleared (it only grows),
    the checkpoint does not advance and the checkpoint file is not
    written, whatever arrives in the source meanwhile. *)
Theorem duplicate_key_wedges_the_Pursuer :
  forall es s held c,
    lockfile (world s) = false -> storeUp s ->
    holds s (buffer (pursuer s)) held -> In c held ->
    hasId (_id c) (target (world s)) = true ->
    Forall tickOrArrival es ->
    exists ids more,
      List.length ids = List.length (List.filter isTick es)
      /\ rejections (runOf es s) = rejections s ++ map DuplicateKey ids
      /\ pointerWrites (runOf es s) = pointerWrites s
      /\ pointerStore (world (runOf es s)) = pointerStore (world s)
      /\ buffer (pursuer (runOf es s)) = buffer (pursuer s) ++ more.
Proof.
  induction es as [|e es IH]; intros s held c Hl Hup Hh Hc Hdup Hes.
  - exists [], []. cbn. rewrite !app_nil_r. now repeat split.
  - inversion Hes as [|? ? He Hes']; subst.
    destruct (wedged_step e s held c He Hl Hup Hh Hc Hdup)
      as (ids1 & batch & more1 & N1 & R1 & W1 & P1 & B1 & L1 & U1 & H1 & C1 & D1).
    destruct (IH (step e s) batch c L1 U1 H1 C1 D1 Hes')
      as (ids2 & more2 & N2 & R2 & W2 & P2 & B2).
    exists (ids1 ++ ids2), (more1 ++ more2).
    change (runOf (e :: es) s) with (runOf es (step e s)).
    rewrite R2, R1, W2, W1, P2, P1, B2, B1, map_app, !app_assoc.
    repeat match goal with |- _ /\ _ => split end; try reflexivity.
    rewrite length_app, N1, N2. cbn [List.filter].
    destruct (isTick e); cbn [List.length]; lia.
Qed.

End Wedged.

(* ------------------------------------------------------------------ *)
(** * The checkpoint file, written and read back                         *)
(* ------------------------------------------------------------------ *)

Section RoundTrip.

#[local] Existing Instance isoPlatform.

(** X9.  On the ISO 8601 platform, what [storePointer] writes,
    [loadPointer] reads back as the same instant.  Any process that
    finds the file as [storePointer] left it (this one after it
    dropped its in-memory checkpoint on seeing the lock, or one started
    later) loads the checkpoint that was stored, without asking the
    store and without touching the world. *)
Theorem stored_checkpoint_loads_back :
  forall s t,
    inRange t -> pointer (pursuer s) = Some (ValidDate t) ->
    exists s1,
      Pursuer_storePointer s = (Ok tt, s1)
      /\ pointerStore (world s1) = Some (ISO8601.render t)
      /\ forall s',
           pointerStore (world s') = pointerStore (world s1) ->
           exists s2,
             Pursuer_loadPointer s' = (Ok tt, s2)
             /\ pointer (pursuer s2) = Some (ValidDate t)
             /\ world s2 = world s' /\ trace s2 = trace s'.
Proof.
  intros s t Ht Hp. rewrite (Pursuer_storePointer_valid s t Hp).
  eexists. split; [reflexivity|].
  assert (Hf : pointerStore (world (with_trace (fun tr => tr ++ [OpWritePointer (toISO t)])
                 (with_world (set_pointerStore (Some (toISO t))) s)))
               = Some (ISO8601.render t)).
  { destruct s as [[? ? ? ? ? ?] ? ? ? ? ? ?]. reflexivity. }
  split; [exact Hf|].
  intros s' Hs'. rewrite Hf in Hs'.
  rewrite (Pursuer_loadPointer_stored s' _ Hs').
  eexists. split; [reflexivity|].
  change (Date_parse (ISO8601.render t)) with (ISO8601.parse (ISO8601.render t)).
  rewrite (ISO8601_facts.parse_render t Ht).
  destruct s' as [[? ? ? ? ? ?] ? [? ? ?] ? ? ? ?]. now repeat split.
Qed.

End RoundTrip.

(* ------------------------------------------------------------------ *)
(** * A tick that fails                                                  *)
(* ------------------------------------------------------------------ *)

Lemma mapM_deref_cases refs s :
  (exists batch, mapM deref refs s = (Ok batch, s) /\ holds s refs batch)
  \/ mapM deref refs s = (Throw TypeError, s).
Proof.
  induction refs as [|r refs IH].
  - left. exists []. split; [reflexivity|constructor].
  - destruct (nth_error (heap s) r) as [c|] eqn:E.
    + destruct IH as [(batch & Eb & Hb)|Eb].
      * left. exists (c :: batch). split; [|constructor; assumption].
        cbn [mapM]. rewrite (bind_ok _ _ _ _ _ (deref_run _ _ _ E)).
        rewrite (bind_ok _ _ _ _ _ Eb). reflexivity.
      * right. cbn [mapM]. rewrite (bind_ok _ _ _ _ _ (deref_run _ _ _ E)).
        rewrite (bind_throw _ _ _ _ _ Eb). reflexivity.
    + right. cbn [mapM]. unfold bind, deref. rewrite E. reflexivity.
Qed.

Section FailedTick.

Context {platform : Platform}.

(** Once the bulk insert is through, nothing in [loop] can fail any
    more: [storePointer] is not awaited. *)
Lemma flush_tail_returns s :
  exists s',
    (detached Pursuer_storePointer ;; modify (with_pursuer (set_buffer []))) s = (Ok tt, s').
Proof.
  destruct s as [w h [[[|t]|] wd b] u tm tr rj];
    unfold Pursuer_storePointer, detached, bind, gets, modify; cbn; eauto.
Qed.

Lemma flushBlock_throws s e s' :
  flushBlock s = (Throw e, s') ->
  stalled s s' /\ pointer (pursuer s') = pointer (pursuer s) /\ tickError e.
Proof.
  intros H. unfold flushBlock in H. unfold bind at 1, gets at 1 in H.
  destruct (mapM_deref_cases (buffer (pursuer s)) s) as [(batch & E & Hh)|E].
  - rewrite (bind_ok _ _ _ _ _ E) in H. unfold bind at 1 in H.
    rewrite insertMany_run in H.
    destruct batch as [|d batch].
    { injection H as <- <-. split; [apply stalled_refl|]. split; [reflexivity|].
      unfold tickError. auto. }
    destruct (insertOrdered_appends (d :: batch) (target (world s))) as (pre & Hpre).
    set (s2 := with_world (set_coll Target (fst (insertOrdered (d :: batch) (target (world s)))))
                          (afterCall (OpInsertMany Target) s)) in *.
    assert (St2 : stalled s s2 /\ pointer (pursuer s2) = pointer (pursuer s)).
    { split.
      - eapply stalled_trans; [apply (stalled_call (OpInsertMany Target) s eq_refl)|].
        subst s2. rewrite Hpre.
        replace (target (world s))
          with (target (world (afterCall (OpInsertMany Target) s)))
          by (destruct s as [[? ? ? ? ? ?] ? ? ? ? ? ?]; reflexivity).
        apply stalled_inserted.
      - subst s2. destruct s as [[? ? ? ? ? ?] ? [? ? ?] ? ? ? ?]. reflexivity. }
    destruct St2 as [St2 Hp2].
    destruct (callOk s).
    + cbv zeta in H. destruct (snd (insertOrdered (d :: batch) (target (world s)))) as [id|].
      * injection H as <- <-. split; [exact St2|]. split; [exact Hp2|].
        unfold tickError. eauto.
      * unfold bind at 1 in H.
        destruct (last (map Some (buffer (pursuer s))) None) as [lastCustomer|].
        -- unfold bind at 1, deref at 1 in H.
           destruct (nth_error (heap s2) lastCustomer) as [c|].
           ++ unfold modify at 1 in H.
              destruct (flush_tail_returns
                          (with_pursuer (set_pointer (Some (createdAt c))) s2))
                as (s3 & E3).
              rewrite E3 in H. discriminate.
           ++ injection H as <- <-. split; [exact St2|]. split; [exact Hp2|].
              unfold tickError. auto.
        -- unfold ret at 1 in H.
           destruct (flush_tail_returns s2) as (s3 & E3).
           rewrite E3 in H. discriminate.
    + injection H as <- <-.
      split; [apply (stalled_call (OpInsertMany Target) s eq_refl)|].
      split; [destruct s as [[? ? ? ? ? ?] ? [? ? ?] ? ? ? ?]; reflexivity|].
      unfold tickError. auto.
  - rewrite (bind_throw _ _ _ _ _ E) in H. injection H as <- <-.
    split; [apply stalled_refl|]. split; [reflexivity|]. unfold tickError. auto.
Qed.

Lemma Pursuer_loop_throws_with_pointer s p e s' :
  pointer (pursuer s) = Some p ->
  Pursuer_loop s = (Throw e, s') ->
  stalled s s' /\ pointer (pursuer s') = Some p /\ tickError e.
Proof.
  intros Hp H. rewrite (Pursuer_loop_run s p Hp) in H.
  destruct (callOk s).
  - cbv zeta in H.
    set (docs := forwardQuery (Some p) _ _ _) in *.
    set (s1 := fetchedInto docs (afterCall (OpFind Source) s)) in *.
    assert (St1 : stalled s s1).
    { eapply stalled_trans; [apply (stalled_call (OpFind Source) s eq_refl)|].
      apply stalled_fetched. }
    assert (Hp1 : pointer (pursuer s1) = Some p).
    { subst s1. rewrite <- Hp.
      destruct s as [[? ? ? ? ? ?] ? [? ? ?] ? ? ? ?]. reflexivity. }
    destruct (flushDue _ _ _); [|discriminate].
    destruct (flushBlock_throws s1 e s' H) as (St & Hp' & He).
    split; [eapply stalled_trans; eassumption|]. split; [congruence|exact He].
  - injection H as <- <-.
    split; [apply (stalled_call (OpFind Source) s eq_refl)|].
    split; [rewrite <- Hp; destruct s as [[? ? ? ? ? ?] ? [? ? ?] ? ? ? ?]; reflexivity|].
    unfold tickError. auto.
Qed.

(** X10.  A tick of the Pursuer that fails loses nothing and advances
    nothing: whatever the state it started in, if the tick ends in an
    error then the buffer still holds what it held (and what the tick
    fetched), a checkpoint it had in memory is unchanged, and the
    checkpoint file was not written.  The error comes from the store
    (unreachable, duplicate key, empty batch) or from a missing
    object; the error of [toISOString] on an invalid date never
    reaches the tick, since [storePointer] is not awaited. *)
Theorem failed_tick_keeps_buffer_and_checkpoint :
  forall s e s',
    Pursuer_tick s = (Throw e, s') ->
    (exists more, buffer (pursuer s') = buffer (pursuer s) ++ more)
    /\ (forall p, pointer (pursuer s) = Some p -> pointer (pursuer s') = Some p)
    /\ pointerStore (world s') = pointerStore (world s)
    /\ pointerWrites s' = pointerWrites s
    /\ rejections s' = rejections s
    /\ tickError e.
Proof.
  intros s e s' H.
  assert (G : stalled s s'
              /\ (forall p, pointer (pursuer s) = Some p -> pointer (pursuer s') = Some p)
              /\ tickError e).
  { unfold Pursuer_tick, lockfile_checkSync in H. unfold bind at 1, gets at 1 in H.
    destruct (lockfile (world s)); cbn [negb] in H; [discriminate|].
    destruct (pointer (pursuer s)) as [p|] eqn:Hp.
    - destruct (Pursuer_loop_throws_with_pointer s p e s' Hp H) as (St & Hp' & He).
      split; [exact St|]. split; [|exact He]. intros q Hq. congruence.
    - pose proof (stalled_loaded s) as St0. unfold loaded in St0. rewrite Hp in St0.
      destruct (Pursuer_loadPointer s) as [[[]|e0|c0] s0] eqn:E0; cbn [snd] in St0.
      + assert (Hp0 : pointer (pursuer s0) <> None).
        { rewrite Pursuer_loadPointer_run in E0.
          destruct (pointerStore (world s)); [|destruct (callOk s); [|discriminate]];
            injection E0 as <-;
            destruct s as [[? ? ? ? ? ?] ? [? ? ?] ? ? ? ?]; discriminate. }
        rewrite (Pursuer_loop_after_load s s0 Hp E0 Hp0) in H.
        destruct (pointer (pursuer s0)) as [p0|] eqn:Hp0'; [|congruence].
        destruct (Pursuer_loop_throws_with_pointer s0 p0 e s' Hp0' H) as (St & _ & He).
        split; [eapply stalled_trans; eassumption|]. split; [discriminate|exact He].
      + rewrite (Pursuer_loop_load_fails s e0 s0 Hp E0) in H. injection H as <- <-.
        split; [exact St0|]. split; [discriminate|].
        rewrite Pursuer_loadPointer_run in E0.
        destruct (pointerStore (world s)); [discriminate|].
        destruct (callOk s); [discriminate|]. injection E0 as <- _.
        unfold tickError. auto.
      + exfalso. rewrite Pursuer_loadPointer_run in E0.
        destruct (pointerStore (world s)); [discriminate|].
        destruct (callOk s); discriminate. }
  destruct G as ((_ & _ & R & W & P & B & _ & _) & Hp & He).
  repeat match goal with |- _ /\ _ => split end; assumption.
Qed.

End FailedTick.

(* ------------------------------------------------------------------ *)
(** * What consecutive ticks copy                                        *)
(* ------------------------------------------------------------------ *)

Lemma freshIds_anonymized coll docs :
  freshIds coll docs -> freshIds coll (map anonymized docs).
Proof.
  intros [Hnd Hfr]. split.
  - rewrite map_map. cbn. exact Hnd.
  - intros d Hd. apply in_map_iff in Hd. destruct Hd as (x & <- & Hx).
    rewrite anonymized_id. now apply Hfr.
Qed.

Section Backlog.

Context {platform : Platform}.

Lemma loaded_with_pointer s p : pointer (pursuer s) = Some p -> loaded s = s.
Proof. intros H. unfold loaded. now rewrite H. Qed.

(** X11.  The window does not bound the batch once the buffer is full
    at the start of a tick (as it is after a flush that failed).  The
    query then asks for [window - buffer.length] = 0 records, which
    the store takes to mean no limit: the tick fetches every remaining
    record newer than the checkpoint, and, the store taking the
    batch, inserts the old buffer and all of them in one bulk insert,
    sets the checkpoint to the last one's creation timestamp and
    clears the buffer. *)
Theorem full_buffer_fetches_the_whole_backlog :
  forall s held p front c t,
    lockfile (world s) = false -> storeUp s ->
    pointer (pursuer s) = Some p ->
    holds s (buffer (pursuer s)) held -> held <> [] ->
    Z.of_nat (List.length held) = window (pursuer s) ->
    let rest := skipn (List.length held)
                  (sortByCreatedAt
                     (List.filter (gtCreatedAt (queryBound (Some p))) (source (world s)))) in
    let batch := held ++ map anonymized rest in
    batch = front ++ [c] -> createdAt c = ValidDate t ->
    freshIds (target (world s)) batch ->
    exists s',
      Pursuer_tick s = (Ok tt, s')
      /\ target (world s') = target (world s) ++ batch
      /\ pointer (pursuer s') = Some (ValidDate t)
      /\ pointerStore (world s') = Some (toISO t)
      /\ buffer (pursuer s') = [].
Proof.
  intros s held p front c t Hl Hup Hp Hh Hne Hfull rest batch Hbatch Ht Hfr.
  pose proof (Pursuer_tick_flushes s held front c t Hl Hup Hh) as T.
  cbv zeta in T. rewrite (loaded_with_pointer s p Hp), Hp in T.
  assert (Hq : forwardQuery (Some p) (window (pursuer s)) (List.length held)
                            (source (world s)) = rest).
  { unfold forwardQuery. rewrite <- Hfull, Z.sub_diag. reflexivity. }
  rewrite Hq in T. fold batch in T.
  specialize (T (or_intror Hne) Hbatch Ht Hfr). rewrite T.
  eexists. split; [reflexivity|].
  set (s1 := fetchedInto rest (afterCall (OpFind Source) s)).
  destruct (flushed_facts batch t s1) as (F1 & F2 & F3 & F4).
  destruct (buffered_facts rest s) as (_ & B2 & _).
  fold s1 in B2. rewrite F1, B2. now repeat split.
Qed.

(** X12.  A backlog smaller than the window reaches the target on the
    second tick, whole and in order.  With a checkpoint in memory, an
    empty buffer, the lock free and the store answering, let [newer]
    be the source's records newer than the checkpoint, oldest first,
    fewer than [window] and none of them in the target yet.  The first
    tick only buffers them, anonymized; the second tick, the source
    being as it was, fetches nothing more, inserts them all and
    writes the newest creation timestamp to the checkpoint file. *)
Theorem small_backlog_is_copied_in_two_ticks :
  forall s p newer front c t,
    lockfile (world s) = false -> storeUp s ->
    pointer (pursuer s) = Some p -> buffer (pursuer s) = [] ->
    newer = sortByCreatedAt
              (List.filter (gtCreatedAt (queryBound (Some p))) (source (world s))) ->
    newer = front ++ [c] -> createdAt c = ValidDate t ->
    Z.of_nat (List.length newer) < window (pursuer s) ->
    freshIds (target (world s)) newer ->
    exists s1 s2,
      Pursuer_tick s = (Ok tt, s1)
      /\ holds s1 (buffer (pursuer s1)) (map anonymized newer)
      /\ target (world s1) = target (world s)
      /\ pointerStore (world s1) = pointerStore (world s)
      /\ Pursuer_tick s1 = (Ok tt, s2)
      /\ target (world s2) = target (world s) ++ map anonymized newer
      /\ pointer (pursuer s2) = Some (ValidDate t)
      /\ pointerStore (world s2) = Some (toISO t)
      /\ buffer (pursuer s2) = [].
Proof.
  intros s p newer front c t Hl Hup Hp Hb Hnewer Hlast Ht Hw Hfr.
  assert (Hh0 : holds s (buffer (pursuer s)) []) by (rewrite Hb; constructor).
  assert (Hq1 : forwardQuery (Some p) (window (pursuer s)) 0 (source (world s)) = newer).
  { unfold forwardQuery. rewrite <- Hnewer. cbn [skipn Z.of_nat]. rewrite Z.sub_0_r.
    unfold limitTo. destruct (Z.eqb_spec (window (pursuer s)) 0); [reflexivity|].
    apply firstn_all2. lia. }
  (* the first tick *)
  pose proof (Pursuer_tick_buffers s [] Hl Hup Hh0) as T1. cbv zeta in T1.
  rewrite (loaded_with_pointer s p Hp), Hp in T1. cbn [List.length app] in T1.
  rewrite Hq1 in T1.
  assert (T1' : Pursuer_tick s = (Ok tt, fetchedInto newer (afterCall (OpFind Source) s))).
  { apply T1; [|reflexivity]. rewrite length_map. lia. }
  clear T1.
  set (s1 := fetchedInto newer (afterCall (OpFind Source) s)) in *.
  destruct (buffered_facts newer s) as (B1 & B2 & B3 & B4 & B5 & B6 & _ & B8).
  fold s1 in B1, B2, B3, B4, B5, B6, B8.
  assert (Hh1 : holds s1 (buffer (pursuer s1)) (map anonymized newer)).
  { apply (holds_fetchedInto s [] [] newer (OpFind Source)); [constructor|exact Hb]. }
  (* the second tick *)
  assert (Hq2 : forwardQuery (Some p) (window (pursuer s1))
                  (List.length (map anonymized newer)) (source (world s1)) = []).
  { unfold forwardQuery. rewrite B1, <- Hnewer, length_map, skipn_all.
    apply limitTo_nil. }
  pose proof (Pursuer_tick_flushes s1 (map anonymized newer) (map anonymized front)
                (anonymized c) t) as T2.
  cbv zeta in T2.
  rewrite (loaded_with_pointer s1 p) in T2 by (rewrite B5; exact Hp).
  rewrite B5, Hp, Hq2 in T2. cbn [map] in T2. rewrite app_nil_r in T2.
  assert (T2' : Pursuer_tick s1
                = (Ok tt, flushedAt (map anonymized newer) t
                            (fetchedInto [] (afterCall (OpFind Source) s1)))).
  { apply T2.
    - rewrite B4. exact Hl.
    - apply B8. exact Hup.
    - exact Hh1.
    - right. rewrite Hlast, map_app. destruct (map anonymized front); discriminate.
    - rewrite Hlast, map_app. reflexivity.
    - exact Ht.
    - rewrite B2. apply freshIds_anonymized. exact Hfr. }
  clear T2.
  exists s1. eexists. split; [exact T1'|]. split; [exact Hh1|].
  split; [exact B2|]. split; [exact B3|]. split; [exact T2'|].
  set (s1' := fetchedInto [] (afterCall (OpFind Source) s1)).
  destruct (flushed_facts (map anonymized newer) t s1') as (F1 & F2 & F3 & F4).
  destruct (buffered_facts [] s1) as (_ & C2 & _).
  fold s1' in C2. rewrite F1, C2, B2. now repeat split.
Qed.

End Backlog.

(* ------------------------------------------------------------------ *)
(** * A full reindex that completes                                      *)
(* ------------------------------------------------------------------ *)

Section KeepsActors.

Context {platform : Platform}.

Lemma actors_storeCall o : keeps actorsOf (storeCall o).
Proof.
  intros [[src tgt ps lk ck out] h p u tm tr rj]. unfold storeCall. cbn.
  destruct out as [|[|] rest]; reflexivity.
Qed.

Lemma actors_with_world f : keeps actorsOf (modify (with_world f)).
Proof. intros [w h p u tm tr rj]. reflexivity. Qed.

Lemma actors_with_heap f : keeps actorsOf (modify (with_heap f)).
Proof. intros [w h p u tm tr rj]. reflexivity. Qed.

Lemma actors_fresh c : keeps actorsOf (fresh c).
Proof. intros [w h p u tm tr rj]. reflexivity. Qed.

Lemma actors_deref r : keeps actorsOf (deref r).
Proof. intros s. unfold deref. destruct (nth_error (heap s) r); reflexivity. Qed.

Lemma actors_write raw : keeps actorsOf (writeFileSync_POINTER_STORE raw).
Proof. intros [w h p u tm tr rj]. reflexivity. Qed.

Lemma actors_toISOString d : keeps actorsOf (toISOString d).
Proof. destruct d; [apply keeps_throw|apply keeps_ret]. Qed.

Hint Resolve actors_storeCall actors_with_world actors_with_heap actors_fresh
  actors_deref actors_write actors_toISOString : keeps.

Lemma actors_find c flt lim skp : keeps actorsOf (find c flt lim skp).
Proof. unfold find. repeat (auto with keeps || keeps_step). Qed.

Lemma actors_findOne c flt srt : keeps actorsOf (findOne c flt srt).
Proof. unfold findOne. repeat (auto with keeps || keeps_step). Qed.

Lemma actors_insertOne c doc : keeps actorsOf (insertOne c doc).
Proof. unfold insertOne. repeat (auto with keeps || keeps_step). Qed.

Lemma actors_updateOne c id doc : keeps actorsOf (updateOne c id doc).
Proof. unfold updateOne. repeat (auto with keeps || keeps_step). Qed.

Lemma actors_assign r f : keeps actorsOf (assign r f).
Proof. unfold assign. repeat (auto with keeps || keeps_step). Qed.

Hint Resolve actors_find actors_findOne actors_insertOne actors_updateOne
  actors_assign : keeps.

Lemma actors_anonymizeCustomer r : keeps actorsOf (anonymizeCustomer r).
Proof. unfold anonymizeCustomer. repeat (auto with keeps || keeps_step). Qed.

Hint Resolve actors_anonymizeCustomer : keeps.

Lemma actors_reindexUpdate docs last : keeps actorsOf (reindexUpdate docs last).
Proof.
  revert last. induction docs as [|d docs IH]; intros last; cbn [reindexUpdate].
  - apply keeps_ret.
  - repeat (auto with keeps || keeps_step).
Qed.

Lemma actors_reindexInsert docs last : keeps actorsOf (reindexInsert docs last).
Proof.
  revert last. induction docs as [|d docs IH]; intros last; cbn [reindexInsert].
  - apply keeps_ret.
  - repeat (auto with keeps || keeps_step).
Qed.

Lemma actors_fullReindex : keeps actorsOf fullReindex.
Proof.
  unfold fullReindex.
  repeat (auto using actors_reindexUpdate, actors_reindexInsert with keeps || keeps_step).
Qed.

(** X13.  A full reindex that completes: started with the flag, the
    settings present and the lock free, [run] takes the lock, and when
    [fullReindex] returns (the lock still held) it releases the lock
    and ends the process with status 0.  The collections and the
    checkpoint file are as [fullReindex] left them; no timer is
    registered and neither the Pursuer nor the Updater is created or
    touched. *)
Theorem completed_reindex_releases_the_lock_and_exits :
  forall cfg s s1,
    configured cfg -> fullReindexRequested cfg ->
    lockfile (world s) = false ->
    fullReindex (with_world (set_lockfile true) s) = (Ok tt, s1) ->
    exists s',
      run cfg s = (Exit 0, s')
      /\ lockfile (world s1) = true
      /\ lockfile (world s') = false
      /\ source (world s') = source (world s)
      /\ target (world s') = target (world s1)
      /\ pointerStore (world s') = pointerStore (world s1)
      /\ timers s' = timers s /\ pursuer s' = pursuer s /\ updater s' = updater s
      /\ rejections s' = rejections s.
Proof.
  intros cfg s s1 Hc Hr Hf E.
  rewrite (run_reindex_completes cfg s s1 Hc Hr Hf E).
  eexists. split; [reflexivity|].
  pose proof (lock_fullReindex (with_world (set_lockfile true) s)) as K.
  pose proof (actors_fullReindex (with_world (set_lockfile true) s)) as A.
  pose proof (proj1 (orderly_fullReindex (with_world (set_lockfile true) s))) as S.
  rewrite E in K, A, S. cbn [snd] in K, A, S. unfold lockOf, actorsOf in *.
  destruct s as [[src tgt ps lk ck out] h p u tm tr rj].
  destruct s1 as [[src1 tgt1 ps1 lk1 ck1 out1] h1 p1 u1 tm1 tr1 rj1].
  cbn in *. injection A as -> -> -> ->. subst.
  now repeat split.
Qed.

End KeepsActors.

(* ------------------------------------------------------------------ *)
(** * What the Pursuer copies once a checkpoint is written               *)
(* ------------------------------------------------------------------ *)

Lemma insertOrdered_prefix docs coll :
  exists pre post, fst (insertOrdered docs coll) = coll ++ pre /\ docs = pre ++ post.
Proof.
  revert coll. induction docs as [|d docs IH]; intros coll; cbn [insertOrdered].
  - exists [], []. cbn. now rewrite app_nil_r.
  - destruct (hasId (_id d) coll).
    + exists [], (d :: docs). cbn. now rewrite app_nil_r.
    + destruct (IH (coll ++ [d])) as (pre & post & E & ->). exists (d :: pre), post.
      rewrite E, <- app_assoc. now split.
Qed.

Lemma keeps_detached {X A} (f : Proc -> X) (m : JS A) :
  (forall g s, f (with_rejections g s) = f s) -> keeps f m -> keeps f (detached m).
Proof.
  intros Hr Hm s. unfold detached. specialize (Hm s).
  destruct (m s) as [[a|e|c] s']; cbn [snd] in *; [assumption| |assumption].
  now rewrite Hr.
Qed.

Section Copied.

Context {platform : Platform}.

Lemma target_after_flush buf :
  keeps targetOf
    (match last (map Some buf) None with
     | Some lastCustomer =>
         c <- deref lastCustomer ;;
         modify (with_pursuer (set_pointer (Some (createdAt c))))
     | None => ret tt
     end ;;
     detached Pursuer_storePointer ;;
     modify (with_pursuer (set_buffer []))).
Proof.
  assert (D : forall r, keeps targetOf (deref r)).
  { intros r s. unfold deref. destruct (nth_error (heap s) r); reflexivity. }
  assert (S : keeps targetOf Pursuer_storePointer).
  { unfold Pursuer_storePointer, writeFileSync_POINTER_STORE.
    apply keeps_bind; [apply keeps_gets|intros [d|]]; [|apply keeps_ret].
    apply keeps_bind; [destruct d; [apply keeps_throw|apply keeps_ret]|intros ?].
    keeps_modify. }
  apply keeps_bind.
  - destruct (last (map Some buf) None); [|apply keeps_ret].
    apply keeps_bind; [apply D|intros c]. keeps_modify.
  - intros _. apply keeps_bind.
    + apply keeps_detached; [|exact S].
      intros g [[? ? ? ? ? ?] ? ? ? ? ? ?]. reflexivity.
    + intros _. keeps_modify.
Qed.

Lemma flushBlock_target s batch :
  holds s (buffer (pursuer s)) batch ->
  exists pre post,
    target (world (snd (flushBlock s))) = target (world s) ++ pre
    /\ batch = pre ++ post.
Proof.
  intros Hh. unfold flushBlock. unfold bind at 1, gets at 1.
  rewrite (bind_ok _ _ _ _ _ (mapM_deref _ _ _ Hh)).
  unfold bind at 1. rewrite insertMany_run.
  destruct batch as [|d batch].
  { exists [], []. cbn [snd]. now rewrite app_nil_r. }
  destruct (insertOrdered_prefix (d :: batch) (target (world s))) as (pre & post & E & Eb).
  destruct (callOk s).
  - cbv zeta.
    set (s2 := with_world _ (afterCall (OpInsertMany Target) s)).
    assert (T2 : target (world s2) = target (world s) ++ pre).
    { subst s2. rewrite E. destruct s as [[? ? ? ? ? ?] ? ? ? ? ? ?]. reflexivity. }
    exists pre, post. split; [|exact Eb].
    destruct (snd (insertOrdered (d :: batch) (target (world s)))); [exact T2|].
    pose proof (target_after_flush (buffer (pursuer s)) s2) as K.
    unfold targetOf in K. rewrite K. exact T2.
  - exists [], (d :: batch). cbn [snd]. rewrite app_nil_r.
    split; [destruct s as [[? ? ? ? ? ?] ? ? ? ? ? ?]; reflexivity|reflexivity].
Qed.

Lemma createdAfter_later ts more c :
  StronglySorted Z.le (ts ++ more) ->
  createdAfter (lastOf (ts ++ more)) c -> createdAfter (lastOf ts) c.
Proof.
  intros Hs (t & Ht & Ha). exists t. split; [exact Ht|]. intros W HW.
  destruct (lastOf (ts ++ more)) as [W'|] eqn:E.
  - specialize (Ha W' eq_refl).
    pose proof (lastOf_bound _ Hs W W' (in_or_app _ _ _ (or_introl (lastOf_In _ _ HW))) E).
    lia.
  - exfalso. pose proof (lastOf_In _ _ HW) as Hin.
    destruct (exists_last_or_nil (ts ++ more)) as [E0|(front & x & E0)].
    + destruct ts; [contradiction|discriminate].
    + rewrite E0, lastOf_snoc in E. discriminate.
Qed.

Variable law : parsesBack.

Lemma loop_inserts s ts p :
  Inv s ts -> pointer (pursuer s) = Some p ->
  exists ins,
    target (world (snd (Pursuer_loop s))) = target (world s) ++ ins
    /\ Forall (createdAfter (lastOf ts)) ins.
Proof.
  intros HI Hp. rewrite (Pursuer_loop_run s p Hp).
  assert (Q : quietly s (afterCall (OpFind Source) s)).
  { pose proof (calm_storeCall (OpFind Source) eq_refl s) as Q.
    now rewrite storeCall_run in Q. }
  pose proof (Inv_quietly _ _ _ HI Q) as HI0.
  destruct (callOk s).
  2:{ exists []. cbn [snd]. rewrite app_nil_r.
      split; [destruct s as [[? ? ? ? ? ?] ? ? ? ? ? ?]; reflexivity|constructor]. }
  cbv zeta.
  set (docs := forwardQuery (Some p) _ _ _).
  assert (HI1 : Inv (fetchedInto docs (afterCall (OpFind Source) s)) ts).
  { apply Inv_fetched; [exact HI0|]. intros d Hd.
    apply In_forwardQuery in Hd. destruct Hd as [Hsrc Hgt].
    destruct HI as (_ & _ & _ & _ & Hptr & Hreal).
    unfold gtCreatedAt in Hgt.
    destruct (queryBound (Some p)) as [b|] eqn:Eb; [|discriminate].
    destruct (createdAt d) as [|t] eqn:Et; [discriminate|].
    exists t. split; [reflexivity|]. split; [apply (Hreal d t Hsrc Et)|].
    intros W HW. destruct (Hptr W HW) as [_ [F|F]]; [congruence|].
    rewrite Hp in F. injection F as ->. cbn in Eb. injection Eb as <-.
    now apply Z.ltb_lt. }
  destruct (buffered_facts docs s) as (_ & B2 & _).
  set (s1 := fetchedInto docs (afterCall (OpFind Source) s)) in *.
  destruct (flushDue _ _ _).
  2:{ exists []. cbn [snd]. rewrite app_nil_r. split; [exact B2|constructor]. }
  pose proof HI1 as (_ & _ & _ & Hb1 & _).
  destruct (bufferedAbove_holds s1 _ Hb1) as (batch & Hh & Hall).
  destruct (flushBlock_target s1 batch Hh) as (pre & post & T & Eb).
  exists pre. split; [rewrite T, B2; reflexivity|].
  apply Forall_forall. intros c Hc.
  destruct (Hall c) as (t & Ht & _ & Ha); [rewrite Eb; apply in_or_app; now left|].
  exists t. now split.
Qed.

Lemma loadPointer_target s :
  target (world (snd (Pursuer_loadPointer s))) = target (world s).
Proof.
  rewrite Pursuer_loadPointer_run.
  destruct (pointerStore (world s)); [|destruct (callOk s)]; cbn [snd];
    destruct s as [[? ? ? ? ? ?] ? [? ? ?] ? ? ? ?]; reflexivity.
Qed.

Lemma tick_inserts s ts :
  Inv s ts ->
  exists ins,
    target (world (snd (Pursuer_tick s))) = target (world s) ++ ins
    /\ Forall (createdAfter (lastOf ts)) ins.
Proof.
  intros HI. destruct (lockfile (world s)) eqn:Hl.
  - rewrite Pursuer_tick_locked by exact Hl. cbn [snd].
    exists []. rewrite app_nil_r.
    split; [destruct s as [[? ? ? ? ? ?] ? [? ? ?] ? ? ? ?]; reflexivity|constructor].
  - rewrite Pursuer_tick_unlocked by exact Hl.
    destruct (pointer (pursuer s)) as [p|] eqn:Hp.
    + now apply (loop_inserts s ts p).
    + destruct (Inv_load law s ts HI Hp) as (HI1 & Hfail & Hok & Hexit).
      pose proof (loadPointer_target s) as T0.
      destruct (fst (Pursuer_loadPointer s)) as [[]|e|c] eqn:E.
      * destruct (Hok eq_refl) as [-> Hp1].
        destruct (pointer (pursuer (snd (Pursuer_loadPointer s)))) as [p|] eqn:Hp';
          [|congruence].
        destruct (loop_inserts _ ts p HI1 Hp') as (ins & T & F).
        exists ins. split; [rewrite T, T0; reflexivity|exact F].
      * rewrite (Hfail e eq_refl). cbn [snd]. exists []. rewrite app_nil_r.
        split; [exact T0|constructor].
      * destruct (Hexit c eq_refl).
Qed.

Lemma alone_step e s ts :
  pursuerAlone e -> realSource e -> Inv s ts ->
  exists more ins,
    Inv (step e s) (ts ++ more)
    /\ target (world (step e s)) = target (world s) ++ ins
    /\ Forall (createdAfter (lastOf ts)) ins.
Proof.
  intros Ha Hr HI.
  assert (Hn : noReindex e) by (intros ->; exact Ha).
  destruct (Inv_step law e s ts Hn Hr HI) as (more & HI').
  exists more.
  assert (T : exists ins, target (world (step e s)) = target (world s) ++ ins
                          /\ Forall (createdAfter (lastOf ts)) ins).
  { destruct e as [t|src|tgt|held|tm|out|]; try contradiction.
    - destruct t; try contradiction.
      destruct (tick_inserts s ts HI) as (ins & T & F). exists ins.
      split; [|exact F]. unfold step, fire, detached.
      destruct (Pursuer_tick s) as [[a|e|c] s']; cbn [snd] in *; exact T.
    - exists []. rewrite app_nil_r. split; [|constructor].
      destruct s as [[? ? ? ? ? ?] ? ? ? ? ? ?]. reflexivity.
    - exists []. rewrite app_nil_r. split; [|constructor].
      destruct s as [[? ? ? ? ? ?] ? ? ? ? ? ?]. reflexivity.
    - exists []. rewrite app_nil_r. split; [|constructor].
      destruct s as [[? ? ? ? ? ?] ? ? ? ? ? ?]. reflexivity.
    - exists []. rewrite app_nil_r. split; [|constructor].
      destruct s as [[? ? ? ? ? ?] ? ? ? ? ? ?]. reflexivity. }
  destruct T as (ins & T & F). exists ins.
  split; [exact HI'|]. split; [exact T|exact F].
Qed.

Lemma alone_run es s ts :
  Forall pursuerAlone es -> Forall realSource es -> Inv s ts ->
  exists more ins,
    Inv (runOf es s) (ts ++ more)
    /\ target (world (runOf es s)) = target (world s) ++ ins
    /\ Forall (createdAfter (lastOf ts)) ins.
Proof.
  revert s ts. induction es as [|e es IH]; intros s ts Ha Hr HI.
  - exists [], []. rewrite !app_nil_r. split; [exact HI|]. split; [reflexivity|constructor].
  - inversion Ha; subst. inversion Hr; subst.
    destruct (alone_step e s ts) as (m1 & i1 & HI1 & T1 & F1); try assumption.
    destruct (IH (step e s) (ts ++ m1)) as (m2 & i2 & HI2 & T2 & F2); try assumption.
    exists (m1 ++ m2), (i1 ++ i2). rewrite app_assoc.
    split; [exact HI2|]. change (runOf (e :: es) s) with (runOf es (step e s)).
    split; [rewrite T2, T1; now rewrite app_assoc|].
    apply Forall_app. split; [exact F1|].
    destruct HI1 as (_ & Hs1 & _).
    eapply Forall_impl; [|exact F2]. intros c. apply createdAfter_later. exact Hs1.
Qed.

End Copied.


(* ------------------------------------------------------------------ *)
(** * More than one ['@']                                                *)
(* ------------------------------------------------------------------ *)

(** X15.  An email with a second ['@'] loses everything from that
    second ['@'] on: [split] cuts at every ['@'] and only the first two
    pieces are used. *)
Theorem anonymizeCustomer_drops_what_follows_a_second_at :
  forall s r c l m rest,
    nth_error (heap s) r = Some c ->
    email c = (l ++ "@" ++ m ++ "@" ++ rest)%string ->
    occurrences "@" l = 0%nat -> occurrences "@" m = 0%nat ->
    exists s' c',
      anonymizeCustomer r s = (Ok r, s')
      /\ nth_error (heap s') r = Some c'
      /\ email c' = (hex l ++ "@" ++ m)%string.
Proof.
  intros s r c l m rest H He Hl Hm.
  exists (with_heap (fun h => list_set h r (anonymized c)) s), (anonymized c).
  split; [apply anonymizeCustomer_run; exact H|].
  split; [eapply heap_after_set; exact H|].
  unfold anonymized. cbn [email]. rewrite He.
  change ("@" ++ m ++ "@" ++ rest)%string with (String "@" (m ++ String "@" rest)).
  rewrite (split_first "@" l _ Hl), (split_first "@" m _ Hm). reflexivity.
Qed.

(* ------------------------------------------------------------------ *)
(** * A pass of the Updater                                              *)
(* ------------------------------------------------------------------ *)

Lemma reconciled_id src t : _id (reconciled src t) = _id t.
Proof.
  unfold reconciled.
  destruct (hd_error (List.filter (byId (_id t)) src)) as [d|] eqn:E; [|reflexivity].
  rewrite anonymized_id.
  assert (Hin : In d (List.filter (byId (_id t)) src)).
  { destruct (List.filter _ _) as [|x l]; [discriminate|]. injection E as ->. now left. }
  apply filter_In in Hin. destruct Hin as [_ Hb]. unfold byId in Hb. now apply N.eqb_eq.
Qed.

Lemma reconciledAmong_id src done x : _id (reconciledAmong src done x) = _id x.
Proof.
  unfold reconciledAmong. destruct (hasId (_id x) done); [apply reconciled_id|reflexivity].
Qed.

(** Replacing, in a list whose ids are distinct, the record with the
    id of [t] changes that record and no other. *)
Lemma replaceFirst_map (h : Customer -> Customer) id doc (l : list Customer) :
  (forall x, _id (h x) = _id x) -> NoDup (map _id l) ->
  replaceFirst id doc (map h l) = map (fun x => if byId id x then doc else h x) l.
Proof.
  intros Hh. induction l as [|x l IH]; intros Hnd; [reflexivity|].
  cbn [map] in Hnd. inversion Hnd as [|? ? Hx Hnd']; subst.
  cbn [map replaceFirst].
  assert (Hb : byId id (h x) = byId id x) by (unfold byId; now rewrite Hh).
  rewrite Hb. destruct (byId id x) eqn:E.
  - f_equal. unfold byId in E. apply N.eqb_eq in E. subst id.
    apply map_ext_in. intros y Hy. unfold byId.
    destruct (N.eqb (_id y) (_id x)) eqn:E'; [|reflexivity].
    apply N.eqb_eq in E'. exfalso. apply Hx. rewrite <- E'. now apply in_map.
  - f_equal. now apply IH.
Qed.

Lemma reconcileStep_among src tg done t :
  NoDup (map _id tg) -> In t tg -> hasId (_id t) done = false ->
  reconcileStep src (map (reconciledAmong src done) tg) t
  = map (reconciledAmong src (done ++ [t])) tg.
Proof.
  intros Hnd Hin Hdone.
  assert (Hother : forall x, In x tg -> _id x <> _id t ->
            reconciledAmong src (done ++ [t]) x = reconciledAmong src done x).
  { intros x _ Hne. unfold reconciledAmong. rewrite hasId_app. cbn. unfold byId.
    apply N.eqb_neq in Hne. rewrite N.eqb_sym in Hne. rewrite Hne.
    now rewrite !orb_false_r. }
  assert (Hsame : forall x, In x tg -> _id x = _id t -> x = t).
  { intros x Hx E.
    clear - Hnd Hin Hx E. induction tg as [|y tg IH]; [contradiction|].
    cbn [map] in Hnd. inversion Hnd as [|? ? Hy Hnd']; subst.
    destruct Hx as [->|Hx], Hin as [->|Hin]; auto.
    - exfalso. apply Hy. rewrite E. now apply in_map.
    - exfalso. apply Hy. rewrite <- E. now apply in_map. }
  assert (Ht : reconciledAmong src (done ++ [t]) t = reconciled src t).
  { unfold reconciledAmong. rewrite hasId_app. cbn. unfold byId. rewrite N.eqb_refl.
    now rewrite orb_true_r. }
  assert (Hkeep : reconciled src t = t ->
            map (reconciledAmong src done) tg = map (reconciledAmong src (done ++ [t])) tg).
  { intros Hr. apply map_ext_in. intros x Hx.
    destruct (N.eq_dec (_id x) (_id t)) as [E|E].
    - rewrite (Hsame x Hx E), Ht, Hr. unfold reconciledAmong. now rewrite Hdone.
    - symmetry. now apply Hother. }
  unfold reconcileStep.
  destruct (hd_error (List.filter (byId (_id t)) src)) as [d|] eqn:Ed.
  - destruct (isEqual t (anonymized d)) eqn:Q.
    + apply Hkeep. unfold reconciled. rewrite Ed. symmetry. now apply isEqual_eq.
    + rewrite (replaceFirst_map _ _ _ _ (reconciledAmong_id src done) Hnd).
      apply map_ext_in. intros x Hx. unfold byId.
      destruct (N.eqb (_id x) (_id t)) eqn:E.
      * apply N.eqb_eq in E. rewrite (Hsame x Hx E), Ht. unfold reconciled.
        now rewrite Ed.
      * apply N.eqb_neq in E. symmetry. now apply Hother.
  - apply Hkeep. unfold reconciled. now rewrite Ed.
Qed.

Lemma fold_reconcileStep src tg rest done :
  NoDup (map _id tg) -> NoDup (map _id rest) ->
  (forall t, In t rest -> In t tg /\ hasId (_id t) done = false) ->
  fold_left (reconcileStep src) rest (map (reconciledAmong src done) tg)
  = map (reconciledAmong src (done ++ rest)) tg.
Proof.
  intros Hnd. revert done. induction rest as [|t rest IH]; intros done Hr Hin.
  - now rewrite app_nil_r.
  - cbn [fold_left]. destruct (Hin t (or_introl eq_refl)) as [Ht Hd].
    rewrite (reconcileStep_among src tg done t Hnd Ht Hd).
    cbn [map] in Hr. inversion Hr as [|? ? Hnotin Hr']; subst.
    rewrite IH; [now rewrite <- app_assoc|exact Hr'|].
    intros x Hx. destruct (Hin x (or_intror Hx)) as [Hxt Hxd]. split; [exact Hxt|].
    rewrite hasId_app, Hxd. cbn. unfold byId. rewrite orb_false_r.
    apply N.eqb_neq. intros E. apply Hnotin. rewrite E. now apply in_map.
Qed.

Lemma reconcile_all src tg docs :
  NoDup (map _id tg) -> Permutation docs tg ->
  fold_left (reconcileStep src) docs tg = map (reconciled src) tg.
Proof.
  intros Hnd Hp.
  assert (E0 : tg = map (reconciledAmong src []) tg).
  { symmetry. rewrite <- (map_id tg) at 2. apply map_ext. reflexivity. }
  rewrite E0 at 1.
  rewrite (fold_reconcileStep src tg docs [] Hnd).
  - cbn [app]. apply map_ext_in. intros x Hx. unfold reconciledAmong.
    replace (hasId (_id x) docs) with true; [reflexivity|].
    symmetry. unfold hasId. apply existsb_exists. exists x.
    split; [eapply Permutation_in; [symmetry; exact Hp|exact Hx]|].
    unfold byId. apply N.eqb_refl.
  - eapply Permutation_NoDup; [apply Permutation_map; symmetry; exact Hp|exact Hnd].
  - intros t Ht. split; [eapply Permutation_in; eauto|reflexivity].
Qed.

Section Pass.

Context {platform : Platform}.

Lemma Updater_run_unlocked s :
  lockfile (world s) = false -> storeUp s ->
  exists s1,
    Updater_run s = (Ok tt, s1)
    /\ cursor (updater s1) = Some (mkCursor (sortByCreatedAt (target (world s))) false)
    /\ afterOps s s1 (target (world s)) [OpFind Target]
    /\ rejections s1 = rejections s.
Proof.
  intros Hl Hup. unfold Updater_run, lockfile_checkSync. unfold bind at 1, gets at 1.
  rewrite Hl. unfold Updater_buildStream, cursor_close. unfold bind at 1, modify at 1.
  set (s0 := with_updater _ s).
  assert (Hup0 : storeUp s0) by (destruct s as [[? ? ? ? ? ?] ? ? ? ? ? ?]; exact Hup).
  rewrite (bind_ok _ _ _ _ _ (find_up Target all None None s0 Hup0)).
  cbv zeta. cbn [get_coll]. rewrite filter_all. unfold modify.
  eexists. split; [reflexivity|].
  pose proof (storeUp_afterCall (OpFind Target) s0 Hup0) as U.
  subst s0. destruct s as [[src tgt ps lk ck out] h p u tm tr rj].
  unfold afterOps. state_simpl.
  repeat match goal with |- _ /\ _ => split end; try reflexivity.
  intros _. exact U.
Qed.

Lemma fire_StreamData_unlocked t s :
  lockfile (world s) = false -> storeUp s ->
  exists s1,
    fire (StreamData t) s = (Ok tt, s1)
    /\ target (world s1) = reconcileStep (source (world s)) (target (world s)) t
    /\ targetWrites s1 = targetWrites s ++ reconcileWrites (source (world s)) t
    /\ source (world s1) = source (world s)
    /\ pointerStore (world s1) = pointerStore (world s)
    /\ lockfile (world s1) = false /\ storeUp s1
    /\ rejections s1 = rejections s
    /\ pointerWrites s1 = pointerWrites s.
Proof.
  intros Hl Hup.
  assert (E : fire (StreamData t) s = detached (Updater_onData t) s).
  { unfold fire, detached, Updater_onStreamData, lockfile_checkSync.
    unfold bind at 1, gets at 1. rewrite Hl. reflexivity. }
  rewrite E. unfold detached. rewrite (Updater_onData_up t s Hup).
  unfold reconcileStep, reconcileWrites.
  pose proof (storeUp_afterCall (OpFindOne Source) s Hup) as U1.
  destruct (hd_error (List.filter (byId (_id t)) (source (world s)))) as [d|].
  - cbv zeta.
    pose proof (storeUp_afterCall (OpUpdateOne Target)
                  (with_heap (fun h => h ++ [anonymized d])
                             (afterCall (OpFindOne Source) s))
                  (storeUp_with_heap _ _ U1)) as U2.
    destruct (isEqual t (anonymized d)); eexists; (split; [reflexivity|]);
      destruct s as [[src tgt ps lk ck out] h p u tm tr rj];
      unfold pointerWrites, targetWrites; state_simpl;
      rewrite ?flat_map_app, ?filter_app; cbn; rewrite ?app_nil_r;
      repeat match goal with |- _ /\ _ => split end; try reflexivity; assumption.
  - eexists. split; [reflexivity|].
    destruct s as [[src tgt ps lk ck out] h p u tm tr rj].
    unfold pointerWrites, targetWrites. state_simpl.
    rewrite ?flat_map_app, ?filter_app. cbn. rewrite ?app_nil_r.
    repeat match goal with |- _ /\ _ => split end; try reflexivity; assumption.
Qed.

Lemma pass_run docs s :
  lockfile (world s) = false -> storeUp s ->
  exists s',
    fireAll (map StreamData docs) s = (Ok tt, s')
    /\ target (world s')
       = fold_left (reconcileStep (source (world s))) docs (target (world s))
    /\ targetWrites s'
       = targetWrites s ++ flat_map (reconcileWrites (source (world s))) docs
    /\ source (world s') = source (world s)
    /\ pointerStore (world s') = pointerStore (world s)
    /\ rejections s' = rejections s
    /\ pointerWrites s' = pointerWrites s.
Proof.
  revert s. induction docs as [|t docs IH]; intros s Hl Hup.
  - exists s. cbn [flat_map]. rewrite app_nil_r. now repeat split.
  - destruct (fire_StreamData_unlocked t s Hl Hup)
      as (s1 & E1 & T1 & X1 & S1 & P1 & L1 & U1 & R1 & W1).
    destruct (IH s1 L1 U1) as (s' & E' & T' & X' & S' & P' & R' & W').
    exists s'. unfold fireAll in *. cbn [map forEach].
    rewrite (bind_ok _ _ _ _ _ E1). split; [exact E'|].
    cbn [fold_left flat_map]. rewrite T', T1, X', X1, S1, app_assoc.
    repeat match goal with |- _ /\ _ => split end; congruence.
Qed.

Lemma reconcileWrites_in_step src t : reconciled src t = t -> reconcileWrites src t = [].
Proof.
  unfold reconciled, reconcileWrites.
  destruct (hd_error (List.filter (byId (_id t)) src)) as [d|]; [|reflexivity].
  intros <-. now rewrite isEqual_refl.
Qed.

(** X16.  One pass of the Updater reconciles the target.  With the
    lock free, the store answering and distinct ids in the target:
    [run] opens a cursor over the target sorted by creation timestamp;
    once [onData] has been given each record of that cursor, every
    target record whose id exists in the source has become the
    anonymized source record of that id, and every other record is as
    it was, each in its place.  The pass touches neither the source
    nor the checkpoint file, none of its callbacks fails, and over a
    target that is already in step it writes nothing. *)
Theorem Updater_pass_reconciles_the_target :
  forall s,
    lockfile (world s) = false -> storeUp s ->
    NoDup (map _id (target (world s))) ->
    exists docs s1 s2,
      fire UpdaterRun s = (Ok tt, s1)
      /\ cursor (updater s1) = Some (mkCursor docs false)
      /\ docs = sortByCreatedAt (target (world s))
      /\ fireAll (map StreamData docs) s1 = (Ok tt, s2)
      /\ target (world s2) = map (reconciled (source (world s))) (target (world s))
      /\ ((forall t, In t (target (world s)) -> reconciled (source (world s)) t = t) ->
          targetWrites s2 = targetWrites s)
      /\ source (world s2) = source (world s)
      /\ pointerStore (world s2) = pointerStore (world s)
      /\ pointerWrites s2 = pointerWrites s
      /\ rejections s2 = rejections s.
Proof.
  intros s Hl Hup Hnd.
  destruct (Updater_run_unlocked s Hl Hup) as (s1 & E1 & C1 & A1 & R1).
  destruct A1 as (S1 & T1 & P1 & L1 & Tr1 & U1).
  destruct (pass_run (sortByCreatedAt (target (world s))) s1)
    as (s2 & E2 & T2 & X2 & S2 & P2 & R2 & W2).
  { now rewrite L1. }
  { now apply U1. }
  exists (sortByCreatedAt (target (world s))), s1, s2.
  split; [unfold fire, detached; now rewrite E1|].
  split; [exact C1|]. split; [reflexivity|]. split; [exact E2|].
  split.
  { rewrite T2, T1, S1. apply reconcile_all; [exact Hnd|apply sortByCreatedAt_perm]. }
  split.
  { intros Hstep. rewrite X2, S1.
    assert (F : flat_map (reconcileWrites (source (world s)))
                         (sortByCreatedAt (target (world s))) = []).
    { assert (G : forall l, (forall t, In t l -> In t (target (world s))) ->
                    flat_map (reconcileWrites (source (world s))) l = []).
      { induction l as [|t l IH]; intros Hl'; [reflexivity|]. cbn [flat_map].
        rewrite (reconcileWrites_in_step _ t (Hstep t (Hl' t (or_introl eq_refl)))).
        apply IH. intros x Hx. apply Hl'. now right. }
      apply G. intros t Ht. apply (proj1 (In_sortByCreatedAt _ _)). exact Ht. }
    rewrite F, app_nil_r. unfold targetWrites. rewrite Tr1, filter_app. cbn.
    now rewrite app_nil_r. }
  split; [congruence|]. split; [congruence|]. split; [|congruence].
  rewrite W2. unfold pointerWrites. rewrite Tr1, flat_map_app. cbn. now rewrite app_nil_r.
Qed.

End Pass.

(* ------------------------------------------------------------------ *)
(** * What reaches the target                                            *)
(* ------------------------------------------------------------------ *)

Section Preserves.

Variable K : Proc -> Prop.

Lemma preserves_ret {A} (a : A) : preserves K (ret a).
Proof. intros s H. exact H. Qed.

Lemma preserves_throw {A} e : preserves K (@throw A e).
Proof. intros s H. exact H. Qed.

Lemma preserves_exit {A} c : preserves K (@process_exit A c).
Proof. intros s H. exact H. Qed.

Lemma preserves_gets {A} (g : Proc -> A) : preserves K (gets g).
Proof. intros s H. exact H. Qed.

Lemma preserves_bind {A B} (m : JS A) (k : A -> JS B) :
  preserves K m -> (forall a, preserves K (k a)) -> preserves K (bind m k).
Proof.
  intros Hm Hk s H. unfold bind. specialize (Hm s H).
  destruct (m s) as [[a|e|c] s']; cbn [snd] in *; [|assumption..].
  now apply Hk.
Qed.

Hypothesis K_rejections : forall f s, K s -> K (with_rejections f s).

Lemma preserves_detached {A} (m : JS A) : preserves K m -> preserves K (detached m).
Proof.
  intros Hm s H. unfold detached. specialize (Hm s H).
  destruct (m s) as [[a|e|c] s']; cbn [snd] in *; auto.
Qed.

End Preserves.

Lemma settled_anonymizedOnly s s' : settled s s' -> anonymizedOnly s -> anonymizedOnly s'.
Proof.
  intros (T & H & B) (Kt & Kb). split; [now rewrite T|].
  intros r c Hr Hc. rewrite H in Hc. exact (Kb r c (B r Hr) Hc).
Qed.

Lemma settled_refl s : settled s s.
Proof. repeat split. apply incl_refl. Qed.

Lemma settled_trans s1 s2 s3 : settled s1 s2 -> settled s2 s3 -> settled s1 s3.
Proof.
  intros (T1 & H1 & B1) (T2 & H2 & B2). unfold settled.
  split; [congruence|]. split; [congruence|]. eapply incl_tran; eassumption.
Qed.

Lemma settled_call o s : settled s (afterCall o s).
Proof.
  destruct s as [[? ? ? ? ? ?] ? [? ? ?] ? ? ? ?]. repeat split. apply incl_refl.
Qed.

Lemma anonymizedOnly_more s more :
  Forall isAnonymized more -> anonymizedOnly s ->
  anonymizedOnly (with_heap (fun h => h ++ more) s).
Proof.
  intros Hm (Kt & Kb).
  destruct s as [[src tgt ps lk ck out] h [pp w b] u tm tr rj].
  unfold anonymizedOnly in *. state_simpl. split; [exact Kt|].
  intros r c Hr Hc. destruct (Nat.lt_ge_cases r (List.length h)) as [L|L].
  - rewrite nth_error_app1 in Hc by exact L. exact (Kb r c Hr Hc).
  - rewrite nth_error_app2 in Hc by exact L. apply nth_error_In in Hc.
    rewrite Forall_forall in Hm. now apply Hm.
Qed.

Lemma anonymizedOnly_fetched docs s :
  anonymizedOnly s -> anonymizedOnly (fetchedInto docs s).
Proof.
  intros H.
  assert (Hm : Forall isAnonymized (map anonymized docs)).
  { apply Forall_forall. intros c Hc. apply in_map_iff in Hc.
    destruct Hc as (d & <- & _). now exists d. }
  pose proof (anonymizedOnly_more s _ Hm H) as (Kt & Kb).
  destruct s as [[src tgt ps lk ck out] h [pp w b] u tm tr rj].
  unfold anonymizedOnly in *. state_simpl. split; [exact Kt|].
  intros r c Hr Hc. apply in_app_or in Hr. destruct Hr as [Hr|Hr].
  - exact (Kb r c Hr Hc).
  - apply in_seq in Hr. rewrite nth_error_app2 in Hc by lia.
    apply nth_error_In in Hc. rewrite Forall_forall in Hm. now apply Hm.
Qed.

Lemma anonymizedOnly_target tgt s :
  Forall isAnonymized tgt -> anonymizedOnly s ->
  anonymizedOnly (with_world (set_coll Target tgt) s).
Proof.
  intros Ht (Kt & Kb).
  destruct s as [[src tgt0 ps lk ck out] h [pp w b] u tm tr rj].
  split; [exact Ht|exact Kb].
Qed.

Lemma Forall_replaceFirst (P : Customer -> Prop) id doc l :
  P doc -> Forall P l -> Forall P (replaceFirst id doc l).
Proof.
  intros Hd. induction 1 as [|x l Hx Hl IH]; cbn [replaceFirst]; [constructor|].
  destruct (byId id x); constructor; assumption.
Qed.

Section Privacy.

Context {platform : Platform}.

Lemma anonymizedOnly_rejections f s : anonymizedOnly s -> anonymizedOnly (with_rejections f s).
Proof. destruct s as [[? ? ? ? ? ?] ? [? ? ?] ? ? ? ?]. exact (fun H => H). Qed.

Lemma private_storeCall o : preserves anonymizedOnly (storeCall o).
Proof.
  intros s H. rewrite storeCall_run. cbn [snd].
  exact (settled_anonymizedOnly _ _ (settled_call o s) H).
Qed.

Lemma private_settled_modify f :
  (forall s, settled s (f s)) -> preserves anonymizedOnly (modify f).
Proof. intros Hf s H. exact (settled_anonymizedOnly _ _ (Hf s) H). Qed.

Lemma private_find c flt lim skp : preserves anonymizedOnly (find c flt lim skp).
Proof.
  unfold find. apply preserves_bind; [apply private_storeCall|intros _].
  apply preserves_bind; [apply preserves_gets|intros ?]. apply preserves_ret.
Qed.

Lemma private_findOne c flt srt : preserves anonymizedOnly (findOne c flt srt).
Proof.
  unfold findOne. apply preserves_bind; [apply private_storeCall|intros _].
  apply preserves_bind; [apply preserves_gets|intros ?]. apply preserves_ret.
Qed.

Lemma private_insertOne doc :
  isAnonymized doc -> preserves anonymizedOnly (insertOne Target doc).
Proof.
  intros Hd s H. rewrite insertOne_run.
  pose proof (settled_anonymizedOnly _ _ (settled_call (OpInsertOne Target) s) H) as H1.
  destruct (callOk s); [|exact H1].
  destruct (hasId (_id doc) (target (world s))); [exact H1|]. cbn [snd].
  replace (with_world (fun w => set_coll Target (target w ++ [doc]) w)
                      (afterCall (OpInsertOne Target) s))
    with (with_world (set_coll Target (target (world s) ++ [doc]))
                     (afterCall (OpInsertOne Target) s))
    by (destruct s as [[? ? ? ? ? ?] ? ? ? ? ? ?]; reflexivity).
  apply anonymizedOnly_target; [|exact H1].
  apply Forall_app. split; [apply H|]. constructor; [exact Hd|constructor].
Qed.

Lemma private_updateOne id doc :
  isAnonymized doc -> preserves anonymizedOnly (updateOne Target id doc).
Proof.
  intros Hd s H. rewrite updateOne_run.
  pose proof (settled_anonymizedOnly _ _ (settled_call (OpUpdateOne Target) s) H) as H1.
  destruct (callOk s); [|exact H1]. cbn [snd].
  replace (with_world (fun w => set_coll Target (replaceFirst id doc (target w)) w)
                      (afterCall (OpUpdateOne Target) s))
    with (with_world (set_coll Target (replaceFirst id doc (target (world s))))
                     (afterCall (OpUpdateOne Target) s))
    by (destruct s as [[? ? ? ? ? ?] ? ? ? ? ? ?]; reflexivity).
  apply anonymizedOnly_target; [|exact H1].
  apply Forall_replaceFirst; [exact Hd|apply H].
Qed.

(** The record handed on after [anonymizeCustomer] is an anonymized
    one. *)
Lemma private_fresh_anonymize_deref {B} doc (k : Customer -> JS B) :
  (forall nt, isAnonymized nt -> preserves anonymizedOnly (k nt)) ->
  preserves anonymizedOnly
    (sourceCustomer <- fresh doc ;;
     newTargetCustomer <- anonymizeCustomer sourceCustomer ;;
     nt <- deref newTargetCustomer ;;
     k nt).
Proof.
  intros Hk s H. rewrite fresh_anonymize_deref.
  apply Hk; [now exists doc|].
  apply anonymizedOnly_more; [|exact H].
  constructor; [now exists doc|constructor].
Qed.

Lemma private_reindexUpdate docs last : preserves anonymizedOnly (reindexUpdate docs last).
Proof.
  revert last. induction docs as [|d docs IH]; intros last; cbn [reindexUpdate].
  - apply preserves_ret.
  - apply preserves_bind; [apply private_findOne|intros [doc|]]; [|apply IH].
    apply private_fresh_anonymize_deref. intros nt Hnt.
    apply preserves_bind; [|intros _; apply IH].
    destruct (isEqual d nt); [apply preserves_ret|now apply private_updateOne].
Qed.

Lemma private_reindexInsert docs last : preserves anonymizedOnly (reindexInsert docs last).
Proof.
  revert last. induction docs as [|d docs IH]; intros last; cbn [reindexInsert].
  - apply preserves_ret.
  - apply private_fresh_anonymize_deref. intros nt Hnt.
    apply preserves_bind; [now apply private_insertOne|intros _; apply IH].
Qed.

Lemma private_write raw : preserves anonymizedOnly (writeFileSync_POINTER_STORE raw).
Proof.
  apply private_settled_modify. intros [[? ? ? ? ? ?] ? [? ? ?] ? ? ? ?].
  repeat split. apply incl_refl.
Qed.

Lemma private_fullReindex : preserves anonymizedOnly fullReindex.
Proof.
  unfold fullReindex.
  apply preserves_bind; [apply private_find|intros docs].
  apply preserves_bind; [apply private_reindexUpdate|intros last].
  apply preserves_bind.
  - destruct last; [apply preserves_ret|].
    apply preserves_bind; [apply private_findOne|intros [c|]]; apply preserves_ret.
  - intros [start|]; [|apply preserves_ret].
    apply preserves_bind; [apply private_find|intros docs2].
    apply preserves_bind; [apply private_reindexInsert|intros d].
    apply preserves_bind; [|intros raw; apply private_write].
    destruct d; [apply preserves_throw|apply preserves_ret].
Qed.

Lemma private_Updater_run : preserves anonymizedOnly Updater_run.
Proof.
  unfold Updater_run, lockfile_checkSync, setTimeout, Updater_buildStream, cursor_close.
  apply preserves_bind; [apply preserves_gets|intros [|]].
  - apply private_settled_modify. intros [[? ? ? ? ? ?] ? [? ? ?] ? ? ? ?].
    repeat split. apply incl_refl.
  - apply preserves_bind.
    + apply private_settled_modify. intros [[? ? ? ? ? ?] ? [? ? ?] ? ? ? ?].
      repeat split. apply incl_refl.
    + intros _. apply preserves_bind; [apply private_find|intros docs].
      apply private_settled_modify. intros [[? ? ? ? ? ?] ? [? ? ?] ? ? ? ?].
      repeat split. apply incl_refl.
Qed.

Lemma private_Updater_onData t : preserves anonymizedOnly (Updater_onData t).
Proof.
  unfold Updater_onData.
  apply preserves_bind; [apply private_findOne|intros [doc|]]; [|apply preserves_ret].
  apply private_fresh_anonymize_deref. intros nt Hnt.
  destruct (isEqual t nt); [apply preserves_ret|now apply private_updateOne].
Qed.

Lemma private_Updater_onStreamData t : preserves anonymizedOnly (Updater_onStreamData t).
Proof.
  unfold Updater_onStreamData, lockfile_checkSync, cursor_close.
  apply preserves_bind; [apply preserves_gets|intros [|]]; cbn [negb].
  - apply preserves_bind; [|intros _; apply private_Updater_run].
    apply private_settled_modify. intros [[? ? ? ? ? ?] ? [? ? ?] ? ? ? ?].
    repeat split. apply incl_refl.
  - apply private_Updater_onData.
Qed.

(** The end of the flush, after the bulk insert. *)
Lemma settled_flush_tail buf s :
  settled s
    (snd ((match last (map Some buf) None with
           | Some lastCustomer =>
               c <- deref lastCustomer ;;
               modify (with_pursuer (set_pointer (Some (createdAt c))))
           | None => ret tt
           end ;;
           detached Pursuer_storePointer ;;
           modify (with_pursuer (set_buffer []))) s)).
Proof.
  revert s. change (always settled
    (match last (map Some buf) None with
     | Some lastCustomer =>
         c <- deref lastCustomer ;;
         modify (with_pursuer (set_pointer (Some (createdAt c))))
     | None => ret tt
     end ;;
     detached Pursuer_storePointer ;;
     modify (with_pursuer (set_buffer [])))).
  assert (P : forall f, always settled (modify (with_pursuer (set_pointer f)))).
  { intros f [[? ? ? ? ? ?] ? [? ? ?] ? ? ? ?]. repeat split. apply incl_refl. }
  assert (D : forall r, always settled (deref r)).
  { intros r s. unfold deref. destruct (nth_error (heap s) r); apply settled_refl. }
  assert (S : always settled Pursuer_storePointer).
  { unfold Pursuer_storePointer, writeFileSync_POINTER_STORE.
    apply (always_bind _ settled_trans); [apply (always_gets _ settled_refl)|intros [d|]];
      [|apply (always_ret _ settled_refl)].
    apply (always_bind _ settled_trans).
    - destruct d; [apply (always_throw _ settled_refl)|apply (always_ret _ settled_refl)].
    - intros raw [[? ? ? ? ? ?] ? [? ? ?] ? ? ? ?]. repeat split. apply incl_refl. }
  apply (always_bind _ settled_trans).
  - destruct (last (map Some buf) None); [|apply (always_ret _ settled_refl)].
    apply (always_bind _ settled_trans); [apply D|intros c; apply P].
  - intros _. apply (always_bind _ settled_trans).
    + apply always_detached; [|exact S].
      intros s s' f H. destruct s' as [[? ? ? ? ? ?] ? [? ? ?] ? ? ? ?]. exact H.
    + intros _ [[? ? ? ? ? ?] ? [? ? ?] ? ? ? ?]. repeat split. intros x [].
Qed.

Lemma private_flushBlock : preserves anonymizedOnly flushBlock.
Proof.
  intros s H. unfold flushBlock. unfold bind at 1, gets at 1.
  destruct (mapM_deref_cases (buffer (pursuer s)) s) as [(batch & E & Hh)|E].
  2:{ rewrite (bind_throw _ _ _ _ _ E). exact H. }
  rewrite (bind_ok _ _ _ _ _ E). unfold bind at 1. rewrite insertMany_run.
  destruct batch as [|d batch]; [exact H|].
  assert (Hb : Forall isAnonymized (d :: batch)).
  { destruct H as [_ Kb]. unfold holds in Hh. clear - Hh Kb.
    induction Hh as [|r c refs docs Hr _ IH]; constructor.
    - apply (Kb r c (or_introl eq_refl) Hr).
    - apply IH. intros r' c' Hin. apply Kb. now right. }
  pose proof (settled_anonymizedOnly _ _ (settled_call (OpInsertMany Target) s) H) as H1.
  destruct (callOk s); [|exact H1]. cbv zeta.
  destruct (insertOrdered_prefix (d :: batch) (target (world s))) as (pre & post & Ep & Eb).
  set (s2 := with_world _ (afterCall (OpInsertMany Target) s)).
  assert (H2 : anonymizedOnly s2).
  { subst s2. apply anonymizedOnly_target; [|exact H1]. rewrite Ep.
    apply Forall_app. split; [apply H|].
    rewrite Eb in Hb. apply Forall_app in Hb. apply Hb. }
  destruct (snd (insertOrdered (d :: batch) (target (world s)))); [exact H2|].
  exact (settled_anonymizedOnly _ _ (settled_flush_tail (buffer (pursuer s)) s2) H2).
Qed.

Lemma private_Pursuer_loadPointer : preserves anonymizedOnly Pursuer_loadPointer.
Proof.
  intros s H. rewrite Pursuer_loadPointer_run.
  assert (G : forall d s0, anonymizedOnly s0 ->
                anonymizedOnly (with_pursuer (set_pointer d) s0)).
  { intros d [[? ? ? ? ? ?] ? [? ? ?] ? ? ? ?]. exact (fun K => K). }
  pose proof (settled_anonymizedOnly _ _ (settled_call (OpFindOne Source) s) H) as H1.
  destruct (pointerStore (world s)); [apply G; exact H|].
  destruct (callOk s); cbn [snd]; [apply G; exact H1|exact H1].
Qed.

Lemma private_Pursuer_loop : preserves anonymizedOnly Pursuer_loop.
Proof.
  assert (L : forall s p, pointer (pursuer s) = Some p ->
                anonymizedOnly s -> anonymizedOnly (snd (Pursuer_loop s))).
  { intros s p Hp H. rewrite (Pursuer_loop_run s p Hp).
    pose proof (settled_anonymizedOnly _ _ (settled_call (OpFind Source) s) H) as H1.
    destruct (callOk s); [|exact H1]. cbv zeta.
    pose proof (anonymizedOnly_fetched
                  (forwardQuery (Some p) (window (pursuer s))
                     (List.length (buffer (pursuer s))) (source (world s)))
                  _ H1) as H2.
    destruct (flushDue _ _ _); [|exact H2].
    now apply private_flushBlock. }
  intros s H. destruct (pointer (pursuer s)) as [p|] eqn:Hp; [now apply (L s p)|].
  pose proof (private_Pursuer_loadPointer s H) as H0.
  destruct (Pursuer_loadPointer s) as [[[]|e0|c0] s0] eqn:E0; cbn [snd] in H0.
  - destruct (pointer (pursuer s0)) as [p0|] eqn:Hp0.
    + rewrite (Pursuer_loop_after_load s s0 Hp E0) by congruence. now apply (L s0 p0).
    + exfalso. rewrite Pursuer_loadPointer_run in E0.
      destruct (pointerStore (world s)); [|destruct (callOk s); [|discriminate]];
        injection E0 as <-;
        destruct s as [[? ? ? ? ? ?] ? [? ? ?] ? ? ? ?]; discriminate.
  - rewrite (Pursuer_loop_load_fails s e0 s0 Hp E0). exact H0.
  - exfalso. rewrite Pursuer_loadPointer_run in E0.
    destruct (pointerStore (world s)); [discriminate|].
    destruct (callOk s); discriminate.
Qed.

Lemma private_Pursuer_tick : preserves anonymizedOnly Pursuer_tick.
Proof.
  unfold Pursuer_tick, lockfile_checkSync.
  apply preserves_bind; [apply preserves_gets|intros [|]]; cbn [negb].
  - apply private_settled_modify. intros [[? ? ? ? ? ?] ? [? ? ?] ? ? ? ?].
    repeat split. apply incl_refl.
  - apply private_Pursuer_loop.
Qed.

Lemma private_fire t : preserves anonymizedOnly (fire t).
Proof.
  unfold fire. apply preserves_detached; [apply anonymizedOnly_rejections|].
  destruct t; unfold Updater_onStreamEnd;
    auto using private_Pursuer_tick, private_Updater_run, private_Updater_onStreamData.
Qed.

Lemma private_run cfg s :
  buffer (pursuer s) = [] -> Forall isAnonymized (target (world s)) ->
  anonymizedOnly (snd (run cfg s)).
Proof.
  intros Hb Ht.
  assert (H : anonymizedOnly s).
  { split; [exact Ht|]. intros r c Hr. rewrite Hb in Hr. destruct Hr. }
  clear Hb Ht. revert s H. unfold run.
  destruct (unset (DB_URI cfg) || unset (SOURCE_COLLECTION cfg)
            || unset (TARGET_COLLECTION cfg)); [apply preserves_ret|].
  cbv zeta. apply preserves_bind.
  - destruct (existsb _ _); [|apply preserves_ret].
    unfold lockfile_checkSync.
    apply preserves_bind; [apply preserves_gets|intros ?; apply preserves_ret].
  - intros [|].
    + unfold lockfile_lockSync, lockfile_unlockSync, lockfile_checkSync.
      apply preserves_bind.
      * apply preserves_bind; [apply preserves_gets|intros [|]];
          [apply preserves_throw|].
        apply private_settled_modify. intros [[? ? ? ? ? ?] ? [? ? ?] ? ? ? ?].
        repeat split. apply incl_refl.
      * intros _. apply preserves_bind; [apply private_fullReindex|intros _].
        apply preserves_bind; [|intros _; apply preserves_exit].
        apply private_settled_modify. intros [[? ? ? ? ? ?] ? [? ? ?] ? ? ? ?].
        repeat split. apply incl_refl.
    + unfold Pursuer_run, setInterval.
      apply preserves_bind.
      * apply private_settled_modify. intros [[? ? ? ? ? ?] ? [? ? ?] ? ? ? ?].
        repeat split. intros x [].
      * intros _. apply preserves_bind.
        -- apply private_settled_modify. intros [[? ? ? ? ? ?] ? [? ? ?] ? ? ? ?].
           repeat split. apply incl_refl.
        -- intros _. apply preserves_bind; [|intros _; apply private_Updater_run].
           apply private_settled_modify. intros [[? ? ? ? ? ?] ? [? ? ?] ? ? ? ?].
           repeat split. apply incl_refl.
Qed.

Lemma private_step e s :
  bringsAnonymized e -> anonymizedOnly s -> anonymizedOnly (step e s).
Proof.
  intros He H. destruct e as [t|src|tgt|held|tm|out|]; cbn [step].
  - now apply private_fire.
  - destruct s as [[? ? ? ? ? ?] ? [? ? ?] ? ? ? ?]. exact H.
  - apply anonymizedOnly_target; [exact He|exact H].
  - destruct s as [[? ? ? ? ? ?] ? [? ? ?] ? ? ? ?]. exact H.
  - destruct s as [[? ? ? ? ? ?] ? [? ? ?] ? ? ? ?]. exact H.
  - destruct s as [[? ? ? ? ? ?] ? [? ? ?] ? ? ? ?]. exact H.
  - assert (R : anonymizedOnly (snd (fullReindex (idle (world s))))).
    { apply private_fullReindex. split; [apply H|]. intros r c []. }
    destruct R as [Rt _]. destruct H as [_ Kb].
    destruct s as [w h [pp wd b] u tmr tr rj]. split; [exact Rt|exact Kb].
Qed.

Lemma anonymized_fields d :
  isHex8 (firstName (anonymized d)) /\ isHex8 (lastName (anonymized d))
  /\ isHex8 (line1 (address (anonymized d)))
  /\ isHex8 (line2 (address (anonymized d)))
  /\ isHex8 (postcode (address (anonymized d)))
  /\ exists l rest,
       email (anonymized d) = (l ++ "@" ++ rest)%string
       /\ isHex8 l /\ occurrences "@" rest = 0%nat.
Proof.
  repeat match goal with |- _ /\ _ => split end; try apply hex_isHex8.
  exists (hex (hd EmptyString (split "@" (email d)))),
         (template (nth_error (split "@" (email d)) 1)).
  split; [reflexivity|]. split; [apply hex_isHex8|].
  destruct (nth_error (split "@" (email d)) 1) as [p|] eqn:E; cbn [template].
  - pose proof (split_pieces_clean "@" (email d)) as F.
    rewrite Forall_forall in F. apply F. eapply nth_error_In; eauto.
  - reflexivity.
Qed.

(** X17.  Only anonymized records reach the target.  Start the program
    in either mode on a target that holds anonymized records only; let
    callbacks fire, the lock change hands, the store fail, the source
    change and other processes reindex, in any order, other clients
    writing anonymized records only.  Then every record of the target
    is a record as [anonymizeCustomer] leaves one: first name, last
    name, address lines and postcode are eight hexadecimal digits, and
    the email is an eight-digit digest, ['@'], and a rest without
    ['@'].  Every write of the program to the target ([insertMany] of
    the Pursuer's buffer, [insertOne] and [updateOne] of
    [fullReindex], [updateOne] of the Updater) takes its record from
    [anonymizeCustomer]. *)
Theorem target_only_receives_anonymized_records :
  forall cfg s es c,
    buffer (pursuer s) = [] ->
    Forall isAnonymized (target (world s)) ->
    Forall bringsAnonymized es ->
    In c (target (world (runOf es (snd (run cfg s))))) ->
    (exists d, c = anonymized d)
    /\ isHex8 (firstName c) /\ isHex8 (lastName c)
    /\ isHex8 (line1 (address c)) /\ isHex8 (line2 (address c))
    /\ isHex8 (postcode (address c))
    /\ exists l rest,
         email c = (l ++ "@" ++ rest)%string /\ isHex8 l /\ occurrences "@" rest = 0%nat.
Proof.
  intros cfg s es c Hb Ht Hes Hc.
  assert (H : anonymizedOnly (runOf es (snd (run cfg s)))).
  { pose proof (private_run cfg s Hb Ht) as H0. revert H0.
    generalize (snd (run cfg s)). clear - Hes.
    induction es as [|e es IH]; intros s0 H0; [exact H0|].
    inversion Hes; subst. cbn [runOf fold_left]. apply IH; [assumption|].
    now apply private_step. }
  destruct H as [Kt _]. rewrite Forall_forall in Kt.
  destruct (Kt c Hc) as (d & ->). split; [now exists d|]. apply anonymized_fields.
Qed.

End Privacy.

(* ------------------------------------------------------------------ *)
(** * The lock and the continuous mode                                   *)
(* ------------------------------------------------------------------ *)

Section LockAlone.

Context {platform : Platform}.

Lemma lock_with_pursuer f : keeps lockOf (modify (with_pursuer f)).
Proof. keeps_modify. Qed.

Lemma lock_with_updater f : keeps lockOf (modify (with_updater f)).
Proof. keeps_modify. Qed.

Lemma lock_with_timers f : keeps lockOf (modify (with_timers f)).
Proof. keeps_modify. Qed.

Hint Resolve lock_with_pursuer lock_with_updater lock_with_timers : keeps.

Lemma lock_Pursuer_loadPointer : keeps lockOf Pursuer_loadPointer.
Proof.
  unfold Pursuer_loadPointer, existsSync_POINTER_STORE, readFileSync_POINTER_STORE,
    Date_now.
  repeat (auto with keeps || keeps_step).
Qed.

Lemma lock_Pursuer_storePointer : keeps lockOf Pursuer_storePointer.
Proof.
  unfold Pursuer_storePointer.
  repeat (auto using lock_toISOString with keeps || keeps_step).
Qed.

Lemma lock_Pursuer_loop : keeps lockOf Pursuer_loop.
Proof.
  unfold Pursuer_loop, buffer_length.
  repeat (auto using lock_Pursuer_loadPointer with keeps
          || keeps_step
          || (apply keeps_detached;
              [intros ? [[? ? ? ? ? ?] ? ? ? ? ? ?]; reflexivity
              |apply lock_Pursuer_storePointer])).
Qed.

Lemma lock_Pursuer_tick : keeps lockOf Pursuer_tick.
Proof.
  unfold Pursuer_tick, lockfile_checkSync.
  repeat (auto using lock_Pursuer_loop with keeps || keeps_step).
Qed.

Lemma lock_Updater_run : keeps lockOf Updater_run.
Proof.
  unfold Updater_run, lockfile_checkSync, setTimeout, Updater_buildStream, cursor_close.
  repeat (auto with keeps || keeps_step).
Qed.

Lemma lock_Updater_onStreamData t : keeps lockOf (Updater_onStreamData t).
Proof.
  unfold Updater_onStreamData, Updater_onData, lockfile_checkSync, cursor_close.
  repeat (auto using lock_Updater_run with keeps || keeps_step).
Qed.

Lemma lock_fire t : keeps lockOf (fire t).
Proof.
  unfold fire. apply keeps_detached.
  - intros ? [[? ? ? ? ? ?] ? ? ? ? ? ?]. reflexivity.
  - destruct t; unfold Updater_onStreamEnd;
      auto using lock_Pursuer_tick, lock_Updater_run, lock_Updater_onStreamData.
Qed.

Lemma step_lock e s : leavesLock e -> lockfile (world (step e s)) = lockfile (world s).
Proof.
  intros He. destruct e as [t|src|tgt|held|tm|out|]; cbn [step]; try contradiction.
  - apply (lock_fire t s).
  - destruct s as [[? ? ? ? ? ?] ? ? ? ? ? ?]. reflexivity.
  - destruct s as [[? ? ? ? ? ?] ? ? ? ? ? ?]. reflexivity.
  - destruct s as [[? ? ? ? ? ?] ? ? ? ? ? ?]. reflexivity.
  - destruct s as [[? ? ? ? ? ?] ? ? ? ? ? ?]. reflexivity.
  - destruct s as [w h p u tmr tr rj]. cbn. apply (lock_fullReindex (idle w)).
Qed.

Lemma existsb_eqb_absent x l : ~ In x l -> existsb (String.eqb x) l = false.
Proof.
  intros H. destruct (existsb (String.eqb x) l) eqn:E; [|reflexivity].
  exfalso. apply existsb_exists in E. destruct E as (y & Hy & Ey).
  apply String.eqb_eq in Ey. subst y. now apply H.
Qed.

(** X18.  The continuous mode never touches the lock.  When [run] is
    started without the flag, or with the flag while the lock is held,
    it leaves the lock as it found it, and so does every callback of
    the Pursuer and the Updater afterwards, whatever happens to the
    collections, the clock and the store meanwhile: the callbacks read
    the lock and never take or release it.  Only the full-reindex
    branch of [run] does. *)
Theorem continuous_mode_never_touches_the_lock :
  forall cfg s es,
    ~ fullReindexRequested cfg \/ lockfile (world s) = true ->
    Forall leavesLock es ->
    lockfile (world (snd (run cfg s))) = lockfile (world s)
    /\ lockfile (world (runOf es (snd (run cfg s)))) = lockfile (world s).
Proof.
  intros cfg s es Hmode Hes.
  assert (Hrun : lockOf (snd (run cfg s)) = lockOf s).
  { unfold run.
    destruct (unset (DB_URI cfg) || unset (SOURCE_COLLECTION cfg)
              || unset (TARGET_COLLECTION cfg)); [reflexivity|].
    cbv zeta.
    assert (E : (if existsb (String.eqb IS_FULL_REINDEX) (argv cfg)
                 then held <- lockfile_checkSync ;; ret (negb held)
                 else ret false) s = (Ok false, s)).
    { destruct Hmode as [Hno|Hheld].
      - now rewrite (existsb_eqb_absent _ _ Hno).
      - destruct (existsb _ _); [|reflexivity].
        unfold lockfile_checkSync, bind, gets, ret. now rewrite Hheld. }
    rewrite (bind_ok _ _ _ _ _ E).
    revert s Hmode E. intros s _ _. revert s.
    change (keeps lockOf
              (modify (with_pursuer (fun _ => new_Pursuer cfg)) ;;
               Pursuer_run ;;
               modify (with_updater (fun _ => new_Updater)) ;;
               Updater_run)).
    unfold Pursuer_run, setInterval.
    repeat (auto using lock_Updater_run with keeps || keeps_step). }
  unfold lockOf in Hrun. split; [exact Hrun|]. rewrite <- Hrun.
  apply (runOf_related (fun a b => lockfile (world b) = lockfile (world a)) leavesLock);
    [reflexivity|intros; congruence|intros; now apply step_lock|exact Hes].
Qed.

End LockAlone.

(* ------------------------------------------------------------------ *)
(** * A checkpoint file that does not parse                              *)
(* ------------------------------------------------------------------ *)

Section Unparsable.

Context {platform : Platform}.

Lemma loaded_unparsable s raw :
  pointerStore (world s) = Some raw -> Date_parse raw = InvalidDate ->
  pointer (pursuer s) = None ->
  loaded s = with_pursuer (set_pointer (Some InvalidDate)) s.
Proof.
  intros Hf Hraw Hp. unfold loaded.
  rewrite Hp, (Pursuer_loadPointer_stored s raw Hf). cbn [snd]. now rewrite Hraw.
Qed.

(** C10 (as amended): loading the checkpoint from an existing file
    never fails, whatever the contents, and contents that do not parse
    yield an invalid date.  The query built from it does not select
    nothing: the driver sends an invalid date as 1970-01-01, so the
    query selects the source's records created after that instant,
    and the Forward Syncer starts over from the oldest of them.  With
    an empty buffer, the lock free, the store answering and those
    records [newer] fewer than the window, the first tick fetches and
    buffers them all without an error, the checkpoint in memory being
    the invalid date and the file as it was.  The next tick flushes:
    if none of them is in the target yet they are inserted, and the
    last one's creation timestamp becomes the checkpoint and replaces
    the contents of the file; if one of them is in the target already
    the bulk insert is refused with a duplicate key error, and the
    file stays as it was. *)
Theorem C10_unparsable_checkpoint_restarts_from_the_epoch :
  forall s raw newer,
    pointerStore (world s) = Some raw ->
    Date_parse raw = InvalidDate ->
    buffer (pursuer s) = [] -> pointer (pursuer s) = None ->
    lockfile (world s) = false -> storeUp s ->
    newer = sortByCreatedAt (List.filter (gtCreatedAt (Some 0)) (source (world s))) ->
    Z.of_nat (List.length newer) < window (pursuer s) ->
    (forall s0 raw0,
        pointerStore (world s0) = Some raw0 ->
        Pursuer_loadPointer s0
        = (Ok tt, with_pursuer (set_pointer (Some (Date_parse raw0))) s0))
    /\ Pursuer_loadPointer s
       = (Ok tt, with_pursuer (set_pointer (Some InvalidDate)) s)
    /\ forwardQuery (Some InvalidDate) (window (pursuer s)) 0 (source (world s)) = newer
    /\ exists s1,
         Pursuer_tick s = (Ok tt, s1)
         /\ holds s1 (buffer (pursuer s1)) (map anonymized newer)
         /\ pointer (pursuer s1) = Some InvalidDate
         /\ target (world s1) = target (world s)
         /\ pointerStore (world s1) = Some raw
         /\ (forall front c t,
               newer = front ++ [c] -> createdAt c = ValidDate t ->
               freshIds (target (world s)) newer ->
               exists s2,
                 Pursuer_tick s1 = (Ok tt, s2)
                 /\ target (world s2) = target (world s) ++ map anonymized newer
                 /\ pointer (pursuer s2) = Some (ValidDate t)
                 /\ pointerStore (world s2) = Some (toISO t)
                 /\ buffer (pursuer s2) = [])
         /\ (forall c,
               In c newer -> hasId (_id c) (target (world s)) = true ->
               exists id s2,
                 Pursuer_tick s1 = (Throw (DuplicateKey id), s2)
                 /\ pointerStore (world s2) = Some raw
                 /\ pointerWrites s2 = pointerWrites s1
                 /\ exists more, buffer (pursuer s2) = buffer (pursuer s1) ++ more).
Proof.
  intros s raw newer Hf Hraw Hb Hp Hl Hup Hnewer Hw.
  split; [intros s0 raw0 H0; apply (Pursuer_loadPointer_stored s0 raw0 H0)|].
  split; [rewrite (Pursuer_loadPointer_stored s raw Hf), Hraw; reflexivity|].
  assert (Hq1 : forwardQuery (Some InvalidDate) (window (pursuer s)) 0 (source (world s))
                = newer).
  { unfold forwardQuery. cbn [queryBound]. rewrite <- Hnewer.
    cbn [skipn Z.of_nat]. rewrite Z.sub_0_r.
    unfold limitTo. destruct (Z.eqb_spec (window (pursuer s)) 0); [reflexivity|].
    apply firstn_all2. lia. }
  split; [exact Hq1|].
  set (s0 := with_pursuer (set_pointer (Some InvalidDate)) s).
  assert (Hls : loaded s = s0) by (apply (loaded_unparsable s raw); assumption).
  assert (S0 : source (world s0) = source (world s)
               /\ target (world s0) = target (world s)
               /\ pointerStore (world s0) = pointerStore (world s)
               /\ lockfile (world s0) = lockfile (world s)
               /\ pointer (pursuer s0) = Some InvalidDate
               /\ window (pursuer s0) = window (pursuer s)
               /\ buffer (pursuer s0) = buffer (pursuer s)
               /\ heap s0 = heap s
               /\ (storeUp s -> storeUp s0)).
  { subst s0. destruct s as [[src tgt ps lk ck out] h [pp w b] u tm tr rj].
    repeat split; auto. }
  destruct S0 as (A1 & A2 & A3 & A4 & A5 & A6 & A7 & A8 & A9).
  assert (Hh0 : holds s (buffer (pursuer s)) []) by (rewrite Hb; constructor).
  (* the first tick *)
  pose proof (Pursuer_tick_buffers s [] Hl Hup Hh0) as T1. cbv zeta in T1.
  rewrite Hls, A5 in T1. cbn [List.length app] in T1. rewrite Hq1 in T1.
  assert (T1' : Pursuer_tick s = (Ok tt, fetchedInto newer (afterCall (OpFind Source) s0))).
  { apply T1; [|reflexivity]. rewrite length_map. lia. }
  clear T1.
  set (s1 := fetchedInto newer (afterCall (OpFind Source) s0)) in *.
  destruct (buffered_facts newer s0) as (B1 & B2 & B3 & B4 & B5 & B6 & _ & B8).
  fold s1 in B1, B2, B3, B4, B5, B6, B8.
  assert (Hh1 : holds s1 (buffer (pursuer s1)) (map anonymized newer)).
  { apply (holds_fetchedInto s0 [] [] newer (OpFind Source)); [constructor|].
    rewrite A7. exact Hb. }
  assert (Hl1 : lockfile (world s1) = false) by (rewrite B4, A4; exact Hl).
  assert (Hup1 : storeUp s1) by (apply B8, A9, Hup).
  assert (P1 : pointer (pursuer s1) = Some InvalidDate) by (rewrite B5; exact A5).
  exists s1. split; [exact T1'|]. split; [exact Hh1|].
  split; [exact P1|]. split; [rewrite B2; exact A2|].
  split; [rewrite B3, A3; exact Hf|]. split.
  - (* the second tick, the records not in the target yet *)
    intros front c t Hlast Ht Hfr.
    assert (Hq2 : forwardQuery (Some InvalidDate) (window (pursuer s1))
                    (List.length (map anonymized newer)) (source (world s1)) = []).
    { unfold forwardQuery. cbn [queryBound].
      rewrite B1, A1, <- Hnewer, length_map, skipn_all. apply limitTo_nil. }
    pose proof (Pursuer_tick_flushes s1 (map anonymized newer) (map anonymized front)
                  (anonymized c) t) as T2.
    cbv zeta in T2.
    pose proof (loaded_with_pointer s1 InvalidDate P1) as L1.
    rewrite L1, P1, Hq2 in T2. cbn [map] in T2. rewrite app_nil_r in T2.
    assert (T2' : Pursuer_tick s1
                  = (Ok tt, flushedAt (map anonymized newer) t
                              (fetchedInto [] (afterCall (OpFind Source) s1)))).
    { apply T2.
      - exact Hl1.
      - exact Hup1.
      - exact Hh1.
      - right. rewrite Hlast, map_app. destruct (map anonymized front); discriminate.
      - rewrite Hlast, map_app. reflexivity.
      - exact Ht.
      - rewrite B2, A2. apply freshIds_anonymized. exact Hfr. }
    clear T2. eexists. split; [exact T2'|].
    set (s1' := fetchedInto [] (afterCall (OpFind Source) s1)).
    destruct (flushed_facts (map anonymized newer) t s1') as (F1 & F2 & F3 & F4).
    destruct (buffered_facts [] s1) as (_ & C2 & _).
    fold s1' in C2. rewrite F1, C2, B2, A2. now repeat split.
  - (* the second tick, one of the records in the target already *)
    intros c Hc Hid.
    destruct (wedged_tick s1 (map anonymized newer) (anonymized c) Hl1 Hup1 Hh1)
      as (id & s2 & batch & E & St & _).
    + apply in_map. exact Hc.
    + rewrite B2, A2. exact Hid.
    + destruct St as (_ & _ & _ & W1 & W2 & W3 & _ & W4).
      exists id, s2. split; [exact E|].
      split; [rewrite W2, B3, A3; exact Hf|]. split; [exact W1|exact W3].
Qed.

End Unparsable.

(* ------------------------------------------------------------------ *)
(** * Worked runs on the ISO 8601 platform                               *)
(* ------------------------------------------------------------------ *)

#[local] Existing Instance isoPlatform.

Lemma C1_reindex_refused_starts_continuous_mode_witness :
  exists s1 s2,
    run reindexConfig (idle lockedWorld) = (Ok tt, s1)
    /\ world s1 = world (idle lockedWorld) /\ trace s1 = trace (idle lockedWorld)
    /\ pursuer s1 = new_Pursuer reindexConfig /\ updater s1 = new_Updater
    /\ timers s1 = timers (idle lockedWorld)
                   ++ [Interval 1000 PursuerTick; Timeout 3000 UpdaterRun]
    /\ fireAll [PursuerTick; UpdaterRun; PursuerTick] s1 = (Ok tt, s2)
    /\ world s2 = world (idle lockedWorld) /\ trace s2 = trace (idle lockedWorld).
Proof.
  apply (C1_reindex_refused_starts_continuous_mode reindexConfig (idle lockedWorld)
           [PursuerTick; UpdaterRun; PursuerTick]).
  - repeat split.
  - unfold fullReindexRequested. simpl. auto.
  - reflexivity.
Defined.

(** C1, as stated, fails: with the flag given and the lock held, [run]
    does not end the process.  It returns normally, leaving the
    Pursuer's interval and the Updater's retry registered, so the
    process stays alive in continuous mode. *)
Lemma C1_flag_with_lock_held_does_not_exit :
  In IS_FULL_REINDEX (argv reindexConfig)
  /\ lockfile lockedWorld = true
  /\ fst (run reindexConfig (idle lockedWorld)) = Ok tt
  /\ fst (run reindexConfig (idle lockedWorld)) <> Exit 0
  /\ timers (snd (run reindexConfig (idle lockedWorld)))
     = [Interval 1000 PursuerTick; Timeout 3000 UpdaterRun].
Proof.
  split; [simpl; auto|]. vm_compute. repeat split. discriminate.
Qed.

Lemma C2_failed_reindex_leaves_lock_held_witness :
  run reindexConfig (idle failingWorld)
  = (Throw StoreError,
     mkProc (mkWorld [jane] [] None true 1700000000000 []) []
            (mkPursuer None 1000 []) (mkUpdater None) [] [OpFind Target] [])
  /\ lockfile (mkWorld [jane] [] None true 1700000000000 []) = true.
Proof.
  apply (C2_failed_reindex_leaves_lock_held reindexConfig (idle failingWorld)).
  - repeat split.
  - unfold fullReindexRequested. simpl. auto.
  - reflexivity.
  - reflexivity.
Defined.

Lemma C9_locked_actors_do_not_write_witness :
  Pursuer_tick (idle lockedWorld)
  = (Ok tt, with_pursuer (set_pointer None) (idle lockedWorld))
  /\ pointer (pursuer (snd (Pursuer_tick (idle lockedWorld)))) = None
  /\ world (snd (Pursuer_tick (idle lockedWorld))) = world (idle lockedWorld)
  /\ trace (snd (Pursuer_tick (idle lockedWorld))) = trace (idle lockedWorld)
  /\ exists s',
       Updater_onStreamData (anonymized jane) (idle lockedWorld) = (Ok tt, s')
       /\ world s' = world (idle lockedWorld) /\ trace s' = trace (idle lockedWorld)
       /\ targetWrites s' = targetWrites (idle lockedWorld)
       /\ timers s' = timers (idle lockedWorld) ++ [Timeout 3000 UpdaterRun]
       /\ cursor (updater s')
          = option_map (fun c => mkCursor (pending c) true)
                       (cursor (updater (idle lockedWorld))).
Proof.
  apply (C9_locked_actors_do_not_write (idle lockedWorld) (anonymized jane)).
  reflexivity.
Defined.

Lemma C6_initial_checkpoint_a_minute_earlier_witness :
  exists s',
    Pursuer_loadPointer (idle lockedWorld) = (Ok tt, s')
    /\ (source (world (idle lockedWorld)) = [] ->
        pointer (pursuer s')
        = Some (aMinuteEarlier (ValidDate (clock (world (idle lockedWorld))))))
    /\ (forall c t0,
          In c (source (world (idle lockedWorld))) -> createdAt c = ValidDate t0 ->
          (forall x, In x (source (world (idle lockedWorld))) ->
                     exists t, createdAt x = ValidDate t /\ t0 <= t) ->
          pointer (pursuer s') = Some (aMinuteEarlier (ValidDate t0)))
    /\ (forall t, inRange (t - 60000) ->
                  aMinuteEarlier (ValidDate t) = ValidDate (t - 60000)).
Proof.
  apply (C6_initial_checkpoint_a_minute_earlier (idle lockedWorld)).
  - reflexivity.
  - intros b [].
Defined.

(** C6, as stated, fails for an empty source: the checkpoint derived is
    a minute before the current time.  With the clock at
    1700000000000 it is 1699999940000. *)
Lemma C6_empty_source_checkpoint_is_not_now :
  source emptySourceWorld = [] /\ pointerStore emptySourceWorld = None
  /\ clock emptySourceWorld = 1700000000000
  /\ pointer (pursuer (snd (Pursuer_loadPointer (idle emptySourceWorld))))
     = Some (ValidDate 1699999940000)
  /\ pointer (pursuer (snd (Pursuer_loadPointer (idle emptySourceWorld))))
     <> Some (ValidDate (clock emptySourceWorld)).
Proof.
  vm_compute. repeat split. discriminate.
Qed.


Lemma realDates_dec_example :
  realDates [jane; john] /\ realDates [jane; carol]
  /\ realDates [jane; carol; dave; erin] /\ realDates [jane; carol; dave].
Proof.
  unfold realDates, inRange, maxTime.
  repeat match goal with |- _ /\ _ => split end;
    intros c t Hin E;
    repeat (destruct Hin as [<-|Hin]; [injection E as <-; lia|]); destruct Hin.
Qed.



Lemma C10_unparsable_checkpoint_restarts_from_the_epoch_witness :
  (forall s0 raw0,
      pointerStore (world s0) = Some raw0 ->
      Pursuer_loadPointer s0
      = (Ok tt, with_pursuer (set_pointer (Some (Date_parse raw0))) s0))
  /\ Pursuer_loadPointer startedGarbled
     = (Ok tt, with_pursuer (set_pointer (Some InvalidDate)) startedGarbled)
  /\ forwardQuery (Some InvalidDate) (window (pursuer startedGarbled)) 0
                  (source (world startedGarbled)) = [jane]
  /\ exists s1,
       Pursuer_tick startedGarbled = (Ok tt, s1)
       /\ holds s1 (buffer (pursuer s1)) (map anonymized [jane])
       /\ pointer (pursuer s1) = Some InvalidDate
       /\ target (world s1) = target (world startedGarbled)
       /\ pointerStore (world s1) = Some "not a date"
       /\ (forall front c t,
             [jane] = front ++ [c] -> createdAt c = ValidDate t ->
             freshIds (target (world startedGarbled)) [jane] ->
             exists s2,
               Pursuer_tick s1 = (Ok tt, s2)
               /\ target (world s2)
                  = target (world startedGarbled) ++ map anonymized [jane]
               /\ pointer (pursuer s2) = Some (ValidDate t)
               /\ pointerStore (world s2) = Some (toISO t)
               /\ buffer (pursuer s2) = [])
       /\ (forall c,
             In c [jane] -> hasId (_id c) (target (world startedGarbled)) = true ->
             exists id s2,
               Pursuer_tick s1 = (Throw (DuplicateKey id), s2)
               /\ pointerStore (world s2) = Some "not a date"
               /\ pointerWrites s2 = pointerWrites s1
               /\ exists more, buffer (pursuer s2) = buffer (pursuer s1) ++ more).
Proof.
  apply (C10_unparsable_checkpoint_restarts_from_the_epoch startedGarbled "not a date"
           [jane]).
  - reflexivity.
  - vm_compute. reflexivity.
  - reflexivity.
  - reflexivity.
  - reflexivity.
  - intros b [].
  - vm_compute. reflexivity.
  - vm_compute. reflexivity.
Defined.

(** C10, as stated, fails on a source that holds a record.  The file
    does not parse and the checkpoint loaded from it is the invalid
    date, yet the query selects Jane's record: the first tick fetches
    and buffers it, the second inserts it into the target and writes
    its creation timestamp over the file.  Beside a target that has
    the record already, the second tick ends in a duplicate key
    error. *)
Lemma C10_unparsable_checkpoint_fetches_and_flushes :
  pointerStore (world startedGarbled) = Some "not a date"
  /\ Date_parse "not a date" = InvalidDate
  /\ source (world startedGarbled) = [jane]
  /\ pointer (pursuer (runOf [Fires PursuerTick] startedGarbled)) = Some InvalidDate
  /\ List.length (buffer (pursuer (runOf [Fires PursuerTick] startedGarbled))) = 1%nat
  /\ target (world (runOf twoTicks startedGarbled)) = [anonymized jane]
  /\ targetWrites (runOf twoTicks startedGarbled) = [OpInsertMany Target]
  /\ pointerStore (world (runOf twoTicks startedGarbled))
     = Some "2020-09-13T12:26:40.000Z"
  /\ rejections (runOf twoTicks startedGarbled) = []
  /\ rejections (runOf twoTicks startedGarbledSynced) = [DuplicateKey 1%N].
Proof.
  vm_compute. repeat split.
Qed.


(* ------------------------------------------------------------------ *)
(** * Further worked runs                                                *)
(* ------------------------------------------------------------------ *)

Lemma anonymizeCustomer_email_has_one_at_witness :
  exists s' c' rest,
    anonymizeCustomer 0%nat (holding (withAt "a@b@c")) = (Ok 0%nat, s')
    /\ nth_error (heap s') 0%nat = Some c'
    /\ occurrences "@" (email c') = 1%nat
    /\ email c' = (hex (hd EmptyString (split "@" (email (withAt "a@b@c")))) ++ "@" ++ rest)%string
    /\ occurrences "@" rest = 0%nat.
Proof.
  apply (anonymizeCustomer_email_has_one_at (holding (withAt "a@b@c")) 0%nat (withAt "a@b@c")).
  reflexivity.
Defined.


Lemma target_records_are_never_removed_witness :
  exists more,
    map _id (target (world (runOf amongPrograms
                              (snd (run continuousConfig (idle oneRecordWorld))))))
    = map _id (target (world (idle oneRecordWorld))) ++ more.
Proof.
  apply (target_records_are_never_removed continuousConfig amongPrograms
           (idle oneRecordWorld)).
  unfold amongPrograms. repeat (constructor; try exact I).
Defined.

Lemma fullReindex_of_an_empty_source_witness :
  exists ops,
    trace (snd (fullReindex (idle orphanWorld))) = trace (idle orphanWorld) ++ ops
    /\ forallb isRead ops = true
    /\ target (world (snd (fullReindex (idle orphanWorld)))) = target (world (idle orphanWorld))
    /\ pointerStore (world (snd (fullReindex (idle orphanWorld))))
       = pointerStore (world (idle orphanWorld))
    /\ (storeUp (idle orphanWorld) ->
        fst (fullReindex (idle orphanWorld)) = Ok tt
        /\ ops = OpFind Target
                 :: repeat (OpFindOne Source)
                      (S (List.length (target (world (idle orphanWorld)))))).
Proof.
  apply (fullReindex_of_an_empty_source (idle orphanWorld)). reflexivity.
Defined.

Lemma fullReindex_completes_the_target_witness :
  exists s',
    fullReindex (idle halfDoneWorld) = (Ok tt, s')
    /\ target (world s')
       = map anonymized (sortByCreatedAt (source (world (idle halfDoneWorld))))
    /\ pointerStore (world s') = Some (toISO 1600000600000)
    /\ source (world s') = source (world (idle halfDoneWorld))
    /\ targetWrites s'
       = targetWrites (idle halfDoneWorld)
         ++ repeat (OpInsertOne Target) (List.length [carol; john])
    /\ pointerWrites s' = pointerWrites (idle halfDoneWorld) ++ [toISO 1600000600000].
Proof.
  apply (fullReindex_completes_the_target (idle halfDoneWorld) [jane] [carol; john]
           [jane; carol] john 1600000600000).
  - intros b [].
  - cbn. repeat constructor; cbn; intuition discriminate.
  - intros c H. cbn in H.
    destruct H as [<-|[<-|[<-|[]]]]; eexists; reflexivity.
  - reflexivity.
  - reflexivity.
  - intros a d ta td [<-|[]] [<-|[<-|[]]] Ha Hd; cbn in Ha, Hd;
      injection Ha as <-; injection Hd as <-; lia.
  - intros H. discriminate.
  - reflexivity.
  - reflexivity.
Defined.

Lemma Updater_onData_brings_the_record_in_step_witness :
  exists s1 s2,
    Updater_onData (withAt "jane@former.example") (idle staleWorld) = (Ok tt, s1)
    /\ target (world s1)
       = (if isEqual (withAt "jane@former.example") (anonymized jane)
          then target (world (idle staleWorld))
          else replaceFirst (_id (withAt "jane@former.example")) (anonymized jane)
                            (target (world (idle staleWorld))))
    /\ targetWrites s1
       = targetWrites (idle staleWorld)
         ++ (if isEqual (withAt "jane@former.example") (anonymized jane) then []
             else [OpUpdateOne Target])
    /\ (In (withAt "jane@former.example") (target (world (idle staleWorld))) ->
        In (anonymized jane) (target (world s1)))
    /\ source (world s1) = source (world (idle staleWorld))
    /\ Updater_onData (anonymized jane) s1 = (Ok tt, s2)
    /\ target (world s2) = target (world s1)
    /\ targetWrites s2 = targetWrites s1.
Proof.
  apply (Updater_onData_brings_the_record_in_step (idle staleWorld)
           (withAt "jane@former.example") jane).
  - intros b [].
  - cbn. repeat constructor; cbn; intuition discriminate.
  - cbn. now left.
  - reflexivity.
Defined.

Lemma duplicate_key_wedges_the_Pursuer_witness :
  exists ids more,
    List.length ids = List.length (List.filter isTick ticksAndArrivals)
    /\ rejections (runOf ticksAndArrivals afterFirstTick)
       = rejections afterFirstTick ++ map DuplicateKey ids
    /\ pointerWrites (runOf ticksAndArrivals afterFirstTick) = pointerWrites afterFirstTick
    /\ pointerStore (world (runOf ticksAndArrivals afterFirstTick))
       = pointerStore (world afterFirstTick)
    /\ buffer (pursuer (runOf ticksAndArrivals afterFirstTick))
       = buffer (pursuer afterFirstTick) ++ more.
Proof.
  apply (duplicate_key_wedges_the_Pursuer ticksAndArrivals afterFirstTick
           [anonymized jane] (anonymized jane)).
  - vm_compute. reflexivity.
  - intros b H. vm_compute in H. destruct H.
  - unfold holds. vm_compute. constructor; [reflexivity|constructor].
  - now left.
  - vm_compute. reflexivity.
  - unfold ticksAndArrivals. repeat (constructor; try exact I).
Defined.

Lemma stored_checkpoint_loads_back_witness :
  exists s1,
    Pursuer_storePointer
      (with_pursuer (set_pointer (Some (ValidDate 1600000000000))) (idle oneRecordWorld))
    = (Ok tt, s1)
    /\ pointerStore (world s1) = Some (ISO8601.render 1600000000000)
    /\ forall s',
         pointerStore (world s') = pointerStore (world s1) ->
         exists s2,
           Pursuer_loadPointer s' = (Ok tt, s2)
           /\ pointer (pursuer s2) = Some (ValidDate 1600000000000)
           /\ world s2 = world s' /\ trace s2 = trace s'.
Proof.
  apply (stored_checkpoint_loads_back
           (with_pursuer (set_pointer (Some (ValidDate 1600000000000))) (idle oneRecordWorld))
           1600000000000).
  - unfold inRange, maxTime. lia.
  - reflexivity.
Defined.

Lemma failed_tick_keeps_buffer_and_checkpoint_witness :
  (exists more,
      buffer (pursuer (snd (Pursuer_tick afterFirstTick)))
      = buffer (pursuer afterFirstTick) ++ more)
  /\ (forall p, pointer (pursuer afterFirstTick) = Some p ->
                pointer (pursuer (snd (Pursuer_tick afterFirstTick))) = Some p)
  /\ pointerStore (world (snd (Pursuer_tick afterFirstTick)))
     = pointerStore (world afterFirstTick)
  /\ pointerWrites (snd (Pursuer_tick afterFirstTick)) = pointerWrites afterFirstTick
  /\ rejections (snd (Pursuer_tick afterFirstTick)) = rejections afterFirstTick
  /\ tickError (DuplicateKey 1%N).
Proof.
  apply (failed_tick_keeps_buffer_and_checkpoint afterFirstTick (DuplicateKey 1%N)
           (snd (Pursuer_tick afterFirstTick))).
  vm_compute. reflexivity.
Defined.

Lemma full_buffer_fetches_the_whole_backlog_witness :
  exists s',
    Pursuer_tick afterRefusedFlush = (Ok tt, s')
    /\ target (world s')
       = target (world afterRefusedFlush)
         ++ [anonymized jane; anonymized carol; anonymized dave; anonymized john]
    /\ pointer (pursuer s') = Some (ValidDate 1600000600000)
    /\ pointerStore (world s') = Some (toISO 1600000600000)
    /\ buffer (pursuer s') = [].
Proof.
  apply (full_buffer_fetches_the_whole_backlog afterRefusedFlush [anonymized jane]
           (ValidDate 1599999940000)
           [anonymized jane; anonymized carol; anonymized dave] (anonymized john)
           1600000600000).
  - vm_compute. reflexivity.
  - intros b H. vm_compute in H. destruct H.
  - vm_compute. reflexivity.
  - unfold holds. vm_compute. constructor; [reflexivity|constructor].
  - discriminate.
  - vm_compute. reflexivity.
  - vm_compute. reflexivity.
  - reflexivity.
  - split.
    + vm_compute. repeat constructor; cbn; intuition discriminate.
    + intros d _. vm_compute. reflexivity.
Defined.

Lemma small_backlog_is_copied_in_two_ticks_witness :
  exists s1 s2,
    Pursuer_tick (withCheckpoint 1599999000000 threeRecordWorld) = (Ok tt, s1)
    /\ holds s1 (buffer (pursuer s1)) (map anonymized [jane; carol; john])
    /\ target (world s1) = target (world (withCheckpoint 1599999000000 threeRecordWorld))
    /\ pointerStore (world s1)
       = pointerStore (world (withCheckpoint 1599999000000 threeRecordWorld))
    /\ Pursuer_tick s1 = (Ok tt, s2)
    /\ target (world s2)
       = target (world (withCheckpoint 1599999000000 threeRecordWorld))
         ++ map anonymized [jane; carol; john]
    /\ pointer (pursuer s2) = Some (ValidDate 1600000600000)
    /\ pointerStore (world s2) = Some (toISO 1600000600000)
    /\ buffer (pursuer s2) = [].
Proof.
  apply (small_backlog_is_copied_in_two_ticks
           (withCheckpoint 1599999000000 threeRecordWorld) (ValidDate 1599999000000)
           [jane; carol; john] [jane; carol] john 1600000600000).
  - reflexivity.
  - intros b [].
  - reflexivity.
  - reflexivity.
  - vm_compute. reflexivity.
  - reflexivity.
  - reflexivity.
  - vm_compute. reflexivity.
  - split.
    + cbn. repeat constructor; cbn; intuition discriminate.
    + intros d _. reflexivity.
Defined.

Lemma completed_reindex_releases_the_lock_and_exits_witness :
  exists s',
    run reindexConfig (idle oneRecordWorld) = (Exit 0, s')
    /\ lockfile (world (snd (fullReindex (with_world (set_lockfile true)
                                            (idle oneRecordWorld))))) = true
    /\ lockfile (world s') = false
    /\ source (world s') = source (world (idle oneRecordWorld))
    /\ target (world s')
       = target (world (snd (fullReindex (with_world (set_lockfile true)
                                            (idle oneRecordWorld)))))
    /\ pointerStore (world s')
       = pointerStore (world (snd (fullReindex (with_world (set_lockfile true)
                                                  (idle oneRecordWorld)))))
    /\ timers s' = timers (idle oneRecordWorld)
    /\ pursuer s' = pursuer (idle oneRecordWorld)
    /\ updater s' = updater (idle oneRecordWorld)
    /\ rejections s' = rejections (idle oneRecordWorld).
Proof.
  apply (completed_reindex_releases_the_lock_and_exits reindexConfig (idle oneRecordWorld)
           (snd (fullReindex (with_world (set_lockfile true) (idle oneRecordWorld))))).
  - repeat split.
  - unfold fullReindexRequested. simpl. auto.
  - reflexivity.
  - vm_compute. reflexivity.
Defined.


Lemma anonymizeCustomer_drops_what_follows_a_second_at_witness :
  exists s' c',
    anonymizeCustomer 0%nat (holding (withAt "a@b@c")) = (Ok 0%nat, s')
    /\ nth_error (heap s') 0%nat = Some c'
    /\ email c' = (hex "a" ++ "@" ++ "b")%string.
Proof.
  apply (anonymizeCustomer_drops_what_follows_a_second_at (holding (withAt "a@b@c")) 0%nat
           (withAt "a@b@c") "a" "b" "c"); reflexivity.
Defined.

Lemma Updater_pass_reconciles_the_target_witness :
  exists docs s1 s2,
    fire UpdaterRun (idle driftedWorld) = (Ok tt, s1)
    /\ cursor (updater s1) = Some (mkCursor docs false)
    /\ docs = sortByCreatedAt (target (world (idle driftedWorld)))
    /\ fireAll (map StreamData docs) s1 = (Ok tt, s2)
    /\ target (world s2)
       = map (reconciled (source (world (idle driftedWorld))))
             (target (world (idle driftedWorld)))
    /\ ((forall t, In t (target (world (idle driftedWorld))) ->
                   reconciled (source (world (idle driftedWorld))) t = t) ->
        targetWrites s2 = targetWrites (idle driftedWorld))
    /\ source (world s2) = source (world (idle driftedWorld))
    /\ pointerStore (world s2) = pointerStore (world (idle driftedWorld))
    /\ pointerWrites s2 = pointerWrites (idle driftedWorld)
    /\ rejections s2 = rejections (idle driftedWorld).
Proof.
  apply (Updater_pass_reconciles_the_target (idle driftedWorld)).
  - reflexivity.
  - intros b [].
  - cbn. repeat constructor; cbn; intuition discriminate.
Defined.

Lemma target_only_receives_anonymized_records_witness :
  In (anonymized john)
     (target (world (runOf copyThenReconcile
                       (snd (run continuousConfig (idle halfDoneWorld))))))
  /\ (exists d, anonymized john = anonymized d)
  /\ isHex8 (firstName (anonymized john)) /\ isHex8 (lastName (anonymized john))
  /\ isHex8 (line1 (address (anonymized john)))
  /\ isHex8 (line2 (address (anonymized john)))
  /\ isHex8 (postcode (address (anonymized john)))
  /\ exists l rest,
       email (anonymized john) = (l ++ "@" ++ rest)%string
       /\ isHex8 l /\ occurrences "@" rest = 0%nat.
Proof.
  assert (H : In (anonymized john)
                (target (world (runOf copyThenReconcile
                                  (snd (run continuousConfig (idle halfDoneWorld))))))).
  { vm_compute. right. right. left. reflexivity. }
  split; [exact H|].
  apply (target_only_receives_anonymized_records continuousConfig (idle halfDoneWorld)
           copyThenReconcile (anonymized john)).
  - reflexivity.
  - constructor; [|constructor]. exists jane. reflexivity.
  - unfold copyThenReconcile. repeat (constructor; try exact I).
    + exists jane. reflexivity.
    + exists carol. reflexivity.
  - exact H.
Defined.

Lemma continuous_mode_never_touches_the_lock_witness :
  lockfile (world (snd (run reindexConfig (idle lockedWorld))))
  = lockfile (world (idle lockedWorld))
  /\ lockfile (world (runOf copyThenReconcile (snd (run reindexConfig (idle lockedWorld)))))
     = lockfile (world (idle lockedWorld)).
Proof.
  apply (continuous_mode_never_touches_the_lock reindexConfig (idle lockedWorld)
           copyThenReconcile).
  - right. reflexivity.
  - unfold copyThenReconcile. repeat (constructor; try exact I).
Defined.
